(** * lib/internal/util.js: the lazy-property / weak-reference / promisify core

    A shallow embedding of the utility primitives of [lib/internal/util.js]
    (deprecation wrappers, signal normalisation, lazy properties, promisify
    and [WeakReference]) with the properties their specification states,
    and of their neighbours: the small helpers of the same file,
    [callbackify] and [_extend] of [lib/util.js], [SyncWriteStream] and the
    legacy code of [DOMException].

    JavaScript closures become records of their captured variables, module
    level [let]s and the [process] object become explicit state, exceptions
    become an [Outcome], and objects used as dictionaries become [gmap]s. *)

From Stdlib Require Import ZArith List String Ascii Bool Lia.
From stdpp Require Import gmap strings list fin_maps sorting pretty.

Local Open Scope Z_scope.

(** ** JavaScript values

    Numbers are the integers ([VNum]) and [NaN]; a string stands for its
    UTF-8 bytes, so that equal strings are equal byte strings, and what the
    engine's case mapping does to it is a parameter where the code uses it.
    [VRef] is a reference to a heap object (a plain object or a function),
    which is always truthy. *)

Abbreviation loc := nat (only parsing).

Inductive Value :=
| VUndefined
| VNull
| VBool (b : bool)
| VNum (n : Z)
| VNaN
| VStr (s : string)
| VRef (l : loc).

#[global] Instance Value_eq_dec : EqDecision Value.
Proof. solve_decision. Defined.

(** ToBoolean: [undefined], [null], [false], [0], [NaN] and [''] are falsy. *)
Definition truthy (v : Value) : bool :=
  match v with
  | VUndefined | VNull | VNaN => false
  | VBool b => b
  | VNum n => negb (n =? 0)
  | VStr s => negb (String.eqb s "")
  | VRef _ => true
  end.

(** [typeof v === 'number'] *)
Definition is_number (v : Value) : bool :=
  match v with VNum _ | VNaN => true | _ => false end.

(** The errors of [internal/errors] that this file raises, the [TypeError]
    the engine throws when it refuses an operation, and a thrown value. *)
Inductive Error :=
| ERR_UNKNOWN_SIGNAL (signal : Value)
| ERR_INVALID_ARG_TYPE (name : string) (actual : Value)
| TypeError
| Thrown (e : Value).

(** A call either returns or throws. *)
Inductive Outcome (A : Type) :=
| Return (a : A)
| Throw (e : Error).
Arguments Return {A} a.
Arguments Throw {A} e.

(** One call of the warning sink ([process.emitWarning] or [emitWarningSync]):
    message, category, code, and the function given for stack attribution. *)
Record Warning := mkWarning {
  w_message : string;
  w_type : string;
  w_code : option string;
  w_ctor : option nat;
  w_sync : bool
}.

(** ** WeakReference *)

Module WeakRef.

(** The private fields of a [WeakReference], together with the one bit of the
    collector's state that [WeakRef.prototype.deref] observes: whether the
    target is still alive. *)
Record t := mk {
  weak : loc;
  alive : bool;
  strong : option loc;
  refCount : Z
}.

(** [this.#weak.deref()]: the target, or [undefined] ([None]) once collected. *)
Definition deref (r : t) : option loc :=
  if alive r then Some (weak r) else None.

(** [new WeakReference(object)] *)
Definition new (object : loc) : t :=
  {| weak := object; alive := true; strong := None; refCount := 0 |}.

Definition incRef (r : t) : Z * t :=
  let r1 := {| weak := weak r; alive := alive r; strong := strong r;
               refCount := refCount r + 1 |} in
  let r2 :=
    if refCount r1 =? 1 then
      match deref r1 with
      | Some derefed =>
          {| weak := weak r1; alive := alive r1; strong := Some derefed;
             refCount := refCount r1 |}
      | None => r1
      end
    else r1 in
  (refCount r2, r2).

Definition decRef (r : t) : Z * t :=
  let r1 := {| weak := weak r; alive := alive r; strong := strong r;
               refCount := refCount r - 1 |} in
  let r2 :=
    if refCount r1 =? 0 then
      {| weak := weak r1; alive := alive r1; strong := None;
         refCount := refCount r1 |}
    else r1 in
  (refCount r2, r2).

Definition get (r : t) : option loc := deref r.

(** The collector reclaims the target; it cannot while [#strong] holds it. *)
Definition collect (r : t) : t :=
  match strong r with
  | Some _ => r
  | None => {| weak := weak r; alive := false; strong := None;
               refCount := refCount r |}
  end.

(** What can happen to a reference: the three methods, and a collection. *)
Inductive op := IncRef | DecRef | Get | Collect.

#[global] Instance op_eq_dec : EqDecision op.
Proof. solve_decision. Defined.

Definition step (r : t) (o : op) : t :=
  match o with
  | IncRef => snd (incRef r)
  | DecRef => snd (decRef r)
  | Get => r
  | Collect => collect r
  end.

Definition run (ops : list op) (r : t) : t := fold_left step ops r.

(** The calls of a trace that change the count: [get] and collections are
    left out. *)
Definition counts (o : op) : bool :=
  match o with IncRef | DecRef => true | _ => false end.

Definition calls (ops : list op) : list op := List.filter counts ops.

(** History variable of the invariant: was the target alive at the most recent
    increment from zero ([None] before the first one)? *)
Definition track (g : option bool) (r : t) (o : op) : option bool :=
  match o with
  | IncRef => if refCount r =? 0 then Some (alive r) else g
  | _ => g
  end.

Fixpoint aliveAtLastIncFromZero (g : option bool) (ops : list op) (r : t)
  : option bool :=
  match ops with
  | [] => g
  | o :: ops' => aliveAtLastIncFromZero (track g r o) ops' (step r o)
  end.

(** The caller's obligation: [decRef] is never called when the count is 0. *)
Fixpoint disciplined (ops : list op) (r : t) : bool :=
  match ops with
  | [] => true
  | o :: ops' =>
      match o with
      | DecRef => negb (refCount r =? 0)
      | _ => true
      end && disciplined ops' (step r o)
  end.

(** The invariant of the data model. *)
Definition invariant (r : t) (g : option bool) : Prop :=
  strong r <> None <-> (0 < refCount r /\ g = Some true).

(** What one operation adds to the count, and a trace in all. *)
Definition delta (o : op) : Z :=
  match o with IncRef => 1 | DecRef => -1 | _ => 0 end.

Definition net (ops : list op) : Z :=
  fold_right (fun o acc => delta o + acc) 0 ops.

End WeakRef.

(** ** Deprecation wrappers *)

Module Deprecation.

(** Which function built the wrapper. [deprecate] leaves [shouldEmitWarning]
    at its default [() => true] and tests [process.noDeprecation] in the
    wrapper; [pendingDeprecate] passes [isPendingDeprecation] and calls the
    emitter unconditionally. *)
Inductive Kind := ByDeprecate | ByPendingDeprecate.

(** The closure [getDeprecationWarningEmitter] returns: its arguments and its
    [warned] variable. [code = None] is [code === undefined]. *)
Record Emitter := mkEmitter {
  code : option string;
  msg : string;
  useEmitSync : bool;
  kind : Kind;
  warned : bool
}.

(** Process-wide state: [process.noDeprecation], the two command line options
    read by [getOptionValue], the module level [codesWarned] set, the wrappers
    created so far (a wrapper is named by its position), and the calls made to
    the warning sink, oldest first. *)
Record Process := mkProcess {
  noDeprecation : bool;
  pending_deprecation : bool;
  no_deprecation : bool;
  codesWarned : gset string;
  wrappers : list Emitter;
  warnings : list Warning
}.

Definition init (noDep pendingDep noDepOption : bool) : Process :=
  {| noDeprecation := noDep; pending_deprecation := pendingDep;
     no_deprecation := noDepOption; codesWarned := ∅; wrappers := [];
     warnings := [] |}.

Definition isPendingDeprecation (p : Process) : bool :=
  pending_deprecation p && negb (no_deprecation p).

Definition shouldEmitWarning (k : Kind) (p : Process) : bool :=
  match k with
  | ByDeprecate => true
  | ByPendingDeprecate => isPendingDeprecation p
  end.

Definition set_warned (i : nat) (p : Process) : Process :=
  {| noDeprecation := noDeprecation p;
     pending_deprecation := pending_deprecation p;
     no_deprecation := no_deprecation p;
     codesWarned := codesWarned p;
     wrappers := alter (fun e => {| code := code e; msg := msg e;
                                    useEmitSync := useEmitSync e;
                                    kind := kind e; warned := true |})
                       i (wrappers p);
     warnings := warnings p |}.

(** [emitWarning(...)]: one more call of the sink. *)
Definition emit (w : Warning) (p : Process) : Process :=
  {| noDeprecation := noDeprecation p;
     pending_deprecation := pending_deprecation p;
     no_deprecation := no_deprecation p;
     codesWarned := codesWarned p;
     wrappers := wrappers p;
     warnings := warnings p ++ [w] |}.

(** [codesWarned.add(code)] *)
Definition add_code (c : string) (p : Process) : Process :=
  {| noDeprecation := noDeprecation p;
     pending_deprecation := pending_deprecation p;
     no_deprecation := no_deprecation p;
     codesWarned := {[c]} ∪ codesWarned p;
     wrappers := wrappers p;
     warnings := warnings p |}.

(** The function returned by [getDeprecationWarningEmitter], for wrapper [i]. *)
Definition emitDeprecationWarning (i : nat) (p : Process) : Process :=
  match wrappers p !! i with
  | None => p
  | Some e =>
      if negb (warned e) && shouldEmitWarning (kind e) p then
        let p1 := set_warned i p in
        match code e with
        | Some c =>
            if bool_decide (c ∈ codesWarned p1) then p1
            else
              add_code c
                (emit {| w_message := msg e; w_type := "DeprecationWarning";
                         w_code := Some c; w_ctor := Some i;
                         w_sync := useEmitSync e |} p1)
        | None =>
            emit {| w_message := msg e; w_type := "DeprecationWarning";
                    w_code := None; w_ctor := Some i; w_sync := false |} p1
        end
      else p
  end.

(** A call of the wrapper [deprecated], up to the point where it hands over to
    the wrapped function. *)
Definition deprecated (i : nat) (p : Process) : Process :=
  match wrappers p !! i with
  | None => p
  | Some e =>
      match kind e with
      | ByDeprecate =>
          if negb (noDeprecation p) then emitDeprecationWarning i p else p
      | ByPendingDeprecate => emitDeprecationWarning i p
      end
  end.

Definition new_wrapper (e : Emitter) (p : Process) : nat * Process :=
  (length (wrappers p),
   {| noDeprecation := noDeprecation p;
      pending_deprecation := pending_deprecation p;
      no_deprecation := no_deprecation p;
      codesWarned := codesWarned p;
      wrappers := wrappers p ++ [e];
      warnings := warnings p |}).

(** [deprecate(fn, msg, code, useEmitSync)]: [code] is a string or
    [undefined], as [validateString] demands. *)
Definition deprecate (m : string) (c : option string) (sync : bool)
    (p : Process) : nat * Process :=
  new_wrapper {| code := c; msg := m; useEmitSync := sync;
                 kind := ByDeprecate; warned := false |} p.

Definition pendingDeprecate (m : string) (c : option string)
    (p : Process) : nat * Process :=
  new_wrapper {| code := c; msg := m; useEmitSync := false;
                 kind := ByPendingDeprecate; warned := false |} p.

Definition set_noDeprecation (b : bool) (p : Process) : Process :=
  {| noDeprecation := b;
     pending_deprecation := pending_deprecation p;
     no_deprecation := no_deprecation p;
     codesWarned := codesWarned p;
     wrappers := wrappers p;
     warnings := warnings p |}.

(** What a program can do with this component. *)
Inductive op :=
| NewDeprecate (m : string) (c : option string) (sync : bool)
| NewPendingDeprecate (m : string) (c : option string)
| Call (i : nat)
| SetNoDeprecation (b : bool).

Definition step (p : Process) (o : op) : Process :=
  match o with
  | NewDeprecate m c sync => snd (deprecate m c sync p)
  | NewPendingDeprecate m c => snd (pendingDeprecate m c p)
  | Call i => deprecated i p
  | SetNoDeprecation b => set_noDeprecation b p
  end.

Definition run (ops : list op) (p : Process) : Process := fold_left step ops p.

(** Warnings emitted so far with code [c], and codeless warnings emitted so
    far by wrapper [i]. *)
Definition has_code (c : string) (w : Warning) : bool :=
  bool_decide (w_code w = Some c).

Definition codeless_of (i : nat) (w : Warning) : bool :=
  bool_decide (w_code w = None) && bool_decide (w_ctor w = Some i).

Definition coded (c : string) (p : Process) : nat :=
  length (List.filter (has_code c) (warnings p)).

Definition codeless (i : nat) (p : Process) : nat :=
  length (List.filter (codeless_of i) (warnings p)).

(** What the warning log and the [warned] flags have in common. *)
Record consistent (p : Process) : Prop := {
  coded_once : forall c, (coded c p <= 1)%nat;
  coded_seen : forall c, c ∉ codesWarned p -> coded c p = 0%nat;
  codeless_once : forall i, (codeless i p <= 1)%nat;
  codeless_unwarned : forall i e,
    wrappers p !! i = Some e -> warned e = false -> codeless i p = 0%nat;
  codeless_fresh : forall i,
    (length (wrappers p) <= i)%nat -> codeless i p = 0%nat
}.

End Deprecation.

(** ** Signal names and numbers *)

Module Signals.

(** [String.prototype.toUpperCase] is the engine's: it follows the Unicode
    case mapping, and is taken as a parameter. A string stands for its
    UTF-8 bytes; on a string of ASCII characters the engine's function is the
    mapping of a-z to A-Z below. *)
Definition upper_ascii (c : ascii) : ascii :=
  let n := nat_of_ascii c in
  if ((97 <=? n) && (n <=? 122))%nat then ascii_of_nat (n - 32) else c.

Fixpoint ascii_toUpperCase (s : string) : string :=
  match s with
  | EmptyString => EmptyString
  | String c s' => String (upper_ascii c) (ascii_toUpperCase s')
  end.

Fixpoint is_ascii (s : string) : bool :=
  match s with
  | EmptyString => true
  | String c s' => (nat_of_ascii c <? 128)%nat && is_ascii s'
  end.

Section Table.

Variable StringPrototypeToUpperCase : string -> string.

(** What is used of the engine's function besides its being a function. *)
Definition ascii_mapping : Prop :=
  forall s, is_ascii s = true ->
            StringPrototypeToUpperCase s = ascii_toUpperCase s.

(** [internalBinding('constants').os.signals], supplied by the platform: the
    signal names with their numbers, in the order [for ... in] visits them. *)
Variable signals : list (string * Z).

(** [signals[name]] *)
Definition signal_number (name : string) : Value :=
  match List.find (fun kv => String.eqb (fst kv) name) signals with
  | Some kv => VNum (snd kv)
  | None => VUndefined
  end.

(** The loop of [getSignalsToNamesMapping]; a property key that is a number
    is kept as that number. *)
Definition build_mapping : gmap Z string :=
  fold_left (fun m kv => <[snd kv := fst kv]> m) signals ∅.

(** The module level [signalsToNamesMapping]: [None] while [undefined]. *)
Definition State := option (gmap Z string).

Definition getSignalsToNamesMapping (st : State) : gmap Z string * State :=
  match st with
  | Some m => (m, st)
  | None => (build_mapping, Some build_mapping)
  end.

(** [mapping[signal]] for a number; [NaN] is no key of the mapping. *)
Definition mapping_get (m : gmap Z string) (signal : Value) : Value :=
  match signal with
  | VNum n => match m !! n with Some name => VStr name | None => VUndefined end
  | _ => VUndefined
  end.

Definition convertToValidSignal (signal : Value) (st : State)
  : Outcome Value * State :=
  let '(found, st1) :=
    if is_number signal then
      let '(m, st') := getSignalsToNamesMapping st in
      (truthy (mapping_get m signal), st')
    else (false, st) in
  if found then (Return signal, st1)
  else
    match signal with
    | VStr s =>
        let signalName := signal_number (StringPrototypeToUpperCase s) in
        if truthy signalName then (Return signalName, st1)
        else (Throw (ERR_UNKNOWN_SIGNAL signal), st1)
    | _ => (Throw (ERR_UNKNOWN_SIGNAL signal), st1)
    end.

(** The states the module variable can be in. *)
Definition cache_ok (st : State) : Prop :=
  st = None \/ st = Some build_mapping.

(** What a platform table looks like: no empty name, no signal numbered 0. *)
Definition table_ok : bool :=
  forallb (fun kv => negb (String.eqb (fst kv) "") && negb (snd kv =? 0))
          signals.

End Table.

(** An excerpt of the Linux table. *)
Definition linux_signals : list (string * Z) :=
  [("SIGHUP", 1); ("SIGINT", 2); ("SIGQUIT", 3); ("SIGABRT", 6);
   ("SIGIOT", 6); ("SIGKILL", 9); ("SIGTERM", 15)].

End Signals.

(** ** Lazy properties *)

Module Lazy.

(** What one call of [require(id)] does: it returns the module's exports, an
    object read as a mapping from keys to values, or it throws. *)
Inductive Loaded :=
| Exports (m : gmap string Value)
| Fails (e : Value).

Definition is_exports (r : Loaded) : bool :=
  match r with Exports _ => true | Fails _ => false end.

(** [mod[key]] *)
Definition export (m : gmap string Value) (key : string) : Value :=
  default VUndefined (m !! key).

(** An own property of the target: the accessor pair built by iteration [i]
    of the loop ([has_setter] tells whether [set] is defined), or a data
    property. *)
Inductive Property :=
| Accessor (i : nat) (has_setter : bool)
| Data (value : Value).

Section Registration.

(** The loader, as the outcome of the first, second, ... call of
    [require(id)], and the keys registered. *)
Variable require : nat -> Loaded.
Variable keys : list string.

(** [keys[i]] *)
Definition key_of (i : nat) : string := nth i keys ""%string.

(** *** defineLazyProperties *)

(** The target's properties and the variables the closures share: [mod]
    (written [mod'] here), and the [lazyLoadedValue] of each iteration;
    [loads] counts the calls of [require] made so far. *)
Record State := mkState {
  target : gmap string Property;
  mod' : option (gmap string Value);
  lazyLoadedValue : list Value;
  loads : nat
}.

(** [mod ??= require(id)] *)
Definition load (s : State) : Outcome (gmap string Value) * State :=
  match mod' s with
  | Some m => (Return m, s)
  | None =>
      match require (loads s) with
      | Exports m =>
          (Return m,
           {| target := target s; mod' := Some m;
              lazyLoadedValue := lazyLoadedValue s; loads := S (loads s) |})
      | Fails e =>
          (Throw (Thrown e),
           {| target := target s; mod' := None;
              lazyLoadedValue := lazyLoadedValue s; loads := S (loads s) |})
      end
  end.

(** The closure [set] of iteration [i]: the property becomes a writable data
    property. *)
Definition set (i : nat) (value : Value) (s : State) : State :=
  {| target := <[key_of i := Data value]> (target s); mod' := mod' s;
     lazyLoadedValue := lazyLoadedValue s; loads := loads s |}.

(** The closure [get] of iteration [i]. *)
Definition get (i : nat) (s : State) : Outcome Value * State :=
  match load s with
  | (Throw e, s1) => (Throw e, s1)
  | (Return m, s1) =>
      match nth i (lazyLoadedValue s1) VUndefined with
      | VUndefined =>
          let v := export m (key_of i) in
          let s2 := {| target := target s1; mod' := mod' s1;
                       lazyLoadedValue := <[i := v]> (lazyLoadedValue s1);
                       loads := loads s1 |} in
          (Return v, set i v s2)
      | v => (Return v, s1)
      end
  end.

(** The loop: iteration [i] stores its accessor pair under [keys[i]] in
    [descriptors]. *)
Fixpoint descriptors_from (i : nat) (ks : list string)
    (descriptors : gmap string Property) : gmap string Property :=
  match ks with
  | [] => descriptors
  | key :: ks' => descriptors_from (S i) ks' (<[key := Accessor i true]> descriptors)
  end.

(** [defineLazyProperties(target, id, keys)]: [Object.defineProperties] puts
    every descriptor on the target. *)
Definition defineLazyProperties (target0 : gmap string Property) : State :=
  {| target := descriptors_from 0 keys ∅ ∪ target0;
     mod' := None;
     lazyLoadedValue := replicate (length keys) VUndefined;
     loads := 0 |}.

(** Reading [target[K]]. *)
Definition read (K : string) (s : State) : Outcome Value * State :=
  match target s !! K with
  | Some (Accessor i _) => get i s
  | Some (Data v) => (Return v, s)
  | None => (Return VUndefined, s)
  end.

(** Writing [target[K] = v]: through the setter when the accessor is still
    there, else on the data property. *)
Definition write (K : string) (v : Value) (s : State) : State :=
  match target s !! K with
  | Some (Accessor i _) => set i v s
  | _ => {| target := <[K := Data v]> (target s); mod' := mod' s;
            lazyLoadedValue := lazyLoadedValue s; loads := loads s |}
  end.

Inductive op :=
| Read (K : string)
| Write (K : string) (v : Value).

Definition step (s : State) (o : op) : State :=
  match o with
  | Read K => snd (read K s)
  | Write K v => write K v s
  end.

Definition run (ops : list op) (s : State) : State := fold_left step ops s.

Definition writes_to (K : string) (o : op) : bool :=
  match o with
  | Write K' _ => String.eqb K K'
  | Read _ => false
  end.

(** The target before the call holds data properties only. *)
Definition plain (values : gmap string Value) : gmap string Property :=
  Data <$> values.

(** How many of the first [n] calls of [require] returned. *)
Definition successes (n : nat) : nat :=
  length (List.filter is_exports (map require (seq 0 n))).

(** An accessor that is still installed belongs to its key and has cached
    nothing; the module is held iff one call of [require] returned. *)
Record wf (s : State) : Prop := {
  wf_length : length (lazyLoadedValue s) = length keys;
  wf_accessor : forall K i b,
    target s !! K = Some (Accessor i b) ->
    key_of i = K /\ (i < length keys)%nat /\
    nth i (lazyLoadedValue s) VUndefined = VUndefined;
  wf_loaded : successes (loads s) = match mod' s with Some _ => 1 | None => 0 end%nat
}.

(** Once read, a property is a data property holding what the read returned
    (or is absent, and reads as [undefined]). *)
Definition settled (K : string) (v : Value) (s : State) : Prop :=
  target s !! K = Some (Data v) \/ (target s !! K = None /\ v = VUndefined).

(** *** defineReplaceableLazyAttribute *)

(** Here the accessors stay; each iteration keeps [value] and [setterCalled].
    [check], when given, is called with the receiver and may throw. *)
Variable check : option (Value -> option Value).

Record RState := mkRState {
  r_target : gmap string Property;
  r_mod : option (gmap string Value);
  r_value : list Value;
  r_setterCalled : list bool;
  r_loads : nat
}.

Definition r_load (s : RState) : Outcome (gmap string Value) * RState :=
  match r_mod s with
  | Some m => (Return m, s)
  | None =>
      match require (r_loads s) with
      | Exports m =>
          (Return m,
           {| r_target := r_target s; r_mod := Some m; r_value := r_value s;
              r_setterCalled := r_setterCalled s; r_loads := S (r_loads s) |})
      | Fails e =>
          (Throw (Thrown e),
           {| r_target := r_target s; r_mod := None; r_value := r_value s;
              r_setterCalled := r_setterCalled s; r_loads := S (r_loads s) |})
      end
  end.

(** [check !== undefined] and the call throws. *)
Definition check_throws (this : Value) : option Value :=
  match check with
  | Some c => c this
  | None => None
  end.

Definition r_get (i : nat) (this : Value) (s : RState)
  : Outcome Value * RState :=
  match check_throws this with
  | Some e => (Throw (Thrown e), s)
  | None =>
      if nth i (r_setterCalled s) false then
        (Return (nth i (r_value s) VUndefined), s)
      else
        match r_load s with
        | (Throw e, s1) => (Throw e, s1)
        | (Return m, s1) =>
            (* value ??= mod[key] *)
            let v :=
              match nth i (r_value s1) VUndefined with
              | VUndefined | VNull => export m (key_of i)
              | v => v
              end in
            (Return v,
             {| r_target := r_target s1; r_mod := r_mod s1;
                r_value := <[i := v]> (r_value s1);
                r_setterCalled := r_setterCalled s1; r_loads := r_loads s1 |})
        end
  end.

Definition r_set (i : nat) (val : Value) (s : RState) : RState :=
  {| r_target := r_target s; r_mod := r_mod s;
     r_value := <[i := val]> (r_value s);
     r_setterCalled := <[i := true]> (r_setterCalled s);
     r_loads := r_loads s |}.

(** The loop defines each property at once. *)
Fixpoint define_from (i : nat) (ks : list string) (writable : bool)
    (t : gmap string Property) : gmap string Property :=
  match ks with
  | [] => t
  | key :: ks' => define_from (S i) ks' writable (<[key := Accessor i writable]> t)
  end.

Definition defineReplaceableLazyAttribute (target0 : gmap string Property)
    (writable : bool) : RState :=
  {| r_target := define_from 0 keys writable target0;
     r_mod := None;
     r_value := replicate (length keys) VUndefined;
     r_setterCalled := replicate (length keys) false;
     r_loads := 0 |}.

Definition r_read (K : string) (this : Value) (s : RState)
  : Outcome Value * RState :=
  match r_target s !! K with
  | Some (Accessor i _) => r_get i this s
  | Some (Data v) => (Return v, s)
  | None => (Return VUndefined, s)
  end.

End Registration.

End Lazy.

(** ** promisify *)

Module Promisify.

(** *** The adapter and its callback *)

(** The object made by [{}] and the assignments of the declared names: its
    prototype and its own properties. The objects met here hold writable
    data properties; the one accessor is [__proto__] of [Object.prototype]. *)
Inductive Prototype :=
| ObjectPrototype
| NullPrototype
| PrototypeAt (l : loc).

Record Plain := mkPlain {
  prototype : Prototype;
  own : gmap string Value
}.

(** [{}] *)
Definition empty_object : Plain :=
  {| prototype := ObjectPrototype; own := ∅ |}.

(** What [resolve] is called with: the first value, or the object built from
    the declared names. *)
Inductive Resolution :=
| Single (v : Value)
| Named (obj : Plain).

(** A promise nobody has resolved or rejected yet, a promise fulfilled or
    rejected, and a promise resolved with a thenable, which it follows. The
    promise itself is not among the values of a callback. *)
Inductive Promise :=
| Pending
| Fulfilled (r : Resolution)
| Rejected (e : Value)
| Following (r : Resolution).

(** The [reject] of the executor: a promise already resolved or rejected
    stays as it is. *)
Definition reject (e : Value) (p : Promise) : Promise :=
  match p with Pending => Rejected e | _ => p end.

(** Only an object can be a thenable. *)
Definition is_object (r : Resolution) : bool :=
  match r with
  | Single (VRef _) => true
  | Single _ => false
  | Named _ => true
  end.

Section Engine.

(** What the engine finds in the heap: whether the [then] of an object that
    a promise is resolved with is callable, and whether the lookup of
    [__proto__] from the object at a location ends at the accessor of
    [Object.prototype]. *)
Variable thenable : Resolution -> bool.
Variable inherits_proto_accessor : loc -> bool.

(** The [resolve] of the executor: a thenable is adopted, anything else
    fulfils the promise. *)
Definition resolve (r : Resolution) (p : Promise) : Promise :=
  match p with
  | Pending => if is_object r && thenable r then Following r else Fulfilled r
  | _ => p
  end.

(** Whether [obj.__proto__ = ...] runs the accessor of [Object.prototype]:
    an own property of that name hides it. *)
Definition finds_proto_accessor (obj : Plain) : bool :=
  match own obj !! "__proto__"%string with
  | Some _ => false
  | None =>
      match prototype obj with
      | ObjectPrototype => true
      | NullPrototype => false
      | PrototypeAt l => inherits_proto_accessor l
      end
  end.

(** [obj[name] = value]: the accessor sets the prototype to an object or
    [null] and ignores other values; every other assignment makes or updates
    an own property. *)
Definition set_property (name : string) (value : Value) (obj : Plain)
  : Plain :=
  if String.eqb name "__proto__" && finds_proto_accessor obj then
    match value with
    | VRef l => {| prototype := PrototypeAt l; own := own obj |}
    | VNull => {| prototype := NullPrototype; own := own obj |}
    | _ => obj
    end
  else {| prototype := prototype obj; own := <[name := value]> (own obj) |}.

(** [for (let i = 0; i < argumentNames.length; i++)
      obj[argumentNames[i]] = values[i];] from index [i] on. *)
Fixpoint assign (names : list string) (i : nat) (values : list Value)
    (obj : Plain) : Plain :=
  match names with
  | [] => obj
  | name :: rest =>
      assign rest (S i) values (set_property name (nth i values VUndefined) obj)
  end.

(** The callback [(err, ...values) => ...] pushed onto the arguments, called
    with [args]. *)
Definition callback (argumentNames : option (list string))
    (args : list Value) (p : Promise) : Promise :=
  let err := nth 0 args VUndefined in
  let values := tl args in
  if truthy err then reject err p
  else
    match argumentNames with
    | Some names =>
        if (1 <? length values)%nat then
          resolve (Named (assign names 0 values empty_object)) p
        else resolve (Single (nth 0 values VUndefined)) p
    | None => resolve (Single (nth 0 values VUndefined)) p
    end.

(** How a call of the original function ends: it returns (a promise or
    something else, as [isPromise] tells) or throws. *)
Inductive Completion :=
| Returns (isPromise : bool)
| Throws (e : Value).

(** What the original function does with the callback on one call: the calls
    it makes before it returns, how it ends, the calls made later. *)
Record Behaviour := mkBehaviour {
  during : list (list Value);
  completion : Completion;
  later : list (list Value)
}.

Definition DEP0174 : Warning :=
  {| w_message :=
       "Calling promisify on a function that returns a Promise is likely a mistake.";
     w_type := "DeprecationWarning"; w_code := Some "DEP0174";
     w_ctor := None; w_sync := false |}.

(** What is seen of one call, in order. *)
Inductive Event :=
| Called (args : list Value)
| Warned (w : Warning).

(** The warnings a run of calls hands to the sink. *)
Definition warnings_of (evs : list Event) : list Warning :=
  flat_map (fun ev => match ev with Warned w => [w] | Called _ => [] end) evs.

(** The executor given to [new Promise]: the original runs with the callback
    pushed, then the warning is emitted if it returned a promise. The result
    is the exception the executor ends with, if any. *)
Definition executor (argumentNames : option (list string)) (b : Behaviour)
  : option Value * Promise * list Event :=
  let p := fold_left (fun p args => callback argumentNames args p)
                     (during b) Pending in
  let seen := map Called (during b) in
  match completion b with
  | Throws e => (Some e, p, seen)
  | Returns true => (None, p, seen ++ [Warned DEP0174])
  | Returns false => (None, p, seen)
  end.

Record Result := mkResult {
  at_return : Promise;
  eventually : Promise;
  events : list Event
}.

(** The adapter [fn]: [new Promise(executor)] rejects with what the executor
    throws, and the promise is returned; the later calls of the callback
    reach it afterwards. *)
Definition fn (argumentNames : option (list string)) (b : Behaviour)
  : Outcome Result :=
  let '(thrown, p, seen) := executor argumentNames b in
  let p1 := match thrown with Some e => reject e p | None => p end in
  Return {| at_return := p1;
            eventually := fold_left (fun p args => callback argumentNames args p)
                                    (later b) p1;
            events := seen ++ map Called (later b) |}.

Fixpoint calls (argumentNames : option (list string)) (bs : list Behaviour)
  : list Event :=
  match bs with
  | [] => []
  | b :: bs' =>
      match fn argumentNames b with
      | Return r => events r ++ calls argumentNames bs'
      | Throw _ => []
      end
  end.

End Engine.

(** *** promisify itself *)

(** What calling an object does, if it can be called. *)
Inductive Code :=
| NotCallable
| Native (behaviour : list Value -> Behaviour)
| Adapter (original : loc) (argumentNames : option (list string)).

(** An object: its prototype, its own [kCustomPromisifiedSymbol] and
    [kCustomPromisifyArgsSymbol] properties when it has them, and its other
    own properties, all data properties. Of the attributes, what
    [Object.defineProperty] and [Object.defineProperties] can be refused
    for: whether the object is extensible, whether its own
    [kCustomPromisifiedSymbol] property is configurable, and whether it has
    an own property [prototype] that is configurable, enumerable or an
    accessor, unlike the one of a function declaration or a class. *)
Record Obj := mkObj {
  code : Code;
  proto : option loc;
  custom : option Value;
  argNames : option (list string);
  statics : gmap string Value;
  extensible : bool;
  custom_configurable : bool;
  loose_prototype : bool
}.

Abbreviation Heap := (list Obj) (only parsing).

Definition callable (o : Obj) : bool :=
  match code o with NotCallable => false | _ => true end.

(** [typeof v === 'function'] *)
Definition is_function (h : Heap) (v : Value) : bool :=
  match v with
  | VRef l => match h !! l with Some o => callable o | None => false end
  | _ => false
  end.

(** Modelled from the spec: [validateFunction] of [internal/validators],
    which is not among the sources; a value that is not callable is refused
    (InvalidArgument). *)
Definition validateFunction (h : Heap) (value : Value) (name : string)
  : Outcome loc :=
  match value with
  | VRef l =>
      if is_function h value then Return l
      else Throw (ERR_INVALID_ARG_TYPE name value)
  | _ => Throw (ERR_INVALID_ARG_TYPE name value)
  end.

(** [o[kCustomPromisifiedSymbol]] and [o[kCustomPromisifyArgsSymbol]]: the own
    property, else the prototype's. A chain of prototypes visits each object
    at most once, so [length h] steps are enough. *)
Fixpoint get_custom (fuel : nat) (h : Heap) (l : loc) : Value :=
  match fuel with
  | O => VUndefined
  | S n =>
      match h !! l with
      | None => VUndefined
      | Some o =>
          match custom o with
          | Some v => v
          | None =>
              match proto o with
              | Some p => get_custom n h p
              | None => VUndefined
              end
          end
      end
  end.

Fixpoint get_argNames (fuel : nat) (h : Heap) (l : loc)
  : option (list string) :=
  match fuel with
  | O => None
  | S n =>
      match h !! l with
      | None => None
      | Some o =>
          match argNames o with
          | Some a => Some a
          | None =>
              match proto o with
              | Some p => get_argNames n h p
              | None => None
              end
          end
      end
  end.

(** Whether [Object.defineProperty(fn, kCustomPromisifiedSymbol,
    { value, enumerable: false, writable: false, configurable: true })] is
    accepted: an own property must be configurable, and a new one needs an
    extensible object. *)
Definition accepts_custom (o : Obj) : bool :=
  match custom o with
  | Some _ => custom_configurable o
  | None => extensible o
  end.

(** What that [Object.defineProperty] does when it is accepted. *)
Definition defineCustom (l : loc) (v : Value) (h : Heap) : Heap :=
  alter (fun o => {| code := code o; proto := proto o; custom := Some v;
                     argNames := argNames o; statics := statics o;
                     extensible := extensible o;
                     custom_configurable := true;
                     loose_prototype := loose_prototype o |}) l h.

(** Whether [Object.defineProperties(fn, Object.getOwnPropertyDescriptors(
    original))] is accepted by the function [fn] just declared: of its own
    properties only [prototype] is not configurable (it is a writable data
    property that is not enumerable), and a descriptor of the original that
    differs in those attributes is refused. *)
Definition accepts_properties (original : Obj) : bool :=
  negb (loose_prototype original).

(** What that [Object.defineProperties] does when it is accepted: every own
    property of the original is defined on [fn], with its attributes,
    replacing what [fn] had under that key. *)
Definition defineProperties (fn original : Obj) : Obj :=
  {| code := code fn;
     proto := proto fn;
     custom := match custom original with
               | Some v => Some v
               | None => custom fn
               end;
     argNames := match argNames original with
                 | Some a => Some a
                 | None => argNames fn
                 end;
     statics := statics original ∪ statics fn;
     extensible := extensible fn;
     custom_configurable := match custom original with
                            | Some _ => custom_configurable original
                            | None => custom_configurable fn
                            end;
     loose_prototype := loose_prototype fn |}.

(** An object without properties, standing for one that is not there. *)
Definition no_object : Obj :=
  {| code := NotCallable; proto := None; custom := None; argNames := None;
     statics := ∅; extensible := true; custom_configurable := true;
     loose_prototype := false |}.

Definition promisify (original : Value) (h : Heap) : Outcome loc * Heap :=
  match validateFunction h original "original" with
  | Throw e => (Throw e, h)
  | Return l =>
      let marker := get_custom (length h) h l in
      if truthy marker then
        match validateFunction h marker "util.promisify.custom" with
        | Throw e => (Throw e, h)
        | Return fn =>
            if accepts_custom (default no_object (h !! fn)) then
              (Return fn, defineCustom fn (VRef fn) h)
            else (Throw TypeError, h)
        end
      else
        let argumentNames := get_argNames (length h) h l in
        let fn := length h in
        let o := default no_object (h !! l) in
        let fresh := {| code := Adapter l argumentNames;
                        proto := proto o;
                        custom := Some (VRef fn);
                        argNames := None;
                        statics := ∅;
                        extensible := true;
                        custom_configurable := true;
                        loose_prototype := false |} in
        if accepts_properties o then (Return fn, h ++ [defineProperties fresh o])
        else (Throw TypeError, h)
  end.

(** A call of the adapter at [l], the function it wraps being a native one
    whose behaviour on the arguments is given. *)
Definition call (thenable : Resolution -> bool)
    (inherits_proto_accessor : loc -> bool) (h : Heap) (l : loc)
    (args : list Value) : option (Outcome Result) :=
  match h !! l with
  | Some o =>
      match code o with
      | Adapter original argumentNames =>
          match h !! original with
          | Some wrapped =>
              match code wrapped with
              | Native behaviour =>
                  Some (fn thenable inherits_proto_accessor argumentNames
                          (behaviour args))
              | _ => None
              end
          | None => None
          end
      | _ => None
      end
  | None => None
  end.

(** A function as a function declaration makes it, with its own
    properties. *)
Definition declared (c : Code) (marker : option Value)
    (names : option (list string)) (properties : gmap string Value) : Obj :=
  {| code := c; proto := None; custom := marker; argNames := names;
     statics := properties; extensible := true; custom_configurable := true;
     loose_prototype := false |}.

(** A function declaring the names x and y that reports (null, 1, 2) to its
    callback after it has returned. *)
Definition xy_heap : Heap :=
  [ declared
      (Native (fun _ => {| during := []; completion := Returns false;
                           later := [[VNull; VNum 1; VNum 2]] |}))
      None (Some ["x"; "y"]%string) ∅ ].

(** A function that answers its callback and returns a promise. *)
Definition returns_promise : Behaviour :=
  {| during := [[VNull; VNum 1]]; completion := Returns true; later := [] |}.

(** A function whose [util.promisify.custom] property is 42, and one whose
    property is [undefined]. *)
Definition marked (v : Value) : Heap :=
  [ declared
      (Native (fun _ => {| during := []; completion := Returns false;
                           later := [] |}))
      (Some v) None ∅ ].

End Promisify.

(** ** Strings and arrays: join, spliceOne, normalizeEncoding,
       filterDuplicateStrings *)

Module Util.

(** [StringPrototypeToLowerCase], on the ASCII letters: no other character
    has a letter of an encoding's name as its lower case, so this is all
    that [normalizeEncoding] sees of the engine's function. *)
Definition lower_ascii (c : ascii) : ascii :=
  let n := nat_of_ascii c in
  if ((65 <=? n) && (n <=? 90))%nat then ascii_of_nat (n + 32) else c.

Fixpoint StringPrototypeToLowerCase (s : string) : string :=
  match s with
  | EmptyString => EmptyString
  | String c s' => String (lower_ascii c) (StringPrototypeToLowerCase s')
  end.

(** *** join *)

(** The loop [for (let i = 0; i < lastIndex; i++)], with [n] rounds left. *)
Fixpoint join_loop (output : list string) (separator : string)
    (i n : nat) (str : string) : string :=
  match n with
  | O => str
  | S n' =>
      join_loop output separator (S i) n'
        ((str +:+ nth i output ""%string) +:+ separator)
  end.

Definition join (output : list string) (separator : string) : string :=
  if (length output =? 0)%nat then ""%string
  else
    let lastIndex := (length output - 1)%nat in
    join_loop output separator 0 lastIndex ""%string
      +:+ nth lastIndex output ""%string.

(** *** spliceOne *)

(** [for (; index + 1 < list.length; index++) list[index] = list[index + 1];]
    The array keeps its length, so [length list] rounds are enough. *)
Fixpoint spliceOne_loop (fuel : nat) (list : Datatypes.list Value)
    (index : nat) : Datatypes.list Value :=
  match fuel with
  | O => list
  | S fuel' =>
      if (index + 1 <? length list)%nat then
        spliceOne_loop fuel'
          (<[index := nth (index + 1) list VUndefined]> list) (S index)
      else list
  end.

(** [list.pop()] ends it; the array after the call. *)
Definition spliceOne (list : Datatypes.list Value) (index : nat)
  : Datatypes.list Value :=
  removelast (spliceOne_loop (length list) list index).

(** *** normalizeEncoding *)

(** [slowCases(enc)] for a string; [None] is [undefined]. *)
Definition slowCases (enc : string) : option string :=
  let len := String.length enc in
  if (len =? 4)%nat then
    if String.eqb enc "UTF8" then Some "utf8"%string
    else if String.eqb enc "ucs2" || String.eqb enc "UCS2"
    then Some "utf16le"%string
    else
      let enc := StringPrototypeToLowerCase enc in
      if String.eqb enc "utf8" then Some "utf8"%string
      else if String.eqb enc "ucs2" then Some "utf16le"%string
      else None
  else if (len =? 3)%nat then
    if String.eqb enc "hex" || String.eqb enc "HEX" ||
       String.eqb (StringPrototypeToLowerCase enc) "hex"
    then Some "hex"%string
    else None
  else if (len =? 5)%nat then
    if String.eqb enc "ascii" then Some "ascii"%string
    else if String.eqb enc "ucs-2" then Some "utf16le"%string
    else if String.eqb enc "UTF-8" then Some "utf8"%string
    else if String.eqb enc "ASCII" then Some "ascii"%string
    else if String.eqb enc "UCS-2" then Some "utf16le"%string
    else
      let enc := StringPrototypeToLowerCase enc in
      if String.eqb enc "utf-8" then Some "utf8"%string
      else if String.eqb enc "ascii" then Some "ascii"%string
      else if String.eqb enc "ucs-2" then Some "utf16le"%string
      else None
  else if (len =? 6)%nat then
    if String.eqb enc "base64" then Some "base64"%string
    else if String.eqb enc "latin1" || String.eqb enc "binary"
    then Some "latin1"%string
    else if String.eqb enc "BASE64" then Some "base64"%string
    else if String.eqb enc "LATIN1" || String.eqb enc "BINARY"
    then Some "latin1"%string
    else
      let enc := StringPrototypeToLowerCase enc in
      if String.eqb enc "base64" then Some "base64"%string
      else if String.eqb enc "latin1" || String.eqb enc "binary"
      then Some "latin1"%string
      else None
  else if (len =? 7)%nat then
    if String.eqb enc "utf16le" || String.eqb enc "UTF16LE" ||
       String.eqb (StringPrototypeToLowerCase enc) "utf16le"
    then Some "utf16le"%string
    else None
  else if (len =? 8)%nat then
    if String.eqb enc "utf-16le" || String.eqb enc "UTF-16LE" ||
       String.eqb (StringPrototypeToLowerCase enc) "utf-16le"
    then Some "utf16le"%string
    else None
  else if (len =? 9)%nat then
    if String.eqb enc "base64url" || String.eqb enc "BASE64URL" ||
       String.eqb (StringPrototypeToLowerCase enc) "base64url"
    then Some "base64url"%string
    else None
  else if String.eqb enc "" then Some "utf8"%string
  else None.

(** [normalizeEncoding(enc)] for an encoding left out ([None]: [undefined] or
    [null]) or given as a string. *)
Definition normalizeEncoding (enc : option string) : option string :=
  match enc with
  | None => Some "utf8"%string
  | Some enc =>
      if String.eqb enc "utf8" || String.eqb enc "utf-8"
      then Some "utf8"%string
      else slowCases enc
  end.

(** The names [normalizeEncoding] stands for, as a table on lower-case
    names. *)
Definition encoding_table (name : string) : option string :=
  if String.eqb name "" || String.eqb name "utf8" || String.eqb name "utf-8"
  then Some "utf8"%string
  else if String.eqb name "ucs2" || String.eqb name "ucs-2" ||
          String.eqb name "utf16le" || String.eqb name "utf-16le"
  then Some "utf16le"%string
  else if String.eqb name "hex" then Some "hex"%string
  else if String.eqb name "ascii" then Some "ascii"%string
  else if String.eqb name "base64" then Some "base64"%string
  else if String.eqb name "latin1" || String.eqb name "binary"
  then Some "latin1"%string
  else if String.eqb name "base64url" then Some "base64url"%string
  else None.

End Util.

(** ** filterDuplicateStrings *)

Module Duplicates.

(** Here a string is the sequence of its UTF-16 code units, which is what
    the keys of a [Map] and the order of [sort] depend on. *)
Abbreviation JSString := (list N) (only parsing).

(** [x < y] on strings and the default order of [Array.prototype.sort]:
    the first code unit that differs decides, and a prefix comes first. *)
Fixpoint units_leb (a b : JSString) : bool :=
  match a, b with
  | [], _ => true
  | _ :: _, [] => false
  | x :: a', y :: b' =>
      if (x <? y)%N then true
      else if (y <? x)%N then false
      else units_leb a' b'
  end.

Definition code_unit_le (a b : JSString) : Prop := units_leb a b = true.

#[global] Instance code_unit_le_dec a b : Decision (code_unit_le a b).
Proof. unfold code_unit_le. apply _. Defined.

Section Engine.

(** [String.prototype.toLowerCase] is the engine's (Unicode case mapping)
    and is taken as a parameter. *)
Variable StringPrototypeToLowerCase : JSString -> JSString.

(** [map.set(key, value)] on a [Map], whose keys stay in the order of their
    first insertion. *)
Fixpoint map_set (key value : JSString) (m : list (JSString * JSString))
  : list (JSString * JSString) :=
  match m with
  | [] => [(key, value)]
  | (k, v) :: m' =>
      if bool_decide (k = key) then (k, value) :: m'
      else (k, v) :: map_set key value m'
  end.

(** The loop over [items]. *)
Definition collect (low : bool) (items : list JSString)
  : list (JSString * JSString) :=
  fold_left
    (fun m item =>
       let key := StringPrototypeToLowerCase item in
       if low then map_set key key m else map_set key item m)
    items [].

(** [ArrayPrototypeSort(Array.from(map.values()))]: the values in ascending
    order of their code units. *)
Definition filterDuplicateStrings (items : list JSString) (low : bool)
  : list JSString :=
  merge_sort code_unit_le (map snd (collect low items)).

End Engine.

End Duplicates.

(** ** Functions that remember: once, getLazy, cachedResult,
       emitExperimentalWarning *)

Module Memo.

(** *** once *)

Section Once.

(** The callback, by what a call with given arguments does, and the option
    [preserveReturnValue]. *)
Variable callback : list Value -> Outcome Value.
Variable preserveReturnValue : bool.

(** The variables of the closure [once] returns; [invoked] counts the calls
    of the callback. *)
Record OnceState := mkOnce {
  called : bool;
  returnValue : Value;
  invoked : nat
}.

Definition once : OnceState :=
  {| called := false; returnValue := VUndefined; invoked := 0 |}.

(** A call of the function [once] returned. *)
Definition once_call (args : list Value) (s : OnceState)
  : Outcome Value * OnceState :=
  if called s then (Return (returnValue s), s)
  else
    let s1 := {| called := true; returnValue := returnValue s;
                 invoked := S (invoked s) |} in
    match callback args with
    | Throw e => (Throw e, s1)
    | Return result =>
        (Return result,
         {| called := called s1;
            returnValue := if preserveReturnValue then result else VUndefined;
            invoked := invoked s1 |})
    end.

(** Calls one after the other, and what each gave. *)
Fixpoint once_calls (argss : list (list Value)) (s : OnceState)
  : list (Outcome Value) * OnceState :=
  match argss with
  | [] => ([], s)
  | args :: rest =>
      let '(r, s1) := once_call args s in
      let '(rs, s2) := once_calls rest s1 in
      (r :: rs, s2)
  end.

End Once.

(** *** getLazy *)

Section GetLazy.

(** The initializer, by what its first, second, ... call does. *)
Variable initializer : nat -> Outcome Value.

Record LazyState := mkLazy {
  value : Value;
  initialized : bool;
  initializations : nat
}.

Definition getLazy : LazyState :=
  {| value := VUndefined; initialized := false; initializations := 0 |}.

(** A call of the function [getLazy] returned. *)
Definition getLazy_call (s : LazyState) : Outcome Value * LazyState :=
  if initialized s then (Return (value s), s)
  else
    match initializer (initializations s) with
    | Throw e =>
        (Throw e, {| value := value s; initialized := false;
                     initializations := S (initializations s) |})
    | Return v =>
        (Return v, {| value := v; initialized := true;
                      initializations := S (initializations s) |})
    end.

Fixpoint getLazy_calls (n : nat) (s : LazyState)
  : list (Outcome Value) * LazyState :=
  match n with
  | O => ([], s)
  | S n' =>
      let '(r, s1) := getLazy_call s in
      let '(rs, s2) := getLazy_calls n' s1 in
      (r :: rs, s2)
  end.

End GetLazy.

(** *** cachedResult *)

Section CachedResult.

(** [fn], by what its first, second, ... call does; it returns an array. *)
Variable fn : nat -> Outcome (list Value).

(** The arrays there are (an array is named by its position), the variable
    [result] of the closure ([None] while [undefined]), and the number of
    calls of [fn] so far. *)
Record CacheState := mkCache {
  arrays : list (list Value);
  result : option nat;
  fn_calls : nat
}.

Definition cachedResult : CacheState :=
  {| arrays := []; result := None; fn_calls := 0 |}.

(** [if (result === undefined) result = fn();] *)
Definition cached_load (s : CacheState) : Outcome nat * CacheState :=
  match result s with
  | Some a => (Return a, s)
  | None =>
      match fn (fn_calls s) with
      | Throw e =>
          (Throw e, {| arrays := arrays s; result := None;
                       fn_calls := S (fn_calls s) |})
      | Return elements =>
          (Return (length (arrays s)),
           {| arrays := arrays s ++ [elements];
              result := Some (length (arrays s));
              fn_calls := S (fn_calls s) |})
      end
  end.

(** A call of the function [cachedResult] returned: [ArrayPrototypeSlice]
    makes a new array with the elements of [result]. *)
Definition cached_call (s : CacheState) : Outcome nat * CacheState :=
  match cached_load s with
  | (Throw e, s1) => (Throw e, s1)
  | (Return a, s1) =>
      (Return (length (arrays s1)),
       {| arrays := arrays s1 ++ [default [] (arrays s1 !! a)];
          result := result s1; fn_calls := fn_calls s1 |})
  end.

(** What callers do: they call, and they write into arrays they were given
    ([a[i] = v], within the array's length). *)
Inductive cache_op :=
| CCall
| CWrite (a i : nat) (v : Value).

Definition cache_step (s : CacheState) (o : cache_op) : CacheState :=
  match o with
  | CCall => snd (cached_call s)
  | CWrite a i v =>
      {| arrays := alter (fun elements => <[i := v]> elements) a (arrays s);
         result := result s; fn_calls := fn_calls s |}
  end.

(** A trace in which callers only write into arrays handed out before. *)
Fixpoint own_writes (known : list nat) (ops : list cache_op) (s : CacheState)
  : bool :=
  match ops with
  | [] => true
  | o :: ops' =>
      match o with
      | CCall =>
          own_writes
            (match fst (cached_call s) with
             | Return a => a :: known
             | Throw _ => known
             end) ops' (cache_step s o)
      | CWrite a _ _ =>
          bool_decide (a ∈ known) && own_writes known ops' (cache_step s o)
      end
  end.

Definition cache_run (ops : list cache_op) (s : CacheState) : CacheState :=
  fold_left cache_step ops s.

End CachedResult.

(** *** emitExperimentalWarning *)

(** The module level set [experimentalWarnings] and the calls made to
    [process.emitWarning]. *)
Record Experimental := mkExperimental {
  experimentalWarnings : gset string;
  emitted : list Warning
}.

Definition experimental_warning (feature : string) : Warning :=
  {| w_message :=
       feature +:+ " is an experimental feature and might change at any time";
     w_type := "ExperimentalWarning"; w_code := None; w_ctor := None;
     w_sync := false |}.

Definition emitExperimentalWarning (feature : string) (s : Experimental)
  : Experimental :=
  if bool_decide (feature ∈ experimentalWarnings s) then s
  else
    {| experimentalWarnings := {[feature]} ∪ experimentalWarnings s;
       emitted := emitted s ++ [experimental_warning feature] |}.

Definition experimental_run (features : list string) (s : Experimental)
  : Experimental :=
  fold_left (fun s feature => emitExperimentalWarning feature s) features s.

End Memo.

(** ** callbackify (lib/util.js) *)

Module Callbackify.

(** The promise the original returns, by how it ends. *)
Inductive Settled :=
| Never
| Fulfils (ret : Value)
| Rejects (rej : Value).

(** [Reflect.apply(original, this, args)]: the original throws or returns a
    promise. *)
Inductive Applied :=
| Threw (e : Value)
| Promised (s : Settled).

(** One call of the callback, made on a later tick, and the reason given to
    [new ERR_FALSY_VALUE_REJECTION(reason)] when that error was created for
    it. *)
Record Tick := mkTick {
  cb_args : list Value;
  created : option Value
}.

(** [callbackifyOnRejected(reason, cb)]; the error it creates is the object
    at [fresh]. *)
Definition callbackifyOnRejected (fresh : loc) (reason : Value) : Tick :=
  if negb (truthy reason) then
    {| cb_args := [VRef fresh]; created := Some reason |}
  else {| cb_args := [reason]; created := None |}.

(** [callbackified(...args)]: the last argument is popped and validated, the
    original is applied to the others, and the callback is scheduled by the
    promise's [then]. The result is what the callback is called with later,
    if it is called. *)
Definition callbackified (h : list Promisify.Obj)
    (original : list Value -> Applied) (fresh : loc) (args : list Value)
  : Outcome (option Tick) :=
  let maybeCb := List.last args VUndefined in
  match Promisify.validateFunction h maybeCb "last argument" with
  | Throw e => Throw e
  | Return _ =>
      match original (removelast args) with
      | Threw e => Throw (Thrown e)
      | Promised Never => Return None
      | Promised (Fulfils ret) =>
          Return (Some {| cb_args := [VNull; ret]; created := None |})
      | Promised (Rejects rej) =>
          Return (Some (callbackifyOnRejected fresh rej))
      end
  end.

(** What a caller that passes a callback sees of [callbackified]: nothing
    before it returns [undefined] or throws, the callback's call later. An
    argument error is an object of [internal/errors], not a value of this
    model. *)
Definition behaviour (o : Outcome (option Tick)) : option Promisify.Behaviour :=
  match o with
  | Return t =>
      Some {| Promisify.during := [];
              Promisify.completion := Promisify.Returns false;
              Promisify.later := match t with
                                 | Some t => [cb_args t]
                                 | None => []
                                 end |}
  | Throw (Thrown e) =>
      Some {| Promisify.during := [];
              Promisify.completion := Promisify.Throws e;
              Promisify.later := [] |}
  | Throw _ => None
  end.

(** The same as a function called with a callback pushed after [args], as
    the adapter of [promisify] calls it: the callback passes the validation. *)
Definition as_native (original : list Value -> Applied) (fresh : loc)
    (args : list Value) : Promisify.Behaviour :=
  {| Promisify.during := [];
     Promisify.completion :=
       match original args with
       | Threw e => Promisify.Throws e
       | Promised _ => Promisify.Returns false
       end;
     Promisify.later :=
       match original args with
       | Threw _ | Promised Never => []
       | Promised (Fulfils ret) => [[VNull; ret]]
       | Promised (Rejects rej) => [cb_args (callbackifyOnRejected fresh rej)]
       end |}.

(** [descriptors.length.value++] and
    [descriptors.name.value += 'Callbackified'], done for a number and for a
    string. *)
Definition bump_length (v : Value) : Value :=
  match v with VNum n => VNum (n + 1) | _ => v end.

Definition tag_name (v : Value) : Value :=
  match v with VStr s => VStr (s +:+ "Callbackified") | _ => v end.

(** [callbackify(original)], the original being given by what applying it
    does. The own properties of the original, its two markers among them,
    are defined on the function [callbackified], whose prototype is
    [Function.prototype] (at [function_prototype], if the heap holds it).
    Reading [descriptors.length.value] or [descriptors.name.value] throws
    when the original has no such own property. *)
Definition callbackify (applied : list Value -> Applied) (fresh : loc)
    (function_prototype : option loc) (original : Value)
    (h : list Promisify.Obj) : Outcome loc * list Promisify.Obj :=
  match Promisify.validateFunction h original "original" with
  | Throw e => (Throw e, h)
  | Return l =>
      let o := default Promisify.no_object (h !! l) in
      match Promisify.statics o !! "length"%string,
            Promisify.statics o !! "name"%string with
      | Some len, Some name =>
          let descriptors :=
            {| Promisify.code := Promisify.code o;
               Promisify.proto := Promisify.proto o;
               Promisify.custom := Promisify.custom o;
               Promisify.argNames := Promisify.argNames o;
               Promisify.statics :=
                 <["name"%string := tag_name name]>
                   (<["length"%string := bump_length len]>
                      (Promisify.statics o));
               Promisify.extensible := Promisify.extensible o;
               Promisify.custom_configurable :=
                 Promisify.custom_configurable o;
               Promisify.loose_prototype := Promisify.loose_prototype o |} in
          let callbackified :=
            {| Promisify.code := Promisify.Native (as_native applied fresh);
               Promisify.proto := function_prototype;
               Promisify.custom := None;
               Promisify.argNames := None;
               Promisify.statics := ∅;
               Promisify.extensible := true;
               Promisify.custom_configurable := true;
               Promisify.loose_prototype := false |} in
          if Promisify.accepts_properties o then
            (Return (length h),
             h ++ [Promisify.defineProperties callbackified descriptors])
          else (Throw TypeError, h)
      | _, _ => (Throw TypeError, h)
      end
  end.

(** [Function.prototype], and an asynchronous function [f(a)] with its own
    [length] and [name]; neither has a marker. *)
Definition async_heap : list Promisify.Obj :=
  [ Promisify.declared
      (Promisify.Native (fun _ => {| Promisify.during := [];
                                     Promisify.completion :=
                                       Promisify.Returns false;
                                     Promisify.later := [] |}))
      None None ∅;
    Promisify.declared
      (Promisify.Native (fun _ => {| Promisify.during := [];
                                     Promisify.completion :=
                                       Promisify.Returns true;
                                     Promisify.later := [] |}))
      None None {[ "length"%string := VNum 1; "name"%string := VStr "f" ]} ].

End Callbackify.

(** ** Plain objects: _extend (lib/util.js) and filterOwnProperties *)

Module Objects.

(** The prototype of an object: [Object.prototype], [null] or an object of
    the heap. *)
Inductive Prototype :=
| ObjectPrototype
| NullPrototype
| PrototypeAt (l : loc).

#[global] Instance Prototype_eq_dec : EqDecision Prototype.
Proof. solve_decision. Defined.

(** A heap object: whether [typeof] says function, its prototype, whether it
    is extensible, and its own properties, which are enumerable writable
    data properties with string keys. The one accessor is [__proto__] of
    [Object.prototype], which is not an object of the heap. *)
Record Obj := mkObj {
  is_callable : bool;
  prototype : Prototype;
  extensible : bool;
  own : gmap string Value
}.

(** Whether the lookup of [__proto__] from a prototype ends at the accessor
    of [Object.prototype]: an own property of that name on the way hides
    it. A chain of prototypes visits each object at most once, so
    [length h] steps are enough. *)
Fixpoint finds_proto_accessor (fuel : nat) (h : list Obj) (p : Prototype)
  : bool :=
  match p with
  | ObjectPrototype => true
  | NullPrototype => false
  | PrototypeAt l =>
      match fuel with
      | O => false
      | S n =>
          match h !! l with
          | Some a =>
              match own a !! "__proto__"%string with
              | Some _ => false
              | None => finds_proto_accessor n h (prototype a)
              end
          | None => false
          end
      end
  end.






Section Keys.

(** [Object.keys], for the order in which it lists the keys. *)
Variable ObjectKeys : gmap string Value -> list string.

(** [source[key]] for an own property. *)
Definition get (h : list Obj) (l : loc) (key : string) : Value :=
  match h !! l with
  | Some o => default VUndefined (own o !! key)
  | None => VUndefined
  end.



End Keys.

(** [filterOwnProperties(source, keys)]: the loop from [keys] on, and the
    function. The object it fills has no prototype, so every key becomes an
    own property. *)
Fixpoint filter_loop (source : gmap string Value) (keys : list string)
    (filtered : gmap string Value) : gmap string Value :=
  match keys with
  | [] => filtered
  | key :: keys' =>
      match source !! key with
      | Some v => filter_loop source keys' (<[key := v]> filtered)
      | None => filter_loop source keys' filtered
      end
  end.

Definition filterOwnProperties (source : gmap string Value)
    (keys : list string) : gmap string Value :=
  filter_loop source keys ∅.

End Objects.

(** ** getCWDURL *)

Module Cwd.

Section GetCWDURL.

(** [require('path').sep], and [pathToFileURL] by the href of its result. *)
Variable sep : string.
Variable pathToFileURL : string -> string.

(** [cachedURL] and [cachedCWD]; [None] is [undefined]. *)
Record State := mkState {
  cachedURL : option string;
  cachedCWD : option string
}.

Definition init : State := {| cachedURL := None; cachedCWD := None |}.

(** One call, [process.cwd()] returning [Some cwd] or throwing. *)
Definition getCWDURL (cwd : option string) (s : State)
  : option string * State :=
  match cwd with
  | None =>
      let s1 := {| cachedURL := Some (default (pathToFileURL sep) (cachedURL s));
                   cachedCWD := cachedCWD s |} in
      (cachedURL s1, s1)
  | Some c =>
      if bool_decide (cachedCWD s = Some c) then (cachedURL s, s)
      else
        let s1 := {| cachedURL := Some (pathToFileURL (c ++ sep));
                     cachedCWD := Some c |} in
        (cachedURL s1, s1)
  end.

Definition run (cwds : list (option string)) (s : State) : State :=
  fold_left (fun s cwd => snd (getCWDURL cwd s)) cwds s.

(** The last directory [process.cwd()] returned. *)
Fixpoint last_cwd (cwds : list (option string)) (seen : option string)
  : option string :=
  match cwds with
  | [] => seen
  | Some c :: rest => last_cwd rest (Some c)
  | None :: rest => last_cwd rest seen
  end.

End GetCWDURL.

End Cwd.

(** ** SyncWriteStream (lib/internal/fs/sync_write_stream.js) *)

Module SyncWriteStream.

Record t := mkStream {
  fd : Value;
  readable : bool;
  autoClose : Value
}.

(** [new SyncWriteStream(fd, options)]; [options] is [None] when it is not
    an object with properties ([options || kEmptyObject]). *)
Definition new (fd0 : Value) (options : option (gmap string Value)) : t :=
  let options := default ∅ options in
  let autoClose0 := default VUndefined (options !! "autoClose"%string) in
  {| fd := fd0;
     readable := false;
     autoClose := if decide (autoClose0 = VUndefined) then VBool true
                  else autoClose0 |}.

(** What is seen of the stream: the calls of [writeSync] and [closeSync],
    with what they threw, and the calls of the callbacks. *)
Inductive Event :=
| WriteSync (fd : Value) (chunk : string) (offset length : nat)
            (threw : option Value)
| CloseSync (fd : Value) (threw : option Value)
| Cb (args : list Value).

(** [_write(chunk, encoding, cb)], [writeSync] throwing [threw]. *)
Definition _write (chunk : string) (threw : option Value) (s : t)
  : Outcome unit * t * list Event :=
  match threw with
  | Some e =>
      (Return tt, s,
       [WriteSync (fd s) chunk 0 (String.length chunk) threw; Cb [e]])
  | None =>
      (Return tt, s,
       [WriteSync (fd s) chunk 0 (String.length chunk) threw; Cb []])
  end.

(** [_destroy(err, cb)], [closeSync] throwing [threw] if it is called. *)
Definition _destroy (err : Value) (threw : option Value) (s : t)
  : Outcome unit * t * list Event :=
  if decide (fd s = VNull) then (Return tt, s, [Cb [err]])
  else
    let closed := {| fd := VNull; readable := readable s;
                     autoClose := autoClose s |} in
    if truthy (autoClose s) then
      match threw with
      | Some e => (Throw (Thrown e), s, [CloseSync (fd s) threw])
      | None => (Return tt, closed, [CloseSync (fd s) threw; Cb [err]])
      end
    else (Return tt, closed, [Cb [err]]).

Inductive op :=
| Write (chunk : string) (threw : option Value)
| Destroy (err : Value) (threw : option Value).

Definition step (s : t) (o : op) : Outcome unit * t * list Event :=
  match o with
  | Write chunk threw => _write chunk threw s
  | Destroy err threw => _destroy err threw s
  end.

(** The stream and the events after a sequence of calls, each exception
    being caught by the caller. *)
Fixpoint run (ops : list op) (s : t) : t * list Event :=
  match ops with
  | [] => (s, [])
  | o :: rest =>
      let '(_, s1, evs1) := step s o in
      let '(s2, evs2) := run rest s1 in
      (s2, evs1 ++ evs2)
  end.

Definition closed_ok (ev : Event) : bool :=
  match ev with CloseSync _ None => true | _ => false end.

Definition close_failed (ev : Event) : bool :=
  match ev with CloseSync _ (Some _) => true | _ => false end.

Definition is_cb (ev : Event) : bool :=
  match ev with Cb _ => true | _ => false end.

End SyncWriteStream.

(** ** DOMException: the legacy code *)

Module DOMException.

Record Internals := mkInternals {
  message : string;
  name : string
}.

(** The table of the loop that fills [nameToCodeMap]. *)
Definition legacy : list (string * string * Z) :=
  [ ("IndexSizeError", "INDEX_SIZE_ERR", 1);
    ("DOMStringSizeError", "DOMSTRING_SIZE_ERR", 2);
    ("HierarchyRequestError", "HIERARCHY_REQUEST_ERR", 3);
    ("WrongDocumentError", "WRONG_DOCUMENT_ERR", 4);
    ("InvalidCharacterError", "INVALID_CHARACTER_ERR", 5);
    ("NoDataAllowedError", "NO_DATA_ALLOWED_ERR", 6);
    ("NoModificationAllowedError", "NO_MODIFICATION_ALLOWED_ERR", 7);
    ("NotFoundError", "NOT_FOUND_ERR", 8);
    ("NotSupportedError", "NOT_SUPPORTED_ERR", 9);
    ("InUseAttributeError", "INUSE_ATTRIBUTE_ERR", 10);
    ("InvalidStateError", "INVALID_STATE_ERR", 11);
    ("SyntaxError", "SYNTAX_ERR", 12);
    ("InvalidModificationError", "INVALID_MODIFICATION_ERR", 13);
    ("NamespaceError", "NAMESPACE_ERR", 14);
    ("InvalidAccessError", "INVALID_ACCESS_ERR", 15);
    ("ValidationError", "VALIDATION_ERR", 16);
    ("TypeMismatchError", "TYPE_MISMATCH_ERR", 17);
    ("SecurityError", "SECURITY_ERR", 18);
    ("NetworkError", "NETWORK_ERR", 19);
    ("AbortError", "ABORT_ERR", 20);
    ("URLMismatchError", "URL_MISMATCH_ERR", 21);
    ("QuotaExceededError", "QUOTA_EXCEEDED_ERR", 22);
    ("TimeoutError", "TIMEOUT_ERR", 23);
    ("InvalidNodeTypeError", "INVALID_NODE_TYPE_ERR", 24);
    ("DataCloneError", "DATA_CLONE_ERR", 25) ]%string.

Definition nameToCodeMap : gmap string Z :=
  fold_left (fun m '(name, codeName, value) => <[name := value]> m) legacy ∅.

Definition disusedNamesSet : gset string :=
  {[ "ValidationError"%string ]} ∪
  ({[ "NoDataAllowedError"%string ]} ∪
   ({[ "DOMStringSizeError"%string ]} ∪ ∅)).

(** A getter returns, or [throwInvalidThisError(TypeError, type)] throws. *)
Inductive Got (A : Type) :=
| Returned (a : A)
| ERR_INVALID_THIS (type : string).
Arguments Returned {A} a.
Arguments ERR_INVALID_THIS {A} type.

(** [internalsMap.get(this)] *)
Definition internals_of (internalsMap : gmap loc Internals) (this : Value)
  : option Internals :=
  match this with
  | VRef l => internalsMap !! l
  | _ => None
  end.

(** [get name()] *)
Definition get_name (internalsMap : gmap loc Internals) (this : Value)
  : Got string :=
  match internals_of internalsMap this with
  | None => ERR_INVALID_THIS "DOMException"
  | Some internals => Returned (name internals)
  end.

(** [get code()] *)
Definition get_code (internalsMap : gmap loc Internals) (this : Value)
  : Got Z :=
  match internals_of internalsMap this with
  | None => ERR_INVALID_THIS "DOMException"
  | Some internals =>
      if bool_decide (name internals ∈ disusedNamesSet) then Returned 0
      else
        match nameToCodeMap !! name internals with
        | None => Returned 0
        | Some code => Returned code
        end
  end.

End DOMException.

(* ================================================================== *)
(** * Properties *)
(* ================================================================== *)

(** ** WeakReference *)

Section WeakReferenceFacts.
Import WeakRef.

Lemma refCount_step r o : refCount (step r o) = refCount r + delta o.
Proof.
  destruct o; cbn.
  - destruct (refCount r + 1 =? 1); [destruct (deref _)|]; cbn; lia.
  - destruct (refCount r - 1 =? 0); cbn; lia.
  - lia.
  - unfold collect; destruct (strong r); cbn; lia.
Qed.

Lemma refCount_run ops : forall r, refCount (run ops r) = refCount r + net ops.
Proof.
  induction ops as [|o ops IH]; intros r.
  - cbn. lia.
  - change (run (o :: ops) r) with (run ops (step r o)).
    change (net (o :: ops)) with (delta o + net ops).
    rewrite IH, refCount_step. lia.
Qed.

Lemma weak_step r o : weak (step r o) = weak r.
Proof.
  destruct o; cbn; try reflexivity.
  - destruct (refCount r + 1 =? 1); [destruct (deref _)|]; reflexivity.
  - destruct (refCount r - 1 =? 0); reflexivity.
  - unfold collect; destruct (strong r); reflexivity.
Qed.

Lemma weak_run ops : forall r, weak (run ops r) = weak r.
Proof.
  induction ops as [|o ops IH]; intros r; [reflexivity|].
  change (run (o :: ops) r) with (run ops (step r o)).
  now rewrite IH, weak_step.
Qed.

Lemma net_calls ops : net (calls ops) = net ops.
Proof.
  induction ops as [|o ops IH]; [reflexivity|].
  change (net (o :: ops)) with (delta o + net ops). rewrite <- IH.
  destruct o; reflexivity.
Qed.

Lemma net_app ops1 ops2 : net (ops1 ++ ops2) = net ops1 + net ops2.
Proof.
  induction ops1 as [|o ops1 IH]; [reflexivity|].
  change (net ((o :: ops1) ++ ops2)) with (delta o + net (ops1 ++ ops2)).
  change (net (o :: ops1)) with (delta o + net ops1). lia.
Qed.

Lemma net_repeat o n : net (repeat o n) = Z.of_nat n * delta o.
Proof.
  induction n as [|n IH]; [reflexivity|].
  change (net (repeat o (S n))) with (delta o + net (repeat o n)). lia.
Qed.

Lemma decRef_returns_count r : fst (decRef r) = refCount r - 1.
Proof. unfold decRef; cbn. destruct (refCount r - 1 =? 0); reflexivity. Qed.

Lemma incRef_returns_count r : fst (incRef r) = refCount r + 1.
Proof.
  unfold incRef; cbn.
  destruct (refCount r + 1 =? 1); [destruct (deref _)|]; reflexivity.
Qed.

(** The count after a trace only depends on how many increments and
    decrements it holds: [decRef] returns the count it started from, less
    one, whatever that count was. *)
Lemma decRef_after_trace r ops :
  fst (decRef (run ops r)) = refCount r + net ops - 1.
Proof. now rewrite decRef_returns_count, refCount_run. Qed.

(** C5. On a [WeakReference] whose count is 0, as it is once constructed,
    after N >= 1 calls of [incRef] followed by N calls of [decRef] (with [get]
    called and the collector run at any point in between), the last [decRef]
    returns 0; and [get], then or after further collections, is the weak
    handle dereferenced: the target while it is alive, absent once it is
    collected, whatever the count. *)
Theorem incRef_decRef_balanced (r0 : t) (N : nat) (ops1 ops2 : list op) :
  refCount r0 = 0 ->
  (1 <= N)%nat ->
  calls ops1 = repeat IncRef N ->
  calls ops2 = repeat DecRef (N - 1) ->
  let r := run (ops1 ++ ops2) r0 in
  fst (decRef r) = 0 /\
  (forall gc, calls gc = [] ->
     let r' := run gc (snd (decRef r)) in
     get r' = deref r' /\
     get r' = if alive r' then Some (weak r0) else None) /\
  (forall r1 r2, weak r1 = weak r2 -> alive r1 = alive r2 -> get r1 = get r2).
Proof.
  intros H0 HN H1 H2 r. split; [|split].
  - subst r. rewrite decRef_after_trace, net_app, H0.
    rewrite <- (net_calls ops1), <- (net_calls ops2), H1, H2, !net_repeat.
    cbn. lia.
  - intros gc _ r'. split; [reflexivity|].
    unfold get, deref. subst r'.
    rewrite weak_run. change (snd (decRef r)) with (step r DecRef).
    rewrite weak_step. subst r. now rewrite weak_run.
  - intros r1 r2 Hw Ha. unfold get, deref. now rewrite Hw, Ha.
Qed.

Lemma incRef_decRef_balanced_witness :
  fst (decRef (run ([IncRef; Collect; IncRef; Get; IncRef] ++ [DecRef; Collect; DecRef])
                   (new 7%nat))) = 0.
Proof.
  apply (incRef_decRef_balanced (new 7%nat) 3%nat
           [IncRef; Collect; IncRef; Get; IncRef] [DecRef; Collect; DecRef]);
    [reflexivity | lia | reflexivity | reflexivity].
Defined.

Lemma invariant_new object : invariant (new object) None.
Proof. unfold invariant; cbn. split; [congruence | intros [H _]; lia]. Qed.

(** One step keeps the invariant, with the history variable updated. *)
Lemma invariant_step r g o :
  invariant r g -> invariant (step r o) (track g r o).
Proof.
  unfold invariant. intros Inv. destruct o; cbn.
  - destruct (Z.eqb_spec (refCount r) 0) as [E|E];
      destruct (Z.eqb_spec (refCount r + 1) 1) as [E1|E1]; try lia.
    + unfold deref; cbn. destruct (alive r); cbn.
      * split; [intros _; split; [lia|reflexivity] | congruence].
      * split.
        -- intros Hs. apply Inv in Hs. lia.
        -- intros [_ Hg]. congruence.
    + cbn. split.
      * intros Hs. apply Inv in Hs. split; [lia | tauto].
      * intros [Hc Hg]. apply Inv. split; [lia | assumption].
  - destruct (Z.eqb_spec (refCount r - 1) 0) as [E|E]; cbn.
    + split; [congruence | lia].
    + split.
      * intros Hs. apply Inv in Hs. split; [lia | tauto].
      * intros [Hc Hg]. apply Inv. split; [lia | assumption].
  - exact Inv.
  - unfold collect. destruct (strong r) eqn:Es; cbn; [now rewrite Es|].
    split; [congruence|]. intros H. apply Inv in H. congruence.
Qed.

(** The invariant does not depend on the caller's discipline: in this code a
    count driven below zero leaves the strong handle null. *)
Lemma invariant_run ops : forall r g,
  invariant r g -> invariant (run ops r) (aliveAtLastIncFromZero g ops r).
Proof.
  induction ops as [|o ops IH]; intros r g Inv; cbn; [exact Inv|].
  apply IH, invariant_step, Inv.
Qed.

Lemma disciplined_nonneg ops : forall r,
  0 <= refCount r -> disciplined ops r = true -> 0 <= refCount (run ops r).
Proof.
  induction ops as [|o ops IH]; intros r Hr Hd; cbn in *; [exact Hr|].
  apply andb_prop in Hd as [Ho Hd]. apply IH; [|exact Hd].
  rewrite refCount_step. destruct o; cbn in *; lia.
Qed.

(** C9. A new reference satisfies the invariant, and when [decRef] is never
    called on a count of 0, every sequence of [incRef], [decRef], [get] (and
    collections) keeps it, and keeps the count non-negative: the strong handle
    is non-null iff the count is positive and the target was alive at the most
    recent increment from zero. *)
Theorem invariant_preserved (r : t) (g : option bool) (ops : list op) :
  invariant r g ->
  0 <= refCount r ->
  disciplined ops r = true ->
  invariant (run ops r) (aliveAtLastIncFromZero g ops r) /\
  0 <= refCount (run ops r).
Proof.
  intros Inv Hr Hd. split.
  - now apply invariant_run.
  - now apply disciplined_nonneg.
Qed.

Lemma invariant_preserved_witness :
  let ops := [IncRef; IncRef; DecRef; Get; DecRef; Collect; IncRef] in
  invariant (run ops (new 7%nat)) (aliveAtLastIncFromZero None ops (new 7%nat)) /\
  0 <= refCount (run ops (new 7%nat)).
Proof.
  apply (invariant_preserved (new 7%nat) None
           [IncRef; IncRef; DecRef; Get; DecRef; Collect; IncRef]).
  - apply invariant_new.
  - cbn; lia.
  - reflexivity.
Defined.

End WeakReferenceFacts.

(** ** Deprecation wrappers *)

Section DeprecationFacts.
Import Deprecation.

Lemma consistent_init a b c : consistent (init a b c).
Proof. split; intros; cbn; try reflexivity; lia. Qed.

Lemma coded_emit c w p :
  coded c (emit w p) = (coded c p + (if has_code c w then 1 else 0))%nat.
Proof.
  unfold coded; cbn. rewrite List.filter_app, length_app. cbn.
  destruct (has_code c w); reflexivity.
Qed.

Lemma codeless_emit i w p :
  codeless i (emit w p) = (codeless i p + (if codeless_of i w then 1 else 0))%nat.
Proof.
  unfold codeless; cbn. rewrite List.filter_app, length_app. cbn.
  destruct (codeless_of i w); reflexivity.
Qed.

Lemma consistent_new_wrapper e p :
  warned e = false -> consistent p -> consistent (snd (new_wrapper e p)).
Proof.
  intros He [H1 H2 H3 H4 H5]. split; cbn; try assumption.
  - intros i e' Hl Hw.
    destruct (decide (i < length (wrappers p))%nat) as [Hi|Hi].
    + rewrite lookup_app_l in Hl by exact Hi. now apply (H4 i e').
    + apply H5. lia.
  - intros i Hi. rewrite length_app in Hi. cbn in Hi. apply H5. lia.
Qed.

Lemma consistent_set_noDeprecation b p :
  consistent p -> consistent (set_noDeprecation b p).
Proof. intros [H1 H2 H3 H4 H5]. split; assumption. Qed.

Lemma set_warned_lookup i j p e :
  wrappers (set_warned i p) !! j = Some e ->
  warned e = false ->
  i <> j /\ wrappers p !! j = Some e.
Proof.
  cbn. intros Hl Hw. destruct (decide (i = j)) as [->|Hne].
  - rewrite list_lookup_alter_eq in Hl.
    destruct (wrappers p !! j); cbn in Hl; [|discriminate].
    injection Hl as <-. discriminate.
  - split; [exact Hne|]. now rewrite list_lookup_alter_ne in Hl.
Qed.

Lemma has_code_codeless c w : w_code w = None -> has_code c w = false.
Proof. intros H. unfold has_code. rewrite H. now case_bool_decide. Qed.

Lemma codeless_of_coded i w c : w_code w = Some c -> codeless_of i w = false.
Proof. intros H. unfold codeless_of. rewrite H. now case_bool_decide. Qed.

Lemma coded_add_code c x p : coded c (add_code x p) = coded c p.
Proof. reflexivity. Qed.

Lemma codeless_add_code i x p : codeless i (add_code x p) = codeless i p.
Proof. reflexivity. Qed.

Lemma coded_set_warned c i p : coded c (set_warned i p) = coded c p.
Proof. reflexivity. Qed.

Lemma codeless_set_warned j i p : codeless j (set_warned i p) = codeless j p.
Proof. reflexivity. Qed.

Lemma consistent_emitDeprecationWarning i p :
  consistent p -> consistent (emitDeprecationWarning i p).
Proof.
  intros C. unfold emitDeprecationWarning.
  destruct (wrappers p !! i) as [e|] eqn:Hi; [|exact C].
  destruct (negb (warned e) && shouldEmitWarning (kind e) p) eqn:Hg; [|exact C].
  apply andb_prop in Hg as [Hw _]. apply negb_true_iff in Hw.
  assert (Hlen : length (wrappers (set_warned i p)) = length (wrappers p))
    by (cbn; apply length_alter).
  destruct C as [H1 H2 H3 H4 H5].
  destruct (code e) as [c|] eqn:Hc.
  - (* a coded warning *)
    case_bool_decide as Hin.
    + split; try assumption.
      * intros j e' Hl Hw'. destruct (set_warned_lookup _ _ _ _ Hl Hw') as [_ Hl'].
        now apply (H4 j e').
      * intros j Hj. rewrite Hlen in Hj. now apply H5.
    + change (codesWarned (set_warned i p)) with (codesWarned p) in Hin.
      split.
      * intros c'. rewrite coded_add_code, coded_emit, coded_set_warned.
        unfold has_code; cbn. case_bool_decide as E.
        -- injection E as <-. rewrite (H2 c Hin). lia.
        -- specialize (H1 c'). lia.
      * intros c' Hc'. rewrite coded_add_code, coded_emit, coded_set_warned.
        unfold has_code; cbn. cbn in Hc'. case_bool_decide as E.
        -- injection E as <-. set_solver.
        -- rewrite H2 by set_solver. reflexivity.
      * intros j. rewrite codeless_add_code, codeless_emit, codeless_set_warned.
        rewrite (codeless_of_coded _ _ c) by reflexivity. specialize (H3 j). lia.
      * intros j e' Hl Hw'.
        destruct (set_warned_lookup _ _ _ _ Hl Hw') as [_ Hl'].
        rewrite codeless_add_code, codeless_emit, codeless_set_warned.
        rewrite (codeless_of_coded _ _ c) by reflexivity.
        rewrite (H4 j e' Hl' Hw'). reflexivity.
      * intros j Hj. cbn in Hj. rewrite length_alter in Hj.
        rewrite codeless_add_code, codeless_emit, codeless_set_warned.
        rewrite (codeless_of_coded _ _ c) by reflexivity.
        rewrite (H5 j Hj). reflexivity.
  - (* a codeless warning *)
    split.
    + intros c'. rewrite coded_emit, coded_set_warned.
      rewrite has_code_codeless by reflexivity. specialize (H1 c'). lia.
    + intros c' Hc'. rewrite coded_emit, coded_set_warned.
      rewrite has_code_codeless by reflexivity.
      rewrite (H2 c' Hc'). reflexivity.
    + intros j. rewrite codeless_emit, codeless_set_warned.
      unfold codeless_of; cbn. case_bool_decide as E.
      * injection E as <-. rewrite (H4 i e Hi Hw). lia.
      * specialize (H3 j). lia.
    + intros j e' Hl Hw'.
      destruct (set_warned_lookup _ _ _ _ Hl Hw') as [Hne Hl'].
      rewrite codeless_emit, codeless_set_warned.
      unfold codeless_of; cbn. case_bool_decide as E; [congruence|].
      rewrite (H4 j e' Hl' Hw'). reflexivity.
    + intros j Hj. cbn in Hj. rewrite length_alter in Hj.
      rewrite codeless_emit, codeless_set_warned.
      unfold codeless_of; cbn. case_bool_decide as E.
      * injection E as <-. apply lookup_lt_Some in Hi. lia.
      * rewrite (H5 j Hj). reflexivity.
Qed.

Lemma consistent_step p o : consistent p -> consistent (step p o).
Proof.
  intros C. destruct o; cbn.
  - now apply consistent_new_wrapper.
  - now apply consistent_new_wrapper.
  - unfold deprecated. destruct (wrappers p !! i) as [e|]; [|exact C].
    destruct (kind e); [destruct (negb (noDeprecation p))|];
      try exact C; now apply consistent_emitDeprecationWarning.
  - now apply consistent_set_noDeprecation.
Qed.

Lemma consistent_run ops : forall p, consistent p -> consistent (run ops p).
Proof.
  induction ops as [|o ops IH]; intros p C; [exact C|].
  change (run (o :: ops) p) with (run ops (step p o)).
  apply IH, consistent_step, C.
Qed.

(** Once a code is in [codesWarned], calling a wrapper that carries it adds
    nothing to the log. *)
Lemma deprecated_seen_code i p e c :
  wrappers p !! i = Some e -> code e = Some c -> c ∈ codesWarned p ->
  (exists e', wrappers (deprecated i p) !! i = Some e' /\ code e' = Some c) /\
  codesWarned (deprecated i p) = codesWarned p /\
  warnings (deprecated i p) = warnings p.
Proof.
  intros Hi Hc Hin.
  assert (Hemit :
    (exists e', wrappers (emitDeprecationWarning i p) !! i = Some e' /\
                code e' = Some c) /\
    codesWarned (emitDeprecationWarning i p) = codesWarned p /\
    warnings (emitDeprecationWarning i p) = warnings p).
  { unfold emitDeprecationWarning. rewrite Hi.
    destruct (negb (warned e) && shouldEmitWarning (kind e) p); [|eauto].
    rewrite Hc. cbn. rewrite bool_decide_eq_true_2 by exact Hin. cbn.
    rewrite list_lookup_alter_eq, Hi. cbn. eauto. }
  unfold deprecated. rewrite Hi.
  destruct (kind e); [destruct (negb (noDeprecation p))|]; eauto.
Qed.

Lemma repeat_seen_code k : forall i p e c,
  wrappers p !! i = Some e -> code e = Some c -> c ∈ codesWarned p ->
  warnings (run (repeat (Call i) k) p) = warnings p.
Proof.
  induction k as [|k IH]; intros i p e c Hi Hc Hin; [reflexivity|].
  change (run (repeat (Call i) (S k)) p)
    with (run (repeat (Call i) k) (deprecated i p)).
  destruct (deprecated_seen_code i p e c Hi Hc Hin) as [[e' [Hi' Hc']] [Hs Hw]].
  rewrite (IH i _ e' c Hi' Hc'); [exact Hw | now rewrite Hs].
Qed.

(** C2. Over any sequence of wrapper creations ([deprecate],
    [pendingDeprecate]), wrapper calls and changes of [process.noDeprecation]
    in a process, a code is reported at most once, whichever and however many
    wrappers carry it, and a codeless wrapper reports at most once. With
    [process.noDeprecation] unset, a wrapper with code X1 called five times
    reports exactly once, and a second wrapper with code X1 then reports
    nothing, however often it is called. *)
Theorem deprecation_warns_once :
  (forall noDep pendingDep noDepOption ops,
     let p := run ops (init noDep pendingDep noDepOption) in
     (forall c, (coded c p <= 1)%nat) /\ (forall i, (codeless i p <= 1)%nat)) /\
  (forall pendingDep noDepOption m1 s1 m2 s2 k,
     let p0 := init false pendingDep noDepOption in
     let p5 := run (NewDeprecate m1 (Some "X1") s1 :: repeat (Call 0) 5) p0 in
     let p' := run (NewDeprecate m2 (Some "X1") s2 :: repeat (Call 1) k) p5 in
     warnings p5 =
       [ {| w_message := m1; w_type := "DeprecationWarning";
            w_code := Some "X1"; w_ctor := Some 0%nat; w_sync := s1 |} ] /\
     coded "X1" p5 = 1%nat /\
     warnings p' = warnings p5).
Proof.
  split.
  - intros a b c ops p.
    pose proof (consistent_run ops _ (consistent_init a b c)) as [H1 _ H3 _ _].
    split; assumption.
  - intros pd nd m1 s1 m2 s2 k p0 p5 p'.
    assert (H5 : warnings p5 =
       [ {| w_message := m1; w_type := "DeprecationWarning";
            w_code := Some "X1"; w_ctor := Some 0%nat; w_sync := s1 |} ])
      by (vm_compute; reflexivity).
    split; [exact H5|]. split.
    + unfold coded. rewrite H5. vm_compute. reflexivity.
    + subst p'.
      change (run (NewDeprecate m2 (Some "X1") s2 :: repeat (Call 1) k) p5)
        with (run (repeat (Call 1) k) (snd (deprecate m2 (Some "X1") s2 p5))).
      erewrite (repeat_seen_code k 1 _ _ "X1").
      * reflexivity.
      * vm_compute. reflexivity.
      * reflexivity.
      * vm_compute. reflexivity.
Qed.

End DeprecationFacts.

(** ** Signal names and numbers *)

Section SignalFacts.
Import Signals.

Variable StringPrototypeToUpperCase : string -> string.
Variable signals : list (string * Z).
Hypothesis well_formed : table_ok signals = true.

Local Abbreviation convertToValidSignal :=
  (Signals.convertToValidSignal StringPrototypeToUpperCase).
Hypothesis on_ascii : ascii_mapping StringPrototypeToUpperCase.

Lemma table_entry name n :
  In (name, n) signals -> name <> ""%string /\ n <> 0.
Proof.
  intros Hin. unfold table_ok in well_formed.
  rewrite forallb_forall in well_formed.
  specialize (well_formed _ Hin). cbn in well_formed.
  apply andb_prop in well_formed as [H1 H2].
  apply negb_true_iff in H1, H2. split.
  - intros ->. discriminate.
  - intros ->. discriminate.
Qed.

(** The mapping holds exactly the numbers of the table, each under one of its
    names. *)
Lemma fold_mapping_sound (l : list (string * Z)) :
  forall (acc : gmap Z string) n name,
  fold_left (fun m kv => <[snd kv := fst kv]> m) l acc !! n = Some name ->
  In (name, n) l \/ acc !! n = Some name.
Proof.
  induction l as [|[k v] l IH]; intros acc n name H; cbn in *; [now right|].
  apply IH in H as [H|H]; [now left; right|].
  destruct (decide (v = n)) as [->|Hne].
  - rewrite lookup_insert_eq in H. injection H as ->. now left; left.
  - rewrite lookup_insert_ne in H by exact Hne. now right.
Qed.

Lemma fold_mapping_keeps (l : list (string * Z)) : forall (acc : gmap Z string) n,
  is_Some (acc !! n) ->
  is_Some (fold_left (fun m kv => <[snd kv := fst kv]> m) l acc !! n).
Proof.
  induction l as [|[k v] l IH]; intros acc n H; cbn; [exact H|].
  apply IH. destruct (decide (v = n)) as [->|Hne].
  - rewrite lookup_insert_eq. eauto.
  - now rewrite lookup_insert_ne.
Qed.

Lemma fold_mapping_complete (l : list (string * Z)) : forall (acc : gmap Z string) n name,
  In (name, n) l ->
  is_Some (fold_left (fun m kv => <[snd kv := fst kv]> m) l acc !! n).
Proof.
  induction l as [|[k v] l IH]; intros acc n name H; cbn in *; [contradiction|].
  destruct H as [H|H].
  - injection H as -> ->. apply fold_mapping_keeps.
    rewrite lookup_insert_eq. eauto.
  - now apply (IH _ n name).
Qed.

Lemma build_mapping_known n :
  is_Some (build_mapping signals !! n) <-> exists name, In (name, n) signals.
Proof.
  split.
  - intros [name H]. apply fold_mapping_sound in H as [H|H]; [eauto|].
    rewrite lookup_empty in H. discriminate.
  - intros [name H]. now apply (fold_mapping_complete _ _ _ name).
Qed.

Lemma build_mapping_truthy n :
  truthy (mapping_get (build_mapping signals) (VNum n)) = true <->
  is_Some (build_mapping signals !! n).
Proof.
  cbn. destruct (build_mapping signals !! n) as [name|] eqn:E.
  - split; [eauto|]. intros _.
    apply fold_mapping_sound in E as [E|E];
      [|rewrite lookup_empty in E; discriminate].
    apply table_entry in E as [E _]. cbn.
    destruct (String.eqb_spec name ""); [contradiction | reflexivity].
  - cbn. split; [discriminate | intros [? ?]; discriminate].
Qed.

Lemma getSignalsToNamesMapping_built st :
  cache_ok signals st ->
  fst (getSignalsToNamesMapping signals st) = build_mapping signals /\
  snd (getSignalsToNamesMapping signals st) = Some (build_mapping signals).
Proof. intros [->| ->]; split; reflexivity. Qed.

Lemma signal_number_truthy name :
  truthy (signal_number signals name) =
  match List.find (fun kv => String.eqb (fst kv) name) signals with
  | Some _ => true
  | None => false
  end.
Proof.
  unfold signal_number.
  destruct (List.find _ signals) as [[k v]|] eqn:E; [|reflexivity].
  apply find_some in E as [E _]. apply table_entry in E as [_ E]. cbn.
  destruct (Z.eqb_spec v 0); [contradiction | reflexivity].
Qed.

Lemma convert_number n st :
  cache_ok signals st ->
  fst (convertToValidSignal signals (VNum n) st) =
  if truthy (mapping_get (build_mapping signals) (VNum n))
  then Return (VNum n) else Throw (ERR_UNKNOWN_SIGNAL (VNum n)).
Proof.
  intros [->| ->]; unfold Signals.convertToValidSignal; cbn;
    destruct (truthy _); reflexivity.
Qed.

Lemma convert_string s st :
  fst (convertToValidSignal signals (VStr s) st) =
  match List.find (fun kv => String.eqb (fst kv) (StringPrototypeToUpperCase s))
                  signals with
  | Some kv => Return (VNum (snd kv))
  | None => Throw (ERR_UNKNOWN_SIGNAL (VStr s))
  end.
Proof.
  unfold Signals.convertToValidSignal; cbn.
  rewrite signal_number_truthy. unfold signal_number.
  destruct (List.find _ signals); reflexivity.
Qed.

(** C3. With the platform's table, and the mapping not yet built or built:
    a number is returned unchanged iff the number-to-name mapping knows it,
    which is iff some signal of the table has that number, and is refused
    otherwise; a string is upper-cased by the engine and looked up in the
    table, its number returned if it is there, so that strings with the same
    upper case ("sigterm", "SIGTERM") give the same number; every other
    value, and every unmapped number or string, is refused with
    ERR_UNKNOWN_SIGNAL carrying the value given. The mapping is built by the
    first numeric lookup and kept. *)
Theorem convertToValidSignal_spec (st : State) :
  cache_ok signals st ->
  (forall n,
     (fst (convertToValidSignal signals (VNum n) st) = Return (VNum n) <->
      is_Some (fst (getSignalsToNamesMapping signals st) !! n)) /\
     (is_Some (fst (getSignalsToNamesMapping signals st) !! n) <->
      exists name, In (name, n) signals) /\
     (fst (getSignalsToNamesMapping signals st) !! n = None ->
      fst (convertToValidSignal signals (VNum n) st)
      = Throw (ERR_UNKNOWN_SIGNAL (VNum n)))) /\
  (forall s,
     fst (convertToValidSignal signals (VStr s) st) =
     match List.find
             (fun kv => String.eqb (fst kv) (StringPrototypeToUpperCase s))
             signals with
     | Some kv => Return (VNum (snd kv))
     | None => Throw (ERR_UNKNOWN_SIGNAL (VStr s))
     end) /\
  (forall s1 s2 r,
     StringPrototypeToUpperCase s1 = StringPrototypeToUpperCase s2 ->
     fst (convertToValidSignal signals (VStr s1) st) = Return r <->
     fst (convertToValidSignal signals (VStr s2) st) = Return r) /\
  (forall r,
     fst (convertToValidSignal signals (VStr "sigterm") st) = Return r <->
     fst (convertToValidSignal signals (VStr "SIGTERM") st) = Return r) /\
  (forall v,
     match v with VNum _ | VStr _ => False | _ => True end ->
     fst (convertToValidSignal signals v st) = Throw (ERR_UNKNOWN_SIGNAL v)) /\
  (forall v r,
     fst (convertToValidSignal signals v st) = Return r ->
     (exists n, v = VNum n /\ r = v) \/
     (exists s, v = VStr s)) /\
  (forall v e,
     fst (convertToValidSignal signals v st) = Throw e ->
     e = ERR_UNKNOWN_SIGNAL v) /\
  (forall v,
     cache_ok signals (snd (convertToValidSignal signals v st)) /\
     (st = Some (build_mapping signals) ->
      snd (convertToValidSignal signals v st) = st)).
Proof.
  intros Hst.
  destruct (getSignalsToNamesMapping_built st Hst) as [Hm Hs].
  assert (Hcase : forall s1 s2 r,
     StringPrototypeToUpperCase s1 = StringPrototypeToUpperCase s2 ->
     fst (convertToValidSignal signals (VStr s1) st) = Return r <->
     fst (convertToValidSignal signals (VStr s2) st) = Return r).
  { intros s1 s2 r E. rewrite !convert_string, E.
    destruct (List.find _ signals); [reflexivity|]. split; discriminate. }
  repeat apply conj.
  - intros n. rewrite Hm. split; [|split].
    + rewrite convert_number by exact Hst. rewrite <- build_mapping_truthy.
      destruct (truthy _); split; intros; first [reflexivity | discriminate].
    + apply build_mapping_known.
    + intros H. rewrite convert_number by exact Hst. cbn. now rewrite H.
  - intros s. apply convert_string.
  - exact Hcase.
  - intros r. apply Hcase. now rewrite !on_ascii.
  - intros v Hv. unfold Signals.convertToValidSignal.
    destruct v; try contradiction; cbn; try reflexivity.
    destruct (getSignalsToNamesMapping signals st). reflexivity.
  - intros v r. destruct v; cbn.
    1-3, 5, 7: unfold Signals.convertToValidSignal; cbn;
      try (destruct (getSignalsToNamesMapping signals st));
      cbn; discriminate.
    + rewrite convert_number by exact Hst.
      destruct (truthy _); [|discriminate]. intros [= <-]. left. eauto.
    + intros _. right. eauto.
  - intros v e. destruct v.
    1-3, 5, 7: unfold Signals.convertToValidSignal; cbn;
      try (destruct (getSignalsToNamesMapping signals st));
      cbn; congruence.
    + rewrite convert_number by exact Hst.
      destruct (truthy _); congruence.
    + rewrite convert_string. destruct (List.find _ signals); congruence.
  - intros v. split.
    + unfold Signals.convertToValidSignal.
      destruct Hst as [->| ->]; destruct v; cbn;
        repeat match goal with |- context [if ?b then _ else _] =>
                 destruct b end; cbn; unfold cache_ok; auto.
    + intros ->. unfold Signals.convertToValidSignal.
      destruct v; cbn;
        repeat match goal with |- context [if ?b then _ else _] =>
                 destruct b end; reflexivity.
Qed.

End SignalFacts.

Lemma convertToValidSignal_spec_witness :
  let upper := Signals.ascii_toUpperCase in
  fst (Signals.convertToValidSignal upper Signals.linux_signals
         (VStr "sigterm") None)
    = Return (VNum 15) /\
  fst (Signals.convertToValidSignal upper Signals.linux_signals
         (VStr "SIGTERM") None)
    = Return (VNum 15) /\
  fst (Signals.convertToValidSignal upper Signals.linux_signals
         (VNum 999999) None)
    = Throw (ERR_UNKNOWN_SIGNAL (VNum 999999)).
Proof.
  intros upper.
  destruct (convertToValidSignal_spec upper Signals.linux_signals eq_refl
              (fun s _ => eq_refl) None (or_introl eq_refl))
    as (Hnum & Hstr & _).
  repeat apply conj.
  - rewrite Hstr. reflexivity.
  - rewrite Hstr. reflexivity.
  - apply (Hnum 999999). vm_compute. reflexivity.
Defined.

(** ** Lazy properties *)

Section LazyFacts.
Import Lazy.

Variable require : nat -> Loaded.
Variable keys : list string.

Local Abbreviation State := Lazy.State.
Local Abbreviation get := (Lazy.get require keys).
Local Abbreviation set := (Lazy.set keys).
Local Abbreviation load := (Lazy.load require).
Local Abbreviation read := (Lazy.read require keys).
Local Abbreviation write := (Lazy.write keys).
Local Abbreviation step := (Lazy.step require keys).
Local Abbreviation run := (Lazy.run require keys).
Local Abbreviation key_of := (Lazy.key_of keys).
Local Abbreviation successes := (Lazy.successes require).
Local Abbreviation wf := (Lazy.wf require keys).
Local Abbreviation wf_accessor := (Lazy.wf_accessor require keys).

#[local] Arguments Lazy.successes : simpl never.

Lemma descriptors_from_lookup ks : forall i0 d K i b,
  descriptors_from i0 ks d !! K = Some (Accessor i b) ->
  d !! K = Some (Accessor i b) \/
  ((i0 <= i < i0 + length ks)%nat /\ nth (i - i0) ks ""%string = K).
Proof.
  induction ks as [|k ks IH]; intros i0 d K i b H; cbn in *; [now left|].
  apply IH in H as [H|[Hr Hn]].
  - destruct (decide (k = K)) as [->|Hne].
    + rewrite lookup_insert_eq in H. injection H as <- <-. right.
      split; [lia|]. now rewrite Nat.sub_diag.
    + rewrite lookup_insert_ne in H by exact Hne. now left.
  - right. split; [lia|].
    replace (i - i0)%nat with (S (i - S i0)) by lia. exact Hn.
Qed.

Lemma nth_replicate_undefined n i :
  nth i (replicate n VUndefined) VUndefined = VUndefined.
Proof.
  revert i; induction n as [|n IH]; intros [|i]; cbn; auto.
Qed.

Lemma wf_defineLazyProperties values :
  wf (defineLazyProperties keys (plain values)).
Proof.
  split; cbn.
  - apply length_replicate.
  - intros K i b H. apply lookup_union_Some_raw in H as [H|[_ H]].
    + apply descriptors_from_lookup in H as [H|[Hr Hn]].
      * rewrite lookup_empty in H. discriminate.
      * rewrite Nat.sub_0_r in Hn. unfold Lazy.key_of.
        repeat split; [exact Hn | lia | apply nth_replicate_undefined].
    + unfold plain in H. rewrite lookup_fmap in H.
      destruct (values !! K); discriminate.
  - reflexivity.
Qed.

Lemma successes_S n :
  successes (S n) = (successes n + if is_exports (require n) then 1 else 0)%nat.
Proof.
  unfold Lazy.successes. rewrite seq_S, map_app, List.filter_app, length_app.
  cbn. destruct (is_exports (require n)); reflexivity.
Qed.

Lemma wf_load s :
  wf s ->
  wf (snd (load s)) /\
  target (snd (load s)) = target s /\
  lazyLoadedValue (snd (load s)) = lazyLoadedValue s /\
  (forall m, fst (load s) = Return m -> mod' (snd (load s)) = Some m).
Proof.
  intros W. pose proof W as [H1 H2 H3]. unfold Lazy.load.
  destruct (mod' s) as [m|] eqn:Em; cbn.
  - split; [exact W|]. split; [reflexivity|]. split; [reflexivity|].
    congruence.
  - destruct (require (loads s)) as [m|e] eqn:Er; cbn.
    + split; [|split; [reflexivity|split; [reflexivity|congruence]]].
      split; cbn; [exact H1 | exact H2 |].
      rewrite successes_S, H3, Er. reflexivity.
    + split; [|split; [reflexivity|split; [reflexivity|discriminate]]].
      split; cbn; [exact H1 | exact H2 |].
      rewrite successes_S, H3, Er. reflexivity.
Qed.

Lemma nth_insert_ne (l : list Value) i j v :
  i <> j -> nth j (<[i := v]> l) VUndefined = nth j l VUndefined.
Proof.
  intros Hne. rewrite !nth_lookup, list_lookup_insert_ne by exact Hne.
  reflexivity.
Qed.

Lemma wf_set_cached i v s :
  wf s ->
  wf (set i v {| target := target s; mod' := mod' s;
                 lazyLoadedValue := <[i := v]> (lazyLoadedValue s);
                 loads := loads s |}).
Proof.
  intros [H1 H2 H3]. split; cbn.
  - now rewrite length_insert.
  - intros K j b H. destruct (decide (key_of i = K)) as [E|Hne].
    + rewrite E, lookup_insert_eq in H. discriminate.
    + rewrite lookup_insert_ne in H by exact Hne.
      destruct (H2 K j b H) as (Hk & Hj & Hv). repeat split; try assumption.
      rewrite nth_insert_ne; [exact Hv|]. intros ->. contradiction.
  - exact H3.
Qed.

Lemma wf_get i s : wf s -> wf (snd (get i s)).
Proof.
  intros W. unfold Lazy.get.
  destruct (wf_load s W) as (W1 & _).
  destruct (load s) as [[m|e] s1]; cbn in *; [|exact W1].
  destruct (nth i (lazyLoadedValue s1) VUndefined); cbn; try exact W1.
  now apply wf_set_cached.
Qed.

Lemma wf_write K v s : wf s -> wf (write K v s).
Proof.
  intros W. unfold Lazy.write.
  assert (G : forall K', wf {| target := <[K' := Data v]> (target s);
                               mod' := mod' s;
                               lazyLoadedValue := lazyLoadedValue s;
                               loads := loads s |}).
  { intros K'. destruct W as [H1 H2 H3]. split; cbn; try assumption.
    intros K0 j b H. destruct (decide (K' = K0)) as [->|Hne].
    - rewrite lookup_insert_eq in H. discriminate.
    - rewrite lookup_insert_ne in H by exact Hne. now apply (H2 K0 j b). }
  destruct (target s !! K) as [[i b|w]|]; apply G.
Qed.

Lemma wf_step s o : wf s -> wf (step s o).
Proof.
  intros W. destruct o as [K|K v]; cbn.
  - unfold Lazy.read. destruct (target s !! K) as [[i b|w]|]; cbn;
      [now apply wf_get | exact W | exact W].
  - now apply wf_write.
Qed.

Lemma wf_run ops : forall s, wf s -> wf (run ops s).
Proof.
  induction ops as [|o ops IH]; intros s W; [exact W|].
  change (run (o :: ops) s) with (run ops (step s o)).
  apply IH, wf_step, W.
Qed.

Lemma read_settles K v s s1 :
  wf s -> read K s = (Return v, s1) -> settled K v s1.
Proof.
  intros W. unfold Lazy.read.
  destruct (target s !! K) as [[i b|w]|] eqn:Et.
  - destruct (wf_accessor s W K i b Et) as (Hk & _ & Hv).
    unfold Lazy.get.
    destruct (wf_load s W) as (_ & _ & Hl & _).
    destruct (load s) as [[m|e] s0]; cbn in *; [|discriminate].
    rewrite Hl, Hv. intros [= <- <-]. left. cbn.
    now rewrite Hk, lookup_insert_eq.
  - intros [= <- <-]. now left.
  - intros [= <- <-]. now right.
Qed.

Lemma settled_read K v s : settled K v s -> read K s = (Return v, s).
Proof.
  unfold Lazy.read. intros [H|[H ->]]; now rewrite H.
Qed.

Lemma settled_get K v i s :
  wf s -> settled K v s -> key_of i <> K -> settled K v (snd (get i s)).
Proof.
  intros W Hs Hne. unfold Lazy.get.
  destruct (wf_load s W) as (_ & Ht & _).
  destruct (load s) as [[m|e] s1]; cbn in *.
  - destruct (nth i (lazyLoadedValue s1) VUndefined); cbn;
      unfold settled in *; cbn; rewrite ?lookup_insert_ne by exact Hne;
      rewrite Ht; exact Hs.
  - unfold settled in *. now rewrite Ht.
Qed.

Lemma settled_step K v s o :
  wf s -> settled K v s -> writes_to K o = false -> settled K v (step s o).
Proof.
  intros W Hs Hw. destruct o as [K'|K' w]; cbn in *.
  - unfold Lazy.read. destruct (target s !! K') as [[i b|x]|] eqn:Et; cbn;
      try exact Hs.
    destruct (wf_accessor s W K' i b Et) as (Hk & _).
    apply settled_get; try assumption. rewrite Hk. intros ->.
    destruct Hs as [Hs|[Hs _]]; congruence.
  - apply String.eqb_neq in Hw. unfold Lazy.write.
    destruct (target s !! K') as [[i b|x]|] eqn:Et; unfold settled in *; cbn.
    + destruct (wf_accessor s W K' i b Et) as (Hk & _).
      rewrite Hk, lookup_insert_ne by congruence. exact Hs.
    + rewrite lookup_insert_ne by congruence. exact Hs.
    + rewrite lookup_insert_ne by congruence. exact Hs.
Qed.

Lemma settled_run K v ops : forall s,
  wf s -> settled K v s ->
  forallb (fun o => negb (writes_to K o)) ops = true ->
  settled K v (run ops s).
Proof.
  induction ops as [|o ops IH]; intros s W Hs Hw; [exact Hs|].
  cbn in Hw. apply andb_prop in Hw as [Ho Hw]. apply negb_true_iff in Ho.
  change (run (o :: ops) s) with (run ops (step s o)).
  apply IH; [now apply wf_step | now apply settled_step | exact Hw].
Qed.

Lemma successes_le_1 s : wf s -> (successes (loads s) <= 1)%nat.
Proof. intros [_ _ H]. rewrite H. destruct (mod' s); lia. Qed.

Lemma successes_all n :
  (forall k, is_exports (require k) = true) -> successes n = n.
Proof.
  intros H. induction n as [|n IH]; [reflexivity|].
  rewrite successes_S, IH, H. lia.
Qed.

(** C4. After [defineLazyProperties(target, id, keys)] and whatever reads and
    writes, a read of [target[K]] that returns, followed (with no write to K
    in between, other reads and writes allowed) by a second read, gives the
    second read the identical value, with no call of the loader and no other
    change. Over any sequence of reads and writes at most one call of
    [require(id)] returns, so a loader that does not throw is called at most
    once. With keys foo, bar and a loader giving foo = 1, bar = 2: reading
    bar calls the loader once and returns 2, reading foo then returns 1 with
    no further call. *)
Theorem lazy_read_twice (values : gmap string Value) (ops between : list op)
    (K : string) (v : Value) (s1 : State) :
  read K (run ops (defineLazyProperties keys (plain values))) = (Return v, s1) ->
  forallb (fun o => negb (writes_to K o)) between = true ->
  read K (run between s1) = (Return v, run between s1) /\
  (forall ops0,
     let s := run ops0 (defineLazyProperties keys (plain values)) in
     (successes (loads s) <= 1)%nat /\
     ((forall k, is_exports (require k) = true) -> (loads s <= 1)%nat)) /\
  (let M := fun _ : nat => Exports {[ "foo" := VNum 1; "bar" := VNum 2 ]} in
   let s0 := defineLazyProperties ["foo"; "bar"] (plain ∅) in
   let r1 := Lazy.read M ["foo"; "bar"] "bar" s0 in
   let r2 := Lazy.read M ["foo"; "bar"] "foo" (snd r1) in
   fst r1 = Return (VNum 2) /\ loads (snd r1) = 1%nat /\
   fst r2 = Return (VNum 1) /\ loads (snd r2) = 1%nat).
Proof.
  intros Hr Hb.
  pose proof (wf_run ops _ (wf_defineLazyProperties values)) as W.
  assert (W1 : wf s1).
  { change s1 with (snd (Return v, s1)). rewrite <- Hr.
    apply (wf_step _ (Read K) W). }
  split; [|split].
  - apply settled_read, settled_run; [exact W1 | | exact Hb].
    exact (read_settles K v _ s1 W Hr).
  - intros ops0 s.
    pose proof (wf_run ops0 _ (wf_defineLazyProperties values)) as W0.
    split; [now apply successes_le_1|].
    intros Hall. rewrite <- (successes_all (loads s) Hall).
    now apply successes_le_1.
  - vm_compute. repeat split; reflexivity.
Qed.

Lemma read_loader_fails s K i b e :
  target s !! K = Some (Accessor i b) -> mod' s = None ->
  require (loads s) = Fails e ->
  read K s = (Throw (Thrown e),
              {| target := target s; mod' := None;
                 lazyLoadedValue := lazyLoadedValue s;
                 loads := S (loads s) |}).
Proof.
  intros Ht Hm Hf. unfold Lazy.read, Lazy.get, Lazy.load.
  now rewrite Ht, Hm, Hf.
Qed.

Lemma read_calls_loader s K i b :
  target s !! K = Some (Accessor i b) -> mod' s = None ->
  loads (snd (read K s)) = S (loads s).
Proof.
  intros Ht Hm. unfold Lazy.read, Lazy.get, Lazy.load. rewrite Ht, Hm.
  destruct (require (loads s)); cbn; [|reflexivity].
  destruct (nth i (lazyLoadedValue s) VUndefined); reflexivity.
Qed.

Lemma read_loader_returns s K i b m :
  target s !! K = Some (Accessor i b) -> mod' s = None ->
  require (loads s) = Exports m ->
  nth i (lazyLoadedValue s) VUndefined = VUndefined ->
  fst (read K s) = Return (export m (key_of i)).
Proof.
  intros Ht Hm Hf Hv. unfold Lazy.read, Lazy.get, Lazy.load.
  rewrite Ht, Hm, Hf. cbn. now rewrite Hv.
Qed.

Section Replaceable.

Variable check : option (Value -> option Value).

Local Abbreviation r_read := (Lazy.r_read require keys check).

Lemma r_read_loader_fails rs this K j c e :
  r_target rs !! K = Some (Accessor j c) ->
  check_throws check this = None ->
  nth j (r_setterCalled rs) false = false ->
  r_mod rs = None ->
  require (r_loads rs) = Fails e ->
  r_read K this rs =
    (Throw (Thrown e),
     {| r_target := r_target rs; r_mod := None; r_value := r_value rs;
        r_setterCalled := r_setterCalled rs; r_loads := S (r_loads rs) |}).
Proof.
  intros Ht Hc Hs Hm Hf. unfold Lazy.r_read, Lazy.r_get, Lazy.r_load.
  now rewrite Ht, Hc, Hs, Hm, Hf.
Qed.

Lemma r_read_calls_loader rs this K j c :
  r_target rs !! K = Some (Accessor j c) ->
  check_throws check this = None ->
  nth j (r_setterCalled rs) false = false ->
  r_mod rs = None ->
  r_loads (snd (r_read K this rs)) = S (r_loads rs).
Proof.
  intros Ht Hc Hs Hm. unfold Lazy.r_read, Lazy.r_get, Lazy.r_load.
  rewrite Ht, Hc, Hs, Hm. destruct (require (r_loads rs)); reflexivity.
Qed.

Lemma r_read_loader_returns rs this K j c m :
  r_target rs !! K = Some (Accessor j c) ->
  check_throws check this = None ->
  nth j (r_setterCalled rs) false = false ->
  r_mod rs = None ->
  require (r_loads rs) = Exports m ->
  nth j (r_value rs) VUndefined = VUndefined ->
  fst (r_read K this rs) = Return (export m (key_of j)).
Proof.
  intros Ht Hc Hs Hm Hf Hv. unfold Lazy.r_read, Lazy.r_get, Lazy.r_load.
  rewrite Ht, Hc, Hs, Hm, Hf. cbn. now rewrite Hv.
Qed.

End Replaceable.

(** C8. When the accessor of K is installed, nothing is loaded yet, and the
    loader throws [e]: the read throws [e] itself, the property is still the
    accessor, no value is cached and no module kept; the next read of K calls
    the loader again, and returns the module's value if the loader then
    returns. The same for a property of [defineReplaceableLazyAttribute]
    whose setter was not called (and whose [check] passes). *)
Theorem loader_failure_not_cached
    (s : State) (check : option (Value -> option Value)) (rs : RState)
    (this : Value) (K : string) (i j : nat) (b c : bool) (e : Value) :
  target s !! K = Some (Accessor i b) ->
  mod' s = None ->
  require (loads s) = Fails e ->
  r_target rs !! K = Some (Accessor j c) ->
  check_throws check this = None ->
  nth j (r_setterCalled rs) false = false ->
  r_mod rs = None ->
  require (r_loads rs) = Fails e ->
  (let r := read K s in
   fst r = Throw (Thrown e) /\
   target (snd r) = target s /\
   lazyLoadedValue (snd r) = lazyLoadedValue s /\
   mod' (snd r) = None /\
   loads (snd r) = S (loads s) /\
   loads (snd (read K (snd r))) = S (S (loads s)) /\
   (forall m, require (S (loads s)) = Exports m ->
      nth i (lazyLoadedValue s) VUndefined = VUndefined ->
      fst (read K (snd r)) = Return (export m (key_of i)))) /\
  (let r := r_read require keys check K this rs in
   fst r = Throw (Thrown e) /\
   r_target (snd r) = r_target rs /\
   r_value (snd r) = r_value rs /\
   r_setterCalled (snd r) = r_setterCalled rs /\
   r_mod (snd r) = None /\
   r_loads (snd r) = S (r_loads rs) /\
   r_loads (snd (r_read require keys check K this (snd r))) = S (S (r_loads rs)) /\
   (forall m, require (S (r_loads rs)) = Exports m ->
      nth j (r_value rs) VUndefined = VUndefined ->
      fst (r_read require keys check K this (snd r))
      = Return (export m (key_of j)))).
Proof.
  intros Ht Hm Hf Hrt Hc Hsc Hrm Hrf. split.
  - cbn zeta. rewrite (read_loader_fails s K i b e Ht Hm Hf). cbn.
    repeat (split; [reflexivity|]). split.
    + now rewrite (read_calls_loader _ K i b).
    + intros m Hs Hv. now apply (read_loader_returns _ K i b m).
  - cbn zeta.
    rewrite (r_read_loader_fails check rs this K j c e Hrt Hc Hsc Hrm Hrf).
    cbn. repeat (split; [reflexivity|]). split.
    + now rewrite (r_read_calls_loader check _ this K j c).
    + intros m Hs Hv. now apply (r_read_loader_returns check _ this K j c m).
Qed.

End LazyFacts.

Lemma lazy_read_twice_witness :
  let M := fun _ : nat => Lazy.Exports {[ "foo" := VNum 1; "bar" := VNum 2 ]} in
  let ks := ["foo"; "bar"]%string in
  let s1 := snd (Lazy.read M ks "bar" (Lazy.defineLazyProperties ks (Lazy.plain ∅))) in
  let between := [Lazy.Read "foo"; Lazy.Write "foo" (VNum 5)] in
  Lazy.read M ks "bar" (Lazy.run M ks between s1)
  = (Return (VNum 2), Lazy.run M ks between s1).
Proof.
  intros M ks s1 between.
  apply (lazy_read_twice M ks ∅ [] between "bar" (VNum 2) s1);
    vm_compute; reflexivity.
Defined.

Lemma loader_failure_not_cached_witness :
  let flaky := fun k : nat =>
    match k with
    | O => Lazy.Fails (VStr "ENOENT")
    | _ => Lazy.Exports {[ "foo" := VNum 1 ]}
    end in
  let ks := ["foo"]%string in
  let s := Lazy.defineLazyProperties ks (Lazy.plain ∅) in
  let r := Lazy.read flaky ks "foo" s in
  fst r = Throw (Thrown (VStr "ENOENT")) /\
  Lazy.target (snd r) = Lazy.target s /\
  fst (Lazy.read flaky ks "foo" (snd r)) = Return (VNum 1).
Proof.
  intros flaky ks s r.
  pose proof (loader_failure_not_cached flaky ks s None
                (Lazy.defineReplaceableLazyAttribute ks (Lazy.plain ∅) true)
                VUndefined "foo" 0 0 true true (VStr "ENOENT")) as H.
  repeat match type of H with
         | ?A -> _ =>
             let Ha := fresh in
             assert (Ha : A) by (vm_compute; reflexivity);
             specialize (H Ha); clear Ha
         end.
  destruct H as [(H1 & H2 & _ & _ & _ & _ & H3) _].
  split; [exact H1|]. split; [exact H2|].
  subst r. rewrite (H3 {[ "foo" := VNum 1 ]}) by reflexivity.
  vm_compute. reflexivity.
Defined.

(** ** promisify *)

Section PromisifyFacts.
Import Promisify.

Variable thenable : Resolution -> bool.
Variable inherits_proto_accessor : loc -> bool.

Local Abbreviation resolve := (Promisify.resolve thenable).
Local Abbreviation set_property :=
  (Promisify.set_property inherits_proto_accessor).
Local Abbreviation assign := (Promisify.assign inherits_proto_accessor).
Local Abbreviation callback :=
  (Promisify.callback thenable inherits_proto_accessor).
Local Abbreviation executor :=
  (Promisify.executor thenable inherits_proto_accessor).
Local Abbreviation fn := (Promisify.fn thenable inherits_proto_accessor).
Local Abbreviation calls := (Promisify.calls thenable inherits_proto_accessor).
Local Abbreviation call := (Promisify.call thenable inherits_proto_accessor).

(** *** The object built from the declared names *)








(** *** The callback *)

Lemma resolve_resolved r p : p <> Pending -> resolve r p = p.
Proof. intros Hp. destruct p; try reflexivity. contradiction. Qed.

Lemma resolve_resolves r : resolve r Pending <> Pending.
Proof.
  unfold Promisify.resolve. destruct (is_object r && thenable r);
    discriminate.
Qed.


Lemma callback_settled names args p :
  p <> Pending -> callback names args p = p.
Proof.
  intros Hp. unfold Promisify.callback.
  destruct (truthy _); [|destruct names; [destruct (_ <? _)%nat|]];
    try (now apply resolve_resolved);
    destruct p; try reflexivity; contradiction.
Qed.

Lemma callbacks_settled names l : forall p,
  p <> Pending ->
  fold_left (fun p args => callback names args p) l p = p.
Proof.
  induction l as [|a l IH]; intros p Hp; cbn; [reflexivity|].
  rewrite callback_settled by exact Hp. now apply IH.
Qed.

Lemma callback_settles names args : callback names args Pending <> Pending.
Proof.
  unfold Promisify.callback.
  destruct (truthy _); [|destruct names; [destruct (_ <? _)%nat|]];
    try apply resolve_resolves; discriminate.
Qed.

(** The first call of the callback decides. *)
Lemma callbacks_first names args l :
  fold_left (fun p args => callback names args p) (args :: l) Pending
  = callback names args Pending.
Proof. cbn. apply callbacks_settled, callback_settles. Qed.




(** *** promisify *)

Lemma validateFunction_Return h v name l :
  validateFunction h v name = Return l <-> v = VRef l /\ is_function h v = true.
Proof.
  unfold validateFunction. destruct v; try (split; [discriminate|]; intros [? ?]; discriminate).
  destruct (is_function h (VRef l0)); split.
  - intros [= ->]. now split.
  - intros [[= ->] _]. reflexivity.
  - discriminate.
  - intros [_ ?]. discriminate.
Qed.

Lemma validateFunction_Throw h v name e :
  validateFunction h v name = Throw e <->
  is_function h v = false /\ e = ERR_INVALID_ARG_TYPE name v.
Proof.
  unfold validateFunction. destruct v; cbn;
    try (split; [intros [= <-]; now split | intros [_ ->]; reflexivity]).
  destruct (match h !! l with Some o => callable o | None => false end); split.
  - discriminate.
  - intros [? _]. discriminate.
  - intros [= <-]. now split.
  - intros [_ ->]. reflexivity.
Qed.

(** The adapter [promisify] makes for the function at [original]. *)
Definition adapter_of (h : list Obj) (original : loc) (o : Obj) : Obj :=
  defineProperties
    {| code := Adapter original (get_argNames (length h) h original);
       proto := proto o; custom := Some (VRef (length h));
       argNames := None; statics := ∅; extensible := true;
       custom_configurable := true; loose_prototype := false |} o.

(** Without a custom implementation, [promisify] allocates the adapter,
    unless the own properties of the original cannot be defined on it. *)
Lemma promisify_default h original :
  is_function h (VRef original) = true ->
  truthy (get_custom (length h) h original) = false ->
  exists o,
    h !! original = Some o /\
    promisify (VRef original) h =
      if accepts_properties o
      then (Return (length h), h ++ [adapter_of h original o])
      else (Throw TypeError, h).
Proof.
  intros Hf Hm. unfold promisify.
  destruct (validateFunction h (VRef original) "original") as [l|e] eqn:Ev.
  - apply validateFunction_Return in Ev as [[= <-] _]. rewrite Hm.
    cbn in Hf. destruct (h !! original) as [o|] eqn:Eo; [|discriminate].
    exists o. split; reflexivity.
  - apply validateFunction_Throw in Ev as [Ev _]. congruence.
Qed.

Lemma promisify_default_returns h original adapter h' :
  truthy (get_custom (length h) h original) = false ->
  promisify (VRef original) h = (Return adapter, h') ->
  exists o,
    h !! original = Some o /\ callable o = true /\
    accepts_properties o = true /\
    adapter = length h /\ h' = h ++ [adapter_of h original o].
Proof.
  intros Hm Hp.
  assert (Hf : is_function h (VRef original) = true).
  { unfold promisify in Hp.
    destruct (validateFunction h (VRef original) "original") as [l|e] eqn:Ev;
      [|discriminate].
    now apply validateFunction_Return in Ev as [_ Ev]. }
  destruct (promisify_default h original Hf Hm) as (o & Ho & Hd).
  rewrite Hd in Hp. exists o.
  destruct (accepts_properties o); [|discriminate].
  injection Hp as <- <-. cbn in Hf. rewrite Ho in Hf. auto.
Qed.


Lemma warnings_of_app l1 l2 :
  warnings_of (l1 ++ l2) = warnings_of l1 ++ warnings_of l2.
Proof. unfold warnings_of. apply flat_map_app. Qed.

Lemma warnings_of_called l : warnings_of (map Called l) = [].
Proof. induction l as [|a l IH]; [reflexivity | exact IH]. Qed.

(** C6, amended. A call whose original returns a promise completes: the
    adapter returns its promise, which settles, at return and later, as it
    does when the original returns anything else; the call hands DEP0174 to
    the sink exactly once, after the callbacks made during the call and
    before the later ones, so that k such calls hand it over k times. *)
Theorem double_wrap_warns_per_call (argumentNames : option (list string))
    (b : Behaviour) :
  completion b = Returns true ->
  exists r r',
    fn argumentNames b = Return r /\
    fn argumentNames {| during := during b; completion := Returns false;
                        later := later b |} = Return r' /\
    at_return r = at_return r' /\
    eventually r = eventually r' /\
    events r = map Called (during b) ++ [Warned DEP0174]
                 ++ map Called (later b) /\
    warnings_of (events r) = [DEP0174] /\
    forall k, warnings_of (calls argumentNames (repeat b k)) = repeat DEP0174 k.
Proof.
  intros Hc. unfold Promisify.fn, Promisify.executor. rewrite Hc. cbn.
  do 2 eexists. repeat (split; [reflexivity|]). cbn. split; [|split].
  - now rewrite <- app_assoc.
  - rewrite !warnings_of_app, !warnings_of_called. reflexivity.
  - induction k as [|k IH]; [reflexivity|].
    cbn [repeat Promisify.calls]. unfold Promisify.fn, Promisify.executor.
    rewrite Hc. cbn [events].
    rewrite !warnings_of_app, !warnings_of_called, IH. reflexivity.
Qed.


(** The ways a call of [promisify] goes. *)
Inductive promisified (h : list Obj) (v : Value)
  : Outcome loc * list Obj -> Prop :=
| not_a_function :
    is_function h v = false ->
    promisified h v (Throw (ERR_INVALID_ARG_TYPE "original" v), h)
| marker_not_a_function l :
    v = VRef l -> is_function h v = true ->
    truthy (get_custom (length h) h l) = true ->
    is_function h (get_custom (length h) h l) = false ->
    promisified h v
      (Throw (ERR_INVALID_ARG_TYPE "util.promisify.custom"
                (get_custom (length h) h l)), h)
| marker_refused l g o :
    v = VRef l -> is_function h v = true ->
    truthy (get_custom (length h) h l) = true ->
    get_custom (length h) h l = VRef g -> h !! g = Some o ->
    callable o = true -> accepts_custom o = false ->
    promisified h v (Throw TypeError, h)
| marker_returned l g o :
    v = VRef l -> is_function h v = true ->
    truthy (get_custom (length h) h l) = true ->
    get_custom (length h) h l = VRef g -> h !! g = Some o ->
    callable o = true -> accepts_custom o = true ->
    promisified h v (Return g, defineCustom g (VRef g) h)
| properties_refused l o :
    v = VRef l -> h !! l = Some o -> callable o = true ->
    truthy (get_custom (length h) h l) = false ->
    accepts_properties o = false ->
    promisified h v (Throw TypeError, h)
| adapter_returned l o :
    v = VRef l -> h !! l = Some o -> callable o = true ->
    truthy (get_custom (length h) h l) = false ->
    accepts_properties o = true ->
    promisified h v (Return (length h), h ++ [adapter_of h l o]).

Lemma promisify_promisified h v : promisified h v (promisify v h).
Proof.
  unfold promisify.
  destruct (validateFunction h v "original") as [l|e0] eqn:Ev.
  - apply validateFunction_Return in Ev as [-> Hf].
    assert (Ho : exists o, h !! l = Some o /\ callable o = true).
    { cbn in Hf. destruct (h !! l) as [o|]; [eauto|discriminate]. }
    destruct Ho as (o & Ho & Hco).
    destruct (truthy (get_custom (length h) h l)) eqn:Et.
    + destruct (validateFunction h (get_custom (length h) h l)
                  "util.promisify.custom") as [g|e1] eqn:Ec.
      * apply validateFunction_Return in Ec as [Eg Ec].
        assert (Hog : exists og, h !! g = Some og /\ callable og = true).
        { rewrite Eg in Ec. cbn in Ec.
          destruct (h !! g) as [og|]; [eauto|discriminate]. }
        destruct Hog as (og & Hog & Hcg). rewrite Hog. cbn [default from_option id].
        destruct (accepts_custom og) eqn:Ea.
        -- now apply (marker_returned h _ l g og).
        -- now apply (marker_refused h _ l g og).
      * apply validateFunction_Throw in Ec as [Ec ->].
        now apply (marker_not_a_function h _ l).
    + rewrite Ho. cbn [default from_option id].
      destruct (accepts_properties o) eqn:Ea.
      * now apply (adapter_returned h _ l o).
      * now apply (properties_refused h _ l o).
  - apply validateFunction_Throw in Ev as [Ev ->]. now apply not_a_function.
Qed.



Lemma get_custom_own n h l o v :
  h !! l = Some o -> custom o = Some v -> get_custom (S n) h l = v.
Proof. intros Hl Hc. cbn. now rewrite Hl, Hc. Qed.

(** A function that carries its own configurable marker pointing at itself
    is returned as it is. *)
Lemma promisify_marked_self h g o :
  h !! g = Some o -> callable o = true -> custom o = Some (VRef g) ->
  custom_configurable o = true ->
  promisify (VRef g) h = (Return g, defineCustom g (VRef g) h).
Proof.
  intros Hl Hc Hm Hcc.
  assert (Hf : is_function h (VRef g) = true) by (cbn; now rewrite Hl).
  assert (Hlen : exists n, length h = S n).
  { apply lookup_lt_Some in Hl. destruct (length h); [lia | eauto]. }
  destruct Hlen as [n Hn].
  unfold promisify, validateFunction. rewrite Hf, Hn.
  rewrite (get_custom_own n h g o (VRef g) Hl Hm). cbn [truthy].
  rewrite Hf, Hl. cbn [default from_option id]. unfold accepts_custom. now rewrite Hm, Hcc.
Qed.

(** What happens to a function with an own falsy marker, in general: the
    adapter inherits the marker with the other own properties, and is wrapped
    again. *)
Lemma promisify_own_falsy_marker h f o v :
  h !! f = Some o -> callable o = true ->
  custom o = Some v -> truthy v = false ->
  loose_prototype o = false ->
  fst (promisify (VRef f) h) = Return (length h) /\
  fst (promisify (VRef (length h)) (snd (promisify (VRef f) h)))
  = Return (S (length h)).
Proof.
  intros Hl Hc Hm Hv Hlp.
  assert (Hf : is_function h (VRef f) = true) by (cbn; now rewrite Hl).
  assert (Hlen : exists n, length h = S n).
  { apply lookup_lt_Some in Hl. destruct (length h); [lia | eauto]. }
  destruct Hlen as [n Hn].
  assert (Hg : truthy (get_custom (length h) h f) = false).
  { rewrite Hn, (get_custom_own n h f o v Hl Hm). exact Hv. }
  destruct (promisify_default h f Hf Hg) as (o' & Ho' & Hd).
  rewrite Hl in Ho'. injection Ho' as <-.
  rewrite Hd. unfold accepts_properties. rewrite Hlp.
  cbn [negb fst snd]. split; [reflexivity|].
  set (a := adapter_of h f o).
  set (h1 := h ++ [a]).
  assert (Ha : h1 !! length h = Some a)
    by (apply list_lookup_middle; reflexivity).
  assert (Hca : custom a = Some v) by (subst a; cbn; now rewrite Hm).
  assert (Hf1 : is_function h1 (VRef (length h)) = true)
    by (cbn; now rewrite Ha).
  assert (Hl1 : length h1 = S (length h)).
  { unfold h1. rewrite length_app, Nat.add_comm. reflexivity. }
  assert (Hg1 : truthy (get_custom (length h1) h1 (length h)) = false).
  { rewrite Hl1, (get_custom_own _ h1 _ a v Ha Hca). exact Hv. }
  destruct (promisify_default h1 _ Hf1 Hg1) as (o1 & Ho1 & Hd1).
  rewrite Ha in Ho1. injection Ho1 as <-.
  rewrite Hd1. now rewrite Hl1.
Qed.

(** C10, amended. When [promisify(f)] returns, and [f] has no own custom
    marker or has a truthy one, [promisify(promisify(f))] returns the same
    function object, whose custom marker is that object itself. *)
Theorem promisify_idempotent (h h1 : Heap) (f g : loc) (o : Obj) :
  h !! f = Some o ->
  promisify (VRef f) h = (Return g, h1) ->
  custom o = None \/ truthy (get_custom (length h) h f) = true ->
  (exists h2, promisify (VRef g) h1 = (Return g, h2)) /\
  get_custom (length h1) h1 g = VRef g.
Proof.
  intros Hl Hp Hc.
  destruct (truthy (get_custom (length h) h f)) eqn:Et.
  - (* the custom implementation *)
    unfold promisify in Hp.
    destruct (validateFunction h (VRef f) "original") as [l|e] eqn:Ev;
      [|discriminate].
    apply validateFunction_Return in Ev as [[= <-] _]. rewrite Et in Hp.
    destruct (validateFunction h (get_custom (length h) h f)
                "util.promisify.custom") as [g'|e] eqn:Ec; [|discriminate].
    apply validateFunction_Return in Ec as [Em Hg]. rewrite Em in Hg.
    cbn in Hg. destruct (h !! g') as [og|] eqn:Eg; [|discriminate].
    cbn [default from_option id] in Hp.
    destruct (accepts_custom og); [|discriminate].
    injection Hp as -> <-.
    assert (Hg1 : defineCustom g (VRef g) h !! g
                  = Some {| code := code og; proto := proto og;
                            custom := Some (VRef g); argNames := argNames og;
                            statics := statics og;
                            extensible := extensible og;
                            custom_configurable := true;
                            loose_prototype := loose_prototype og |}).
    { unfold defineCustom. now rewrite list_lookup_alter_eq, Eg. }
    split.
    + eexists.
      eapply promisify_marked_self;
        [exact Hg1 | exact Hg | reflexivity | reflexivity].
    + assert (Hlen : exists n, length (defineCustom g (VRef g) h) = S n).
      { apply lookup_lt_Some in Hg1.
        destruct (length (defineCustom g (VRef g) h)); [lia | eauto]. }
      destruct Hlen as [n ->].
      now apply (get_custom_own n _ g _ (VRef g) Hg1).
  - (* the adapter *)
    destruct Hc as [Hc|Hc]; [|discriminate].
    destruct (promisify_default_returns h f g h1 Et Hp)
      as (o' & Ho' & _ & _ & -> & ->).
    rewrite Hl in Ho'. injection Ho' as <-.
    set (a := adapter_of h f o).
    assert (Ha : (h ++ [a]) !! length h = Some a)
      by (apply list_lookup_middle; reflexivity).
    assert (Hca : custom a = Some (VRef (length h)))
      by (subst a; cbn; now rewrite Hc).
    assert (Hcc : custom_configurable a = true)
      by (subst a; cbn; now rewrite Hc).
    split.
    + eexists.
      eapply promisify_marked_self;
        [exact Ha | reflexivity | exact Hca | exact Hcc].
    + rewrite length_app, Nat.add_comm. cbn [length plus].
      now apply (get_custom_own _ _ _ a).
Qed.

End PromisifyFacts.



(** C6, as stated, fails: the warning is handed to the sink on every call
    whose original returns a promise, not once. *)
Lemma double_wrap_warns_each_call :
  ~ (forall thenable inherits argumentNames bs,
       (length (Promisify.warnings_of
                  (Promisify.calls thenable inherits argumentNames bs))
        <= 1)%nat).
Proof.
  intros H.
  specialize (H (fun _ => false) (fun _ => false) None
                [Promisify.returns_promise; Promisify.returns_promise]).
  vm_compute in H. lia.
Qed.

Lemma double_wrap_warns_per_call_witness :
  let never := fun _ : Promisify.Resolution => false in
  let plain := fun _ : nat => false in
  exists r, Promisify.fn never plain None Promisify.returns_promise = Return r /\
            Promisify.eventually r
            = Promisify.Fulfilled (Promisify.Single (VNum 1)) /\
            Promisify.warnings_of (Promisify.events r) = [Promisify.DEP0174].
Proof.
  intros never plain.
  destruct (double_wrap_warns_per_call never plain None
              Promisify.returns_promise eq_refl)
    as (r & r' & Hr & Hr' & _ & He & _ & Hw & _).
  exists r. split; [exact Hr|]. split; [|exact Hw].
  rewrite He. injection Hr' as <-. reflexivity.
Defined.



(** C10, as stated, fails: a function that has its own custom marker with a
    falsy value gets a first adapter, whose marker is overwritten by the copy
    of the own properties; promisifying that adapter makes another one. *)
Lemma promisify_not_idempotent :
  ~ (forall h f g h1,
       Promisify.is_function h (VRef f) = true ->
       Promisify.promisify (VRef f) h = (Return g, h1) ->
       fst (Promisify.promisify (VRef g) h1) = Return g).
Proof.
  intros H.
  specialize (H (Promisify.marked VUndefined) 0%nat 1%nat
                (snd (Promisify.promisify (VRef 0%nat)
                        (Promisify.marked VUndefined)))
                eq_refl eq_refl).
  discriminate H.
Qed.

(** The other way [promisify (promisify f)] is not [promisify f]: when the
    marker of [f] is truthy and not a function, neither call returns. *)
Lemma promisify_marker_not_function :
  fst (Promisify.promisify (VRef 0%nat) (Promisify.marked (VNum 42)))
  = Throw (ERR_INVALID_ARG_TYPE "util.promisify.custom" (VNum 42)).
Proof. reflexivity. Qed.

Lemma promisify_idempotent_witness :
  let h1 := snd (Promisify.promisify (VRef 0%nat) Promisify.xy_heap) in
  fst (Promisify.promisify (VRef 0%nat) Promisify.xy_heap) = Return 1%nat /\
  (exists h2, Promisify.promisify (VRef 1%nat) h1 = (Return 1%nat, h2)).
Proof.
  intros h1. split; [reflexivity|].
  apply (promisify_idempotent Promisify.xy_heap h1 0%nat 1%nat _
           eq_refl eq_refl).
  left. reflexivity.
Defined.

(** ** Strings and arrays *)

Section UtilFacts.
Import Util.

Lemma string_app_assoc (a b c : string) : (a +:+ b) +:+ c = a +:+ (b +:+ c).
Proof.
  induction a as [|x a IH]; [reflexivity|].
  change (String x ((a +:+ b) +:+ c) = String x (a +:+ (b +:+ c))).
  now rewrite IH.
Qed.

Lemma string_app_nil_r (a : string) : a +:+ "" = a.
Proof.
  induction a as [|x a IH]; [reflexivity|].
  change (String x (a +:+ "") = String x a). now rewrite IH.
Qed.

(** Every element followed by the separator. *)
Fixpoint each_then (sep : string) (l : list string) : string :=
  match l with
  | [] => ""%string
  | x :: l' => x +:+ (sep +:+ each_then sep l')
  end.

Lemma drop_cons_nth {A} (l : list A) (i : nat) (d : A) :
  (i < length l)%nat -> drop i l = nth i l d :: drop (S i) l.
Proof.
  intros Hlt. apply drop_S.
  destruct (nth_lookup_or_length l i d) as [H|H]; [exact H | lia].
Qed.

Lemma join_loop_spec output sep n : forall i str,
  (i + n <= length output)%nat ->
  join_loop output sep i n str
  = str +:+ each_then sep (take n (drop i output)).
Proof.
  induction n as [|n IH]; intros i str Hle; cbn [join_loop].
  - cbn. now rewrite string_app_nil_r.
  - rewrite IH by lia.
    rewrite (drop_cons_nth output i ""%string) by lia.
    cbn [take each_then]. now rewrite !string_app_assoc.
Qed.

Lemma concat_as_each_then sep (l : list string) : forall x,
  String.concat sep (x :: l)
  = each_then sep (take (length l) (x :: l)) +:+ nth (length l) (x :: l) ""%string.
Proof.
  induction l as [|y l IH]; intros x.
  - reflexivity.
  - change (String.concat sep (x :: y :: l))
      with (x +:+ (sep +:+ String.concat sep (y :: l))).
    rewrite IH. cbn [length take each_then nth].
    now rewrite !string_app_assoc.
Qed.

(** X1. [join] computes the concatenation of the strings with the separator
    between them (the standard library's [String.concat]): nothing for the
    empty array, the string itself for one string, no separator at either
    end. *)
Theorem join_is_concat (output : list string) (separator : string) :
  join output separator = String.concat separator output.
Proof.
  destruct output as [|x l]; [reflexivity|].
  unfold join. cbn [length Nat.eqb Nat.sub]. rewrite Nat.sub_0_r.
  rewrite join_loop_spec by (cbn; lia).
  rewrite concat_as_each_then. reflexivity.
Qed.

(** The array after the loop: the elements above [index] moved down by one,
    the last one still in place. *)
Lemma spliceOne_loop_done (l : list Value) index :
  length l = S index ->
  l = take index l ++ drop (S index) l ++ [nth (length l - 1) l VUndefined].
Proof.
  intros E. rewrite drop_ge by lia. rewrite E. cbn [app].
  replace (S index - 1)%nat with index by lia.
  rewrite <- (take_drop index l) at 1. f_equal.
  rewrite (drop_cons_nth l index VUndefined) by lia.
  now rewrite drop_ge by lia.
Qed.

Lemma spliceOne_loop_spec fuel : forall (l : list Value) index,
  (index < length l)%nat -> (length l <= index + 1 + fuel)%nat ->
  spliceOne_loop fuel l index
  = take index l ++ drop (S index) l ++ [nth (length l - 1) l VUndefined].
Proof.
  induction fuel as [|fuel IH]; intros l index Hlt Hfuel; cbn [spliceOne_loop].
  - apply spliceOne_loop_done. lia.
  - destruct (Nat.ltb_spec (index + 1) (length l)) as [Hin|Hout];
      [|apply spliceOne_loop_done; lia].
    set (v := nth (index + 1) l VUndefined).
    rewrite IH; rewrite ?length_insert; try lia.
    rewrite take_insert_lt by lia.
    rewrite drop_insert_lt by lia.
    assert (Hl : nth (length l - 1) (<[index:=v]> l) VUndefined
                 = nth (length l - 1) l VUndefined).
    { rewrite !nth_lookup, list_lookup_insert_ne by lia. reflexivity. }
    rewrite Hl.
    assert (Ht : <[index:=v]> (take (S index) l) = take index l ++ [v]).
    { rewrite (take_S_r l index (nth index l VUndefined)).
      - rewrite insert_app_r_alt by (rewrite length_take; lia).
        rewrite length_take.
        replace (index - index `min` length l)%nat with 0%nat by lia.
        reflexivity.
      - destruct (nth_lookup_or_length l index VUndefined) as [H|H];
          [exact H | lia]. }
    rewrite Ht.
    rewrite (drop_cons_nth l (S index) VUndefined) by lia.
    subst v. replace (index + 1)%nat with (S index) by lia.
    rewrite <- !app_assoc. reflexivity.
Qed.

Lemma spliceOne_loop_out fuel : forall (l : list Value) index,
  (length l <= index)%nat -> spliceOne_loop fuel l index = l.
Proof.
  destruct fuel as [|fuel]; intros l index Hle; cbn [spliceOne_loop];
    [reflexivity|].
  destruct (Nat.ltb_spec (index + 1) (length l)); [lia | reflexivity].
Qed.

(** X2. [spliceOne] removes the element at [index] and keeps the others in
    order, when the index is in range; with an index at or beyond the end it
    is the final [pop] alone that acts: the last element goes (nothing, on
    the empty array). *)
Theorem spliceOne_removes (l : list Value) (index : nat) :
  ((index < length l)%nat ->
     spliceOne l index = delete index l /\
     length (spliceOne l index) = (length l - 1)%nat) /\
  ((length l <= index)%nat -> spliceOne l index = removelast l) /\
  spliceOne [] index = [].
Proof.
  split; [|split].
  - intros Hlt. unfold spliceOne.
    rewrite spliceOne_loop_spec by lia.
    rewrite !app_assoc, removelast_last, delete_take_drop.
    split; [reflexivity|].
    rewrite length_app, length_take, length_drop. lia.
  - intros Hle. unfold spliceOne. now rewrite spliceOne_loop_out.
  - reflexivity.
Qed.

Lemma lower_ascii_idem c : lower_ascii (lower_ascii c) = lower_ascii c.
Proof. destruct c as [[] [] [] [] [] [] [] []]; vm_compute; reflexivity. Qed.

Lemma lower_idem s :
  StringPrototypeToLowerCase (StringPrototypeToLowerCase s)
  = StringPrototypeToLowerCase s.
Proof.
  induction s as [|c s IH]; [reflexivity|]. cbn. now rewrite lower_ascii_idem, IH.
Qed.

Lemma lower_length s :
  String.length (StringPrototypeToLowerCase s) = String.length s.
Proof. induction s as [|c s IH]; [reflexivity|]. cbn. now rewrite IH. Qed.

Lemma normalizeEncoding_lower (enc : string) :
  normalizeEncoding (Some enc)
  = encoding_table (StringPrototypeToLowerCase enc).
Proof.
  unfold normalizeEncoding, slowCases. cbv zeta.
  repeat match goal with
         | |- context [String.eqb enc ?c] =>
             destruct (String.eqb_spec enc c) as [->|?];
             [vm_compute; reflexivity|]
         end.
  rewrite <- (lower_length enc).
  remember (StringPrototypeToLowerCase enc) as t eqn:Et.
  unfold encoding_table.
  repeat match goal with
         | |- context [String.eqb t ?c] =>
             destruct (String.eqb_spec t c) as [E|?];
             [first [ rewrite E; vm_compute; reflexivity
                    | exfalso; rewrite E in Et; destruct enc; cbn in Et;
                      congruence ]|]
         end.
  cbn [orb].
  repeat match goal with
         | |- context [Nat.eqb ?a ?b] => destruct (Nat.eqb a b)
         end; reflexivity.
Qed.

(** X3. [normalizeEncoding] of a string is the entry of the table of encoding
    names for the string in lower case: the name of an encoding is recognised
    whatever the case of its letters, two strings equal up to case get the
    same answer, and nothing else is recognised ([undefined]). *)
Theorem normalizeEncoding_table (enc : string) :
  normalizeEncoding (Some enc)
  = encoding_table (StringPrototypeToLowerCase enc) /\
  (forall other,
     StringPrototypeToLowerCase other = StringPrototypeToLowerCase enc ->
     normalizeEncoding (Some other) = normalizeEncoding (Some enc)).
Proof.
  split; [apply normalizeEncoding_lower|].
  intros other E. now rewrite !normalizeEncoding_lower, E.
Qed.

(** The seven names [normalizeEncoding] answers with. *)
Definition canonical_encodings : list string :=
  ["utf8"; "utf16le"; "hex"; "ascii"; "base64"; "latin1"; "base64url"]%string.

Lemma encoding_table_canonical t r :
  encoding_table t = Some r -> r ∈ canonical_encodings.
Proof.
  unfold encoding_table, canonical_encodings.
  repeat match goal with
         | |- context [if ?b then _ else _] => destruct b
         end; intros [= <-]; set_solver.
Qed.

(** X4. An answer of [normalizeEncoding] is one of seven names, and given
    back to [normalizeEncoding] it is returned as it is. *)
Theorem normalizeEncoding_idempotent (enc : option string) (r : string) :
  normalizeEncoding enc = Some r ->
  r ∈ canonical_encodings /\ normalizeEncoding (Some r) = Some r.
Proof.
  intros H.
  assert (Hr : r ∈ canonical_encodings).
  { destruct enc as [s|].
    - rewrite normalizeEncoding_lower in H.
      now apply encoding_table_canonical in H.
    - injection H as <-. unfold canonical_encodings. set_solver. }
  split; [exact Hr|].
  unfold canonical_encodings in Hr.
  repeat (apply elem_of_cons in Hr as [->|Hr]; [reflexivity|]).
  now apply not_elem_of_nil in Hr.
Qed.

Lemma normalizeEncoding_idempotent_witness :
  normalizeEncoding (Some "Latin1"%string) = Some "latin1"%string /\
  normalizeEncoding (Some "latin1"%string) = Some "latin1"%string.
Proof.
  split; [reflexivity|].
  apply (normalizeEncoding_idempotent (Some "BINARY"%string)). reflexivity.
Defined.

End UtilFacts.

(** ** filterDuplicateStrings *)

Section DuplicatesFacts.
Import Duplicates.

Variable StringPrototypeToLowerCase : list N -> list N.

Local Abbreviation map_set := Duplicates.map_set.
Local Abbreviation collect := (Duplicates.collect StringPrototypeToLowerCase).
Local Abbreviation filterDuplicateStrings :=
  (Duplicates.filterDuplicateStrings StringPrototypeToLowerCase).

Lemma units_leb_total a : forall b, units_leb a b = true \/ units_leb b a = true.
Proof.
  induction a as [|x a IH]; intros [|y b]; cbn; auto.
  destruct (N.ltb_spec x y); [now left|].
  destruct (N.ltb_spec y x); [now right|].
  apply IH.
Qed.

#[local] Instance code_unit_le_total : Total code_unit_le.
Proof. intros a b. apply units_leb_total. Qed.

Lemma map_set_elem (key value : list N) m :
  NoDup (map fst m) ->
  forall k v,
    (k, v) ∈ map_set key value m <->
    (k = key /\ v = value) \/ (k <> key /\ (k, v) ∈ m).
Proof.
  induction m as [|[k0 v0] m IH]; intros Hnd k v; cbn.
  - rewrite list_elem_of_singleton. split.
    + intros [= -> ->]. now left.
    + intros [[-> ->]|[_ H]]; [reflexivity | now apply not_elem_of_nil in H].
  - cbn in Hnd. apply NoDup_cons in Hnd as [Hk0 Hnd].
    destruct (bool_decide_reflect (k0 = key)) as [->|Hne].
    + rewrite !elem_of_cons. split.
      * intros [[= -> ->]|H]; [now left|].
        right. split; [|now right].
        intros ->. apply Hk0. apply list_elem_of_fmap. now exists (key, v).
      * intros [[-> ->]|[Hk [[= -> ->]|H]]]; [now left | contradiction | now right].
    + rewrite !elem_of_cons, (IH Hnd). split.
      * intros [[= -> ->]|[[-> ->]|[Hk H]]];
          [right; split; [exact Hne | now left] | now left
          | right; split; [exact Hk | now right]].
      * intros [[-> ->]|[Hk [[= -> ->]|H]]];
          [right; now left | now left | right; right; now split].
Qed.

Lemma map_set_keys (key value : list N) m :
  map fst (map_set key value m)
  = if decide (key ∈ map fst m) then map fst m else map fst m ++ [key].
Proof.
  induction m as [|[k0 v0] m IH]; cbn.
  - destruct (decide (key ∈ [])) as [H|_]; [|reflexivity].
    now apply not_elem_of_nil in H.
  - destruct (bool_decide_reflect (k0 = key)) as [->|Hne]; cbn.
    + destruct (decide (key ∈ key :: map fst m)) as [_|H]; [reflexivity|].
      exfalso. apply H. now left.
    + rewrite IH.
      destruct (decide (key ∈ map fst m)) as [Hin|Hout];
        destruct (decide (key ∈ k0 :: map fst m)) as [Hin'|Hout'];
        try reflexivity.
      * exfalso. apply Hout'. now right.
      * exfalso. apply elem_of_cons in Hin' as [->|Hin']; contradiction.
Qed.

Lemma map_set_NoDup (key value : list N) m :
  NoDup (map fst m) -> NoDup (map fst (map_set key value m)).
Proof.
  intros Hnd. rewrite map_set_keys.
  destruct (decide (key ∈ map fst m)) as [Hin|Hout]; [exact Hnd|].
  apply NoDup_app. split; [exact Hnd|]. split.
  - intros x Hx Hx'. apply list_elem_of_singleton in Hx'. congruence.
  - apply NoDup_singleton.
Qed.

(** What the map holds after the loop over [items], started from the empty
    map: under the lower case of every item, that lower case itself or,
    without [low], an item with that lower case. *)
Record collected (low : bool) (items : list (list N))
    (m : list (list N * list N)) : Prop := {
  col_nodup : NoDup (map fst m);
  col_key : forall k v, (k, v) ∈ m ->
    if low then v = k else StringPrototypeToLowerCase v = k;
  col_all : forall item, item ∈ items ->
    StringPrototypeToLowerCase item ∈ map fst m;
  col_from : forall k v, (k, v) ∈ m ->
    if low then exists item, item ∈ items /\
                             k = StringPrototypeToLowerCase item
    else v ∈ items
}.

Lemma collected_step low items m item :
  collected low items m ->
  collected low (items ++ [item])
    (let key := StringPrototypeToLowerCase item in
     if low then map_set key key m else map_set key item m).
Proof.
  intros [H1 H2 H3 H4]. cbv zeta.
  set (key := StringPrototypeToLowerCase item).
  assert (G : forall value,
            (if low then value = key else value = item) ->
            collected low (items ++ [item]) (map_set key value m)).
  { intros value Hlow. split.
    - now apply map_set_NoDup.
    - intros k v Hin. apply (map_set_elem _ _ _ H1) in Hin as [[-> ->]|[_ Hin]];
        [|now apply H2].
      destruct low; [exact Hlow | now rewrite Hlow].
    - intros it Hit. rewrite map_set_keys.
      apply elem_of_app in Hit as [Hit|Hit].
      + specialize (H3 it Hit).
        destruct (decide (key ∈ map fst m)); [exact H3|].
        apply elem_of_app. now left.
      + apply list_elem_of_singleton in Hit as ->. fold key.
        destruct (decide (key ∈ map fst m)) as [Hin|_]; [exact Hin|].
        apply elem_of_app. right. now apply list_elem_of_singleton.
    - intros k v Hin.
      apply (map_set_elem _ _ _ H1) in Hin as [[-> ->]|[_ Hin]].
      + destruct low.
        * exists item. split; [|reflexivity].
          apply elem_of_app. right. now apply list_elem_of_singleton.
        * rewrite Hlow. apply elem_of_app. right.
          now apply list_elem_of_singleton.
      + specialize (H4 k v Hin). destruct low.
        * destruct H4 as (it & Hit & E).
          exists it. split; [|exact E]. apply elem_of_app. now left.
        * apply elem_of_app. now left. }
  destruct low; apply G; reflexivity.
Qed.

Lemma collected_collect low items : collected low items (collect low items).
Proof.
  unfold Duplicates.collect.
  induction items as [|item items IH] using rev_ind.
  - split; cbn.
    + apply NoDup_nil_2.
    + intros k v H. now apply not_elem_of_nil in H.
    + intros it H. now apply not_elem_of_nil in H.
    + intros k v H. now apply not_elem_of_nil in H.
  - rewrite fold_left_app. cbn [fold_left]. now apply collected_step.
Qed.

(** X5. Whatever the engine's [toLowerCase] is, the strings
    [filterDuplicateStrings] returns are in ascending order of their code
    units and distinct; with [low] they are exactly the lower cases of the
    items; without it they are items, no two with the same lower case, and
    every item has its lower case in common with one of them. *)
Theorem filterDuplicateStrings_spec (items : list (list N)) (low : bool) :
  let result := filterDuplicateStrings items low in
  Sorted code_unit_le result /\
  NoDup result /\
  (low = false -> NoDup (map StringPrototypeToLowerCase result)) /\
  (forall item, item ∈ items ->
     exists r, r ∈ result /\
       if low then r = StringPrototypeToLowerCase item
       else StringPrototypeToLowerCase r = StringPrototypeToLowerCase item) /\
  (forall r, r ∈ result ->
     if low then exists item, item ∈ items /\
                              r = StringPrototypeToLowerCase item
     else r ∈ items).
Proof.
  intros result. subst result. unfold Duplicates.filterDuplicateStrings.
  pose proof (collected_collect low items) as [H1 H2 H3 H4].
  set (m := collect low items) in *.
  assert (Hp : merge_sort code_unit_le (map snd m) ≡ₚ map snd m)
    by apply merge_sort_Permutation.
  assert (Hk : map (fun v => if low then v else StringPrototypeToLowerCase v)
                 (map snd m) = map fst m).
  { rewrite map_map. apply map_ext_in. intros [k v] Hin. cbn.
    apply list_elem_of_In in Hin. specialize (H2 k v Hin).
    destruct low; exact H2. }
  assert (Hnd : NoDup (map (fun v => if low then v
                                     else StringPrototypeToLowerCase v)
                         (merge_sort code_unit_le (map snd m)))).
  { apply (NoDup_Permutation_proper _ (map fst m)); [|exact H1].
    rewrite <- Hk. now apply Permutation_map. }
  split; [|split; [|split; [|split]]].
  - apply (Sorted_merge_sort code_unit_le).
  - destruct low.
    + now rewrite map_id in Hnd.
    + eapply NoDup_fmap_1. exact Hnd.
  - intros ->. exact Hnd.
  - intros item Hit. specialize (H3 item Hit).
    apply list_elem_of_fmap in H3 as ([k v] & Hk' & Hin). cbn in Hk'.
    exists v. split.
    + rewrite Hp. apply list_elem_of_fmap. now exists (k, v).
    + specialize (H2 k v Hin). destruct low; congruence.
  - intros r Hr. rewrite Hp in Hr.
    apply list_elem_of_fmap in Hr as ([k v] & -> & Hin). cbn.
    specialize (H4 k v Hin). specialize (H2 k v Hin).
    destruct low; [|exact H4].
    destruct H4 as (it & Hit & E). exists it. split; [exact Hit|]. congruence.
Qed.

End DuplicatesFacts.
(** ** Functions that remember *)

Section MemoFacts.
Import Memo.

(** *** once *)

Lemma once_calls_called callback preserve rest : forall s,
  called s = true ->
  once_calls callback preserve rest s
  = (repeat (Return (returnValue s)) (length rest), s).
Proof.
  induction rest as [|args rest IH]; intros s Hc; cbn; [reflexivity|].
  unfold once_call. rewrite Hc. now rewrite (IH s Hc).
Qed.

(** X6. The function made by [once] calls the callback on its first call
    only, with the arguments of that call, and returns (or throws) what the
    callback does; every later call returns the first result when
    [preserveReturnValue] is set and the callback returned, and [undefined]
    otherwise: a callback that threw is not tried again. *)
Theorem once_calls_callback_once (callback : list Value -> Outcome Value)
    (preserveReturnValue : bool) (args : list Value)
    (rest : list (list Value)) :
  let later :=
    match callback args with
    | Return r => if preserveReturnValue then r else VUndefined
    | Throw _ => VUndefined
    end in
  fst (once_calls callback preserveReturnValue (args :: rest) once)
  = callback args :: repeat (Return later) (length rest) /\
  invoked (snd (once_calls callback preserveReturnValue (args :: rest) once))
  = 1%nat.
Proof.
  intros later. subst later. cbn [once_calls]. unfold once_call.
  cbn [called once returnValue invoked].
  destruct (callback args) as [r|e];
    rewrite once_calls_called by reflexivity; cbn; split; reflexivity.
Qed.

(** *** getLazy *)

Lemma getLazy_calls_initialized initializer n : forall s,
  initialized s = true ->
  getLazy_calls initializer n s = (repeat (Return (value s)) n, s).
Proof.
  induction n as [|n IH]; intros s Hi; cbn; [reflexivity|].
  unfold getLazy_call. rewrite Hi. now rewrite (IH s Hi).
Qed.

Lemma getLazy_calls_pending initializer k v :
  (forall j, (j < k)%nat -> exists e, initializer j = Throw e) ->
  initializer k = Return v ->
  forall n s,
    initialized s = false -> (initializations s <= k)%nat ->
    let todo := (S k - initializations s)%nat in
    fst (getLazy_calls initializer n s)
    = map initializer (seq (initializations s) (n `min` todo))
        ++ repeat (Return v) (n - todo) /\
    initializations (snd (getLazy_calls initializer n s))
    = (initializations s + n `min` todo)%nat.
Proof.
  intros Hthrow Hret. induction n as [|n IH]; intros s Hi Hle todo.
  - cbn. split; [reflexivity | lia].
  - cbn [getLazy_calls]. unfold getLazy_call. rewrite Hi.
    destruct (decide (initializations s = k)) as [E|Hne].
    + rewrite E, Hret.
      rewrite getLazy_calls_initialized by reflexivity. cbn [fst snd value].
      subst todo. rewrite E.
      replace (S k - k)%nat with 1%nat by lia.
      replace (S n `min` 1)%nat with 1%nat by lia. cbn [seq map app].
      rewrite Hret. replace (S n - 1)%nat with n by lia.
      split; [reflexivity | cbn; lia].
    + destruct (Hthrow (initializations s)) as [e He]; [lia|].
      rewrite He.
      set (s1 := {| value := value s; initialized := false;
                    initializations := S (initializations s) |}).
      destruct (IH s1 eq_refl) as [IH1 IH2]; [cbn; lia|].
      destruct (getLazy_calls initializer n s1) as [rs s2].
      cbn [fst snd] in *. subst todo. cbn [initializations s1] in *.
      replace (S k - initializations s)%nat
        with (S (S k - S (initializations s))) by lia.
      replace (S n `min` S (S k - S (initializations s)))%nat
        with (S (n `min` (S k - S (initializations s)))) by lia.
      cbn [seq map app]. rewrite He, IH1, IH2.
      replace (S n - S (S k - S (initializations s)))%nat
        with (n - (S k - S (initializations s)))%nat by lia.
      split; [reflexivity | lia].
Qed.

(** X7. The function made by [getLazy] calls the initializer again as long
    as it throws, passing the exception on; once the initializer has returned
    a value, [undefined] included, every later call returns that value and
    the initializer is not called again. *)
Theorem getLazy_initializes_once (initializer : nat -> Outcome Value)
    (k : nat) (v : Value) (n : nat) :
  (forall j, (j < k)%nat -> exists e, initializer j = Throw e) ->
  initializer k = Return v ->
  fst (getLazy_calls initializer n getLazy)
  = map initializer (seq 0 (n `min` S k)) ++ repeat (Return v) (n - S k) /\
  initializations (snd (getLazy_calls initializer n getLazy))
  = (n `min` S k)%nat.
Proof.
  intros Hthrow Hret.
  destruct (getLazy_calls_pending initializer k v Hthrow Hret n getLazy
              eq_refl) as [H1 H2]; [cbn; lia|].
  cbn [initializations getLazy] in *. rewrite Nat.sub_0_r in *.
  split; [exact H1 | exact H2].
Qed.

Lemma getLazy_initializes_once_witness :
  let initializer := fun j : nat =>
    match j with
    | O => Throw (Thrown (VStr "EAGAIN"))
    | _ => Return VUndefined
    end in
  fst (getLazy_calls initializer 4 getLazy)
  = [Throw (Thrown (VStr "EAGAIN")); Return VUndefined; Return VUndefined;
     Return VUndefined] /\
  initializations (snd (getLazy_calls initializer 4 getLazy)) = 2%nat.
Proof.
  intros initializer.
  apply (getLazy_initializes_once initializer 1 VUndefined 4).
  - intros [|j] Hj; [eexists; reflexivity | lia].
  - reflexivity.
Defined.

(** *** cachedResult *)

Section CachedResultFacts.

Variable fn : nat -> Outcome (list Value).

(** The array kept in [result] is none of those handed out, and holds what
    the one call of [fn] that returned gave. *)
Definition cache_inv (s : CacheState) (known : list nat) : Prop :=
  (forall a, a ∈ known -> (a < length (arrays s))%nat) /\
  match result s with
  | Some c =>
      (c < length (arrays s))%nat /\ (c ∉ known) /\
      exists j elements,
        fn j = Return elements /\ fn_calls s = S j /\
        (forall i, (i < j)%nat -> exists e, fn i = Throw e) /\
        arrays s !! c = Some elements
  | None => forall i, (i < fn_calls s)%nat -> exists e, fn i = Throw e
  end.

Lemma cache_inv_call s known :
  cache_inv s known ->
  cache_inv (snd (cached_call fn s))
    (match fst (cached_call fn s) with
     | Return a => a :: known
     | Throw _ => known
     end).
Proof.
  intros [Hk Hr]. unfold cache_inv, cached_call, cached_load.
  destruct (result s) as [c|] eqn:Er.
  - destruct Hr as (Hc & Hck & j & elements & Hj & Hf & Hb & Ha).
    cbn. rewrite Er. split.
    + intros a Ha'. rewrite length_app. cbn.
      apply elem_of_cons in Ha' as [->|Ha']; [lia|].
      specialize (Hk a Ha'). lia.
    + split; [rewrite length_app; cbn; lia|]. split.
      * intros Hin. apply elem_of_cons in Hin as [->|Hin]; [lia | contradiction].
      * exists j, elements. repeat split; try assumption.
        now rewrite lookup_app_l.
  - destruct (fn (fn_calls s)) as [elements|e] eqn:Ef; cbn.
    + split.
      * intros a Ha'. rewrite !length_app. cbn.
        rewrite length_app in Ha'. cbn in Ha'.
        apply elem_of_cons in Ha' as [->|Ha']; [lia|].
        specialize (Hk a Ha'). lia.
      * split; [rewrite !length_app; cbn; lia|]. split.
        -- intros Hin. rewrite length_app in Hin. cbn in Hin.
           apply elem_of_cons in Hin as [E|Hin]; [lia|].
           specialize (Hk _ Hin). lia.
        -- exists (fn_calls s), elements. repeat split; try assumption.
           rewrite lookup_app_l by (rewrite length_app; cbn; lia).
           apply list_lookup_middle. reflexivity.
    + split; [exact Hk|].
      intros i Hi. destruct (decide (i = fn_calls s)) as [->|Hne];
        [eauto | apply Hr; lia].
Qed.

Lemma cache_inv_write s known a i v :
  cache_inv s known -> a ∈ known ->
  cache_inv (cache_step fn s (CWrite a i v)) known.
Proof.
  intros [Hk Hr] Ha. unfold cache_inv. cbn. rewrite length_alter.
  split; [exact Hk|].
  destruct (result s) as [c|]; [|exact Hr].
  destruct Hr as (Hc & Hck & j & elements & Hj & Hf & Hb & Hl).
  repeat split; try assumption.
  exists j, elements. repeat split; try assumption.
  rewrite list_lookup_alter_ne; [exact Hl|]. intros ->. contradiction.
Qed.

Lemma cache_inv_run ops : forall s known,
  cache_inv s known -> own_writes fn known ops s = true ->
  exists known', cache_inv (cache_run fn ops s) known'.
Proof.
  induction ops as [|o ops IH]; intros s known Hinv Hown; [eauto|].
  change (cache_run fn (o :: ops) s) with (cache_run fn ops (cache_step fn s o)).
  destruct o as [|a i v]; cbn [own_writes] in Hown.
  - eapply IH; [|exact Hown]. now apply cache_inv_call.
  - apply andb_prop in Hown as [Ha Hown]. apply bool_decide_eq_true in Ha.
    eapply IH; [|exact Hown]. now apply cache_inv_write.
Qed.

(** X8. Whatever calls were made before, and whatever the callers wrote into
    the arrays they were given: [fn] is called again as long as it throws and
    never after it has returned; from then on every call hands out a new
    array that holds exactly the elements [fn] returned. *)
Theorem cachedResult_copies (ops : list cache_op) :
  own_writes fn [] ops (cachedResult) = true ->
  let s := cache_run fn ops cachedResult in
  match result s with
  | Some c =>
      exists j elements,
        fn j = Return elements /\ fn_calls s = S j /\
        (forall i, (i < j)%nat -> exists e, fn i = Throw e) /\
        fst (cached_call fn s) = Return (length (arrays s)) /\
        arrays (snd (cached_call fn s)) !! length (arrays s) = Some elements /\
        arrays (snd (cached_call fn s)) !! c = Some elements /\
        fn_calls (snd (cached_call fn s)) = fn_calls s
  | None => forall i, (i < fn_calls s)%nat -> exists e, fn i = Throw e
  end.
Proof.
  intros Hown s.
  assert (H0 : cache_inv cachedResult []).
  { split; [intros a Ha; now apply not_elem_of_nil in Ha|].
    cbn. intros i Hi. lia. }
  destruct (cache_inv_run ops _ _ H0 Hown) as [known [Hk Hr]].
  fold s in Hk, Hr. destruct (result s) as [c|] eqn:Er; [|exact Hr].
  destruct Hr as (Hc & Hck & j & elements & Hj & Hf & Hb & Hl).
  exists j, elements. unfold cached_call, cached_load. rewrite Er. cbn.
  rewrite Hl. cbn. repeat split; try assumption.
  - apply list_lookup_middle. reflexivity.
  - now rewrite lookup_app_l.
Qed.

End CachedResultFacts.

Lemma cachedResult_copies_witness :
  let fn := fun j : nat =>
    match j with
    | O => Throw (Thrown (VStr "EAGAIN"))
    | _ => Return [VNum 1; VNum 2]
    end in
  let s := cache_run fn [CCall; CCall; CWrite 1 0 (VNum 9); CCall] cachedResult in
  fn_calls s = 2%nat /\
  arrays s !! 1%nat = Some [VNum 9; VNum 2] /\
  arrays (snd (cached_call fn s)) !! length (arrays s) = Some [VNum 1; VNum 2].
Proof.
  intros fn s.
  pose proof (cachedResult_copies fn [CCall; CCall; CWrite 1 0 (VNum 9); CCall]
                eq_refl) as H.
  cbv zeta in H. fold s in H.
  change (result s) with (Some 0%nat) in H.
  destruct H as (j & elements & Hj & Hf & _ & _ & Ha & _ & _).
  split; [reflexivity|]. split; [reflexivity|].
  change (fn_calls s) with 2%nat in Hf. injection Hf as <-.
  injection Hj as <-. exact Ha.
Defined.

(** *** emitExperimentalWarning *)

Lemma experimental_run_log features : forall s l,
  emitted s = map experimental_warning l ->
  NoDup l ->
  (forall f, f ∈ l <-> f ∈ experimentalWarnings s) ->
  exists l',
    emitted (experimental_run features s) = map experimental_warning (l ++ l') /\
    NoDup (l ++ l') /\
    (forall f, f ∈ l ++ l' <-> f ∈ experimentalWarnings s \/ f ∈ features).
Proof.
  induction features as [|feature features IH]; intros s l He Hnd Hset.
  - exists []. rewrite app_nil_r. split; [exact He|]. split; [exact Hnd|].
    intros f. rewrite Hset. split; [now left | intros [H|H]; [exact H|]].
    now apply not_elem_of_nil in H.
  - change (experimental_run (feature :: features) s)
      with (experimental_run features (emitExperimentalWarning feature s)).
    unfold emitExperimentalWarning. case_bool_decide as Hin.
    + destruct (IH s l He Hnd Hset) as (l' & H1 & H2 & H3).
      exists l'. split; [exact H1|]. split; [exact H2|].
      intros f. rewrite H3, elem_of_cons. split; [tauto|].
      intros [H|[->|H]]; tauto.
    + destruct (IH {| experimentalWarnings := {[feature]} ∪ experimentalWarnings s;
                      emitted := emitted s ++ [experimental_warning feature] |}
                   (l ++ [feature])) as (l' & H1 & H2 & H3).
      * cbn. now rewrite He, map_app.
      * apply NoDup_app. split; [exact Hnd|]. split; [|apply NoDup_singleton].
        intros x Hx Hx'. apply list_elem_of_singleton in Hx' as ->.
        apply Hin. now apply Hset.
      * intros f. cbn. rewrite elem_of_app, list_elem_of_singleton, Hset.
        rewrite elem_of_union, elem_of_singleton. tauto.
      * exists (feature :: l'). rewrite <- app_assoc in H1, H2, H3.
        split; [exact H1|]. split; [exact H2|].
        intros f. rewrite (H3 f). cbn.
        rewrite elem_of_cons, elem_of_union, elem_of_singleton. tauto.
Qed.

(** X9. Over any sequence of calls of [emitExperimentalWarning] in a process,
    the warnings emitted are one for each distinct feature: the features they
    name are those of the calls, each once, and each warning is an
    ExperimentalWarning with the feature's message. *)
Theorem experimental_warning_once (features : list string) :
  exists warned,
    emitted (experimental_run features
               {| experimentalWarnings := ∅; emitted := [] |})
    = map experimental_warning warned /\
    NoDup warned /\
    (forall f, f ∈ warned <-> f ∈ features).
Proof.
  destruct (experimental_run_log features
              {| experimentalWarnings := ∅; emitted := [] |} [])
    as (l' & H1 & H2 & H3).
  - reflexivity.
  - apply NoDup_nil_2.
  - intros f. cbn. split; intros H;
      [now apply not_elem_of_nil in H | now apply elem_of_empty in H].
  - exists l'. cbn in *. split; [exact H1|]. split; [exact H2|].
    intros f. rewrite H3. split; [intros [H|H]; [|exact H] | now right].
    now apply elem_of_empty in H.
Qed.

End MemoFacts.

(** ** More on the deprecation wrappers *)

Section DeprecationMore.
Import Deprecation.

(** Where a warning of the log comes from. *)
Definition attributed (p : Process) (w : Warning) : Prop :=
  exists i e,
    w_ctor w = Some i /\ wrappers p !! i = Some e /\
    w_message w = msg e /\ w_code w = code e /\
    w_type w = "DeprecationWarning"%string /\
    warned e = true /\
    (kind e = ByPendingDeprecate -> isPendingDeprecation p = true) /\
    (w_sync w = true -> useEmitSync e = true /\ is_Some (code e)).

Definition all_attributed (p : Process) : Prop :=
  forall w, w ∈ warnings p -> attributed p w.

Lemma attributed_new_wrapper e p w :
  attributed p w -> attributed (snd (new_wrapper e p)) w.
Proof.
  intros (i & e0 & H1 & H2 & H3). exists i, e0. split; [exact H1|].
  split; [|exact H3]. cbn. rewrite lookup_app_l; [exact H2|].
  now apply lookup_lt_Some in H2.
Qed.

Lemma attributed_set_warned j p w :
  attributed p w -> attributed (set_warned j p) w.
Proof.
  intros (i & e0 & H1 & H2 & H3 & H4 & H5 & H6 & H7 & H8).
  destruct (decide (j = i)) as [->|Hne].
  - eexists i, _. split; [exact H1|]. split.
    + cbn. rewrite list_lookup_alter_eq, H2. reflexivity.
    + exact (conj H3 (conj H4 (conj H5 (conj eq_refl (conj H7 H8))))).
  - exists i, e0. split; [exact H1|]. split.
    + cbn. now rewrite list_lookup_alter_ne.
    + exact (conj H3 (conj H4 (conj H5 (conj H6 (conj H7 H8))))).
Qed.

Lemma all_attributed_emit i p :
  all_attributed p -> all_attributed (emitDeprecationWarning i p).
Proof.
  intros Hall. unfold emitDeprecationWarning.
  destruct (wrappers p !! i) as [e|] eqn:Hi; [|exact Hall].
  destruct (negb (warned e) && shouldEmitWarning (kind e) p) eqn:Hg;
    [|exact Hall].
  apply andb_prop in Hg as [_ Hs].
  assert (Hold : forall w, w ∈ warnings p -> attributed (set_warned i p) w)
    by (intros w Hw; now apply attributed_set_warned, Hall).
  assert (Hi' : wrappers (set_warned i p) !! i
                = Some {| code := code e; msg := msg e;
                          useEmitSync := useEmitSync e; kind := kind e;
                          warned := true |}).
  { cbn. now rewrite list_lookup_alter_eq, Hi. }
  assert (Hp : kind e = ByPendingDeprecate -> isPendingDeprecation p = true).
  { intros Hk. now rewrite Hk in Hs. }
  destruct (code e) as [c|] eqn:Hc.
  - case_bool_decide as Hin; [exact Hold|].
    intros w Hw. cbn in Hw. apply elem_of_app in Hw as [Hw|Hw].
    + destruct (Hold w Hw) as (j & e0 & H). exists j, e0. exact H.
    + apply list_elem_of_singleton in Hw as ->.
      eexists i, _. split; [reflexivity|]. split; [exact Hi'|].
      cbn.
      refine (conj eq_refl (conj eq_refl (conj eq_refl (conj eq_refl
                (conj Hp _))))).
      intros Hsync. split; [exact Hsync | eauto].
  - intros w Hw. cbn in Hw. apply elem_of_app in Hw as [Hw|Hw].
    + exact (Hold w Hw).
    + apply list_elem_of_singleton in Hw as ->.
      eexists i, _. split; [reflexivity|]. split; [exact Hi'|].
      cbn.
      refine (conj eq_refl (conj eq_refl (conj eq_refl (conj eq_refl
                (conj Hp _))))).
      discriminate.
Qed.

Lemma all_attributed_step p o : all_attributed p -> all_attributed (step p o).
Proof.
  intros Hall. destruct o; cbn [step].
  - intros w Hw. apply attributed_new_wrapper, Hall, Hw.
  - intros w Hw. apply attributed_new_wrapper, Hall, Hw.
  - unfold deprecated. destruct (wrappers p !! i) as [e|]; [|exact Hall].
    destruct (kind e); [destruct (negb (noDeprecation p))|];
      try exact Hall; now apply all_attributed_emit.
  - intros w Hw. destruct (Hall w Hw) as (i & e & H). exists i, e. exact H.
Qed.

Lemma all_attributed_run ops : forall p,
  all_attributed p -> all_attributed (run ops p).
Proof.
  induction ops as [|o ops IH]; intros p H; [exact H|].
  change (run (o :: ops) p) with (run ops (step p o)).
  apply IH, all_attributed_step, H.
Qed.

Lemma options_step p o :
  pending_deprecation (step p o) = pending_deprecation p /\
  no_deprecation (step p o) = no_deprecation p.
Proof.
  destruct o; cbn; try (split; reflexivity).
  unfold deprecated, emitDeprecationWarning.
  destruct (wrappers p !! i) as [e|]; [|split; reflexivity].
  destruct (kind e); [destruct (negb (noDeprecation p))|];
    try (split; reflexivity);
    (destruct (negb (warned e) && _); [|split; reflexivity];
     destruct (code e); [case_bool_decide|]; split; reflexivity).
Qed.

Lemma options_run ops : forall p,
  isPendingDeprecation (run ops p) = isPendingDeprecation p.
Proof.
  induction ops as [|o ops IH]; intros p; [reflexivity|].
  change (run (o :: ops) p) with (run ops (step p o)).
  rewrite IH. unfold isPendingDeprecation.
  destruct (options_step p o) as [-> ->]. reflexivity.
Qed.

(** X10. Every warning emitted by the wrappers is a DeprecationWarning that
    carries the message and the code of one wrapper, which it names for the
    stack and which is marked as having warned. A wrapper made by
    [pendingDeprecate] warns only if --pending-deprecation is given without
    --no-deprecation, and the synchronous emitter is used only for a wrapper
    that asked for it and has a code. *)
Theorem deprecation_warning_origin (noDep pendingDep noDepOption : bool)
    (ops : list op) (w : Warning) :
  let p := run ops (init noDep pendingDep noDepOption) in
  w ∈ warnings p ->
  exists i e,
    w_ctor w = Some i /\ wrappers p !! i = Some e /\
    w_message w = msg e /\ w_code w = code e /\
    w_type w = "DeprecationWarning"%string /\
    warned e = true /\
    (kind e = ByPendingDeprecate -> pendingDep && negb noDepOption = true) /\
    (w_sync w = true -> useEmitSync e = true /\ is_Some (code e)).
Proof.
  intros p Hw.
  assert (H0 : all_attributed (init noDep pendingDep noDepOption))
    by (intros x Hx; now apply not_elem_of_nil in Hx).
  destruct (all_attributed_run ops _ H0 w Hw)
    as (i & e & H1 & H2 & H3 & H4 & H5 & H6 & H7 & H8).
  exists i, e.
  refine (conj H1 (conj H2 (conj H3 (conj H4 (conj H5 (conj H6 (conj _ H8))))))).
  intros Hk. specialize (H7 Hk). unfold p in H7.
  now rewrite options_run in H7.
Qed.

Lemma deprecation_warning_origin_witness :
  let ops := [NewPendingDeprecate "old" (Some "DEP1"); Call 0;
              NewDeprecate "older" None true; Call 1; Call 1] in
  let p := run ops (init false true false) in
  exists i e, w_ctor (mkWarning "older" "DeprecationWarning" None (Some 1%nat) false)
              = Some i /\ wrappers p !! i = Some e /\ warned e = true.
Proof.
  intros ops p.
  destruct (deprecation_warning_origin false true false ops
              (mkWarning "older" "DeprecationWarning" None (Some 1%nat) false))
    as (i & e & H1 & H2 & _ & _ & _ & H6 & _).
  - vm_compute. set_solver.
  - exists i, e. repeat split; assumption.
Defined.

Lemma repeat_call_suppressed k : forall i p e,
  wrappers p !! i = Some e -> kind e = ByDeprecate ->
  noDeprecation p = true ->
  run (repeat (Call i) k) p = p.
Proof.
  induction k as [|k IH]; intros i p e Hi Hk Hn; [reflexivity|].
  change (run (repeat (Call i) (S k)) p)
    with (run (repeat (Call i) k) (deprecated i p)).
  assert (E : deprecated i p = p).
  { unfold deprecated. now rewrite Hi, Hk, Hn. }
  rewrite E. now apply (IH i p e).
Qed.

(** X11. While [process.noDeprecation] is set, calls of a wrapper made by
    [deprecate] change nothing: they emit nothing and do not use up the
    wrapper's warning. Once the flag is cleared, the next call emits the
    warning, if the wrapper has not warned yet and its code has not been
    reported. *)
Theorem noDeprecation_does_not_consume (p : Process) (i : nat) (e : Emitter)
    (k : nat) :
  wrappers p !! i = Some e ->
  kind e = ByDeprecate ->
  warned e = false ->
  noDeprecation p = true ->
  match code e with Some c => c ∉ codesWarned p | None => True end ->
  let quiet := run (repeat (Call i) k) p in
  quiet = p /\
  warnings (run [SetNoDeprecation false; Call i] quiet)
  = warnings p ++
    [ {| w_message := msg e; w_type := "DeprecationWarning";
         w_code := code e; w_ctor := Some i;
         w_sync := match code e with Some _ => useEmitSync e | None => false end |} ].
Proof.
  intros Hi Hk Hw Hn Hfresh quiet.
  assert (Hq : quiet = p) by (apply (repeat_call_suppressed k i p e); assumption).
  split; [exact Hq|]. rewrite Hq.
  cbn [run fold_left step]. unfold deprecated. cbn [set_noDeprecation wrappers noDeprecation].
  rewrite Hi, Hk. cbn [negb].
  unfold emitDeprecationWarning.
  change (wrappers (set_noDeprecation false p)) with (wrappers p).
  rewrite Hi, Hw, Hk. cbn.
  destruct (code e) as [c|]; [|reflexivity].
  rewrite bool_decide_eq_false_2 by exact Hfresh. reflexivity.
Qed.

Lemma noDeprecation_does_not_consume_witness :
  let p := snd (deprecate "old" (Some "DEP9") false (init true false false)) in
  run (repeat (Call 0) 3) p = p /\
  length (warnings (run [SetNoDeprecation false; Call 0] (run (repeat (Call 0) 3) p)))
  = 1%nat.
Proof.
  intros p.
  destruct (noDeprecation_does_not_consume p 0
              {| code := Some "DEP9"%string; msg := "old"; useEmitSync := false;
                 kind := ByDeprecate; warned := false |} 3)
    as [H1 H2]; try reflexivity.
  - vm_compute. set_solver.
  - split; [exact H1|]. rewrite H2. reflexivity.
Defined.

End DeprecationMore.

(** ** More on signals *)

Section SignalMore.
Import Signals.

Variable StringPrototypeToUpperCase : string -> string.
Variable signals : list (string * Z).
Hypothesis well_formed : table_ok signals = true.

Local Abbreviation convertToValidSignal :=
  (Signals.convertToValidSignal StringPrototypeToUpperCase).

Lemma find_unique_name (l : list (string * Z)) name n :
  NoDup (map fst l) -> In (name, n) l ->
  List.find (fun kv => String.eqb (fst kv) name) l = Some (name, n).
Proof.
  induction l as [|[k v] l IH]; intros Hnd Hin; [contradiction|].
  cbn in *. apply NoDup_cons in Hnd as [Hk Hnd].
  destruct Hin as [[= -> ->]|Hin].
  - now rewrite String.eqb_refl.
  - destruct (String.eqb_spec k name) as [->|Hne].
    + exfalso. apply Hk. apply list_elem_of_fmap. exists (name, n).
      split; [reflexivity | now apply list_elem_of_In].
    + now apply IH.
Qed.

(** X12. Signal names and numbers go round, whatever the engine's
    [toUpperCase] is. The number found for a string is itself accepted as a
    signal number. And, in a table of distinct names each of which
    [toUpperCase] leaves as it is, a number that is accepted has a name in
    the mapping which, given to [convertToValidSignal], gives the number
    back. *)
Theorem signal_round_trip (st st' : State) :
  cache_ok signals st -> cache_ok signals st' ->
  (forall s r,
     fst (convertToValidSignal signals (VStr s) st) = Return r ->
     exists n, r = VNum n /\
       fst (convertToValidSignal signals (VNum n) st') = Return (VNum n)) /\
  (NoDup (map fst signals) ->
   (forall name n, In (name, n) signals ->
      StringPrototypeToUpperCase name = name) ->
   forall n,
     fst (convertToValidSignal signals (VNum n) st) = Return (VNum n) ->
     exists name,
       fst (getSignalsToNamesMapping signals st) !! n = Some name /\
       fst (convertToValidSignal signals (VStr name) st') = Return (VNum n)).
Proof.
  intros Hst Hst'. split.
  - intros s r. rewrite (convert_string StringPrototypeToUpperCase signals well_formed).
    destruct (List.find _ signals) as [[k n]|] eqn:Ef; [|discriminate].
    intros [= <-]. exists n. split; [reflexivity|].
    rewrite (convert_number StringPrototypeToUpperCase signals n st' Hst').
    apply find_some in Ef as [Hin _].
    assert (Hk : is_Some (build_mapping signals !! n))
      by (apply build_mapping_known; eauto).
    apply (build_mapping_truthy signals well_formed) in Hk. now rewrite Hk.
  - intros Hnd Hup n. rewrite (convert_number StringPrototypeToUpperCase signals n st Hst).
    destruct (truthy (mapping_get (build_mapping signals) (VNum n))) eqn:Et;
      [|discriminate].
    intros _. apply (build_mapping_truthy signals well_formed) in Et as [name Hn].
    exists name. split.
    + destruct (getSignalsToNamesMapping_built signals st Hst) as [-> _].
      exact Hn.
    + apply fold_mapping_sound in Hn as [Hin|Hin];
        [|rewrite lookup_empty in Hin; discriminate].
      rewrite (convert_string StringPrototypeToUpperCase signals well_formed), (Hup name n Hin).
      now rewrite (find_unique_name signals name n Hnd Hin).
Qed.

End SignalMore.

Lemma signal_round_trip_witness :
  let upper := Signals.ascii_toUpperCase in
  fst (Signals.convertToValidSignal upper Signals.linux_signals (VNum 6) None)
    = Return (VNum 6) /\
  exists name,
    Signals.build_mapping Signals.linux_signals !! 6 = Some name /\
    fst (Signals.convertToValidSignal upper Signals.linux_signals
           (VStr name) None)
    = Return (VNum 6).
Proof.
  intros upper. split; [reflexivity|].
  destruct (signal_round_trip upper Signals.linux_signals eq_refl None None
              (or_introl eq_refl) (or_introl eq_refl)) as [_ H].
  apply H.
  - apply (bool_decide_unpack _). vm_compute. exact I.
  - intros name n Hin. cbn in Hin.
    repeat (destruct Hin as [[= <- <-]|Hin]; [reflexivity|]). contradiction.
  - reflexivity.
Defined.

(** ** More on WeakReference *)

Section WeakReferenceMore.
Import WeakRef.

(** A trace along which the count is never 0. *)
Fixpoint never_zero (ops : list op) (r : t) : bool :=
  match ops with
  | [] => true
  | o :: ops' =>
      negb (refCount (step r o) =? 0) && never_zero ops' (step r o)
  end.

Lemma pinned_step r o :
  strong r = Some (weak r) -> alive r = true -> refCount r <> 0 ->
  refCount (step r o) <> 0 ->
  strong (step r o) = Some (weak r) /\ alive (step r o) = true /\
  weak (step r o) = weak r.
Proof.
  intros Hs Ha Hr Hr'. destruct o; cbn in *.
  - destruct (Z.eqb_spec (refCount r + 1) 1) as [E|E]; [lia|].
    cbn. auto.
  - destruct (Z.eqb_spec (refCount r - 1) 0) as [E|E].
    + cbn in Hr'. lia.
    + cbn. auto.
  - auto.
  - unfold collect. rewrite Hs. auto.
Qed.

Lemma pinned_run ops : forall r,
  strong r = Some (weak r) -> alive r = true -> refCount r <> 0 ->
  never_zero ops r = true ->
  strong (run ops r) = Some (weak r) /\ alive (run ops r) = true /\
  weak (run ops r) = weak r.
Proof.
  induction ops as [|o ops IH]; intros r Hs Ha Hr Hn; [auto|].
  cbn [never_zero] in Hn. apply andb_prop in Hn as [Ho Hn].
  apply negb_true_iff, Z.eqb_neq in Ho.
  change (run (o :: ops) r) with (run ops (step r o)).
  destruct (pinned_step r o Hs Ha Hr Ho) as (Hs' & Ha' & Hw').
  destruct (IH (step r o)) as (H1 & H2 & H3);
    rewrite ?Hw'; try assumption.
  rewrite Hw' in H1, H3. auto.
Qed.

Lemma positive_run ops : forall r,
  0 < refCount r -> never_zero ops r = true -> 0 < refCount (run ops r).
Proof.
  induction ops as [|o ops IH]; intros r Hp Hn; [exact Hp|].
  cbn [never_zero] in Hn. apply andb_prop in Hn as [Ho Hn].
  apply negb_true_iff, Z.eqb_neq in Ho.
  change (run (o :: ops) r) with (run ops (step r o)).
  apply IH; [|exact Hn]. rewrite refCount_step in *.
  destruct o; cbn in *; lia.
Qed.

(** X13. Pinning works: after [incRef] has taken the count from 0 to 1 while
    the target was alive, and for as long as the count does not come back to
    0, the collector cannot reclaim the target: the strong handle holds it
    and [get] returns it, whatever else happens. *)
Theorem pinned_target_survives (r0 : t) (ops : list op) :
  refCount r0 = 0 -> alive r0 = true ->
  let r := snd (incRef r0) in
  never_zero ops r = true ->
  get (run ops r) = Some (weak r0) /\
  strong (run ops r) = Some (weak r0) /\
  0 < refCount (run ops r).
Proof.
  intros H0 Ha r Hn.
  assert (Hr : strong r = Some (weak r) /\ alive r = true /\
               refCount r = 1 /\ weak r = weak r0).
  { subst r. unfold incRef. cbn. rewrite H0. cbn. unfold deref. cbn.
    rewrite Ha. cbn. auto. }
  destruct Hr as (Hs & Ha' & Hc & Hw).
  destruct (pinned_run ops r Hs Ha') as (H1 & H2 & H3); [lia | exact Hn|].
  split; [|split].
  - unfold get, deref. now rewrite H2, H3, Hw.
  - now rewrite H1, Hw.
  - apply positive_run; [lia | exact Hn].
Qed.

Lemma pinned_target_survives_witness :
  get (run [Collect; IncRef; Collect; DecRef; Get; Collect]
           (snd (incRef (new 7%nat)))) = Some 7%nat.
Proof.
  apply (pinned_target_survives (new 7%nat)
           [Collect; IncRef; Collect; DecRef; Get; Collect]
           eq_refl eq_refl eq_refl).
Defined.

Lemma reclaimed_step r o :
  alive r = false -> strong r = None ->
  alive (step r o) = false /\ strong (step r o) = None.
Proof.
  intros Ha Hs. destruct o; cbn.
  - destruct (refCount r + 1 =? 1); cbn; [|auto].
    unfold deref. cbn. rewrite Ha. cbn. auto.
  - destruct (refCount r - 1 =? 0); cbn; auto.
  - auto.
  - unfold collect. rewrite Hs. cbn. auto.
Qed.

(** X14. A collected target does not come back: once the target has been
    reclaimed, [get] returns nothing for good, and [incRef], which still
    counts, pins nothing. The count follows the calls whatever happens: it is
    the count before, plus the calls of [incRef], minus those of [decRef]. *)
Theorem collected_target_is_gone (r : t) (ops : list op) :
  alive r = false -> strong r = None ->
  get (run ops r) = None /\
  strong (run ops r) = None /\
  refCount (run ops r)
  = refCount r + Z.of_nat (count_occ op_eq_dec ops IncRef)
               - Z.of_nat (count_occ op_eq_dec ops DecRef).
Proof.
  intros Ha Hs. split; [|split].
  - revert r Ha Hs. induction ops as [|o ops IH]; intros r Ha Hs.
    + unfold get, deref. cbn. now rewrite Ha.
    + change (run (o :: ops) r) with (run ops (step r o)).
      destruct (reclaimed_step r o Ha Hs) as [Ha' Hs']. now apply IH.
  - revert r Ha Hs. induction ops as [|o ops IH]; intros r Ha Hs.
    + exact Hs.
    + change (run (o :: ops) r) with (run ops (step r o)).
      destruct (reclaimed_step r o Ha Hs) as [Ha' Hs']. now apply IH.
  - rewrite refCount_run. clear. induction ops as [|o ops IH]; [cbn; lia|].
    change (net (o :: ops)) with (delta o + net ops).
    cbn [count_occ]. destruct o; cbn [delta];
      repeat match goal with
             | |- context [op_eq_dec ?a ?b] =>
                 destruct (op_eq_dec a b);
                 [try discriminate | try congruence]
             end; lia.
Qed.

Lemma collected_target_is_gone_witness :
  get (run [IncRef; IncRef; DecRef] (collect (new 7%nat))) = None /\
  strong (run [IncRef; IncRef; DecRef] (collect (new 7%nat))) = None /\
  refCount (run [IncRef; IncRef; DecRef] (collect (new 7%nat))) = 1.
Proof.
  destruct (collected_target_is_gone (collect (new 7%nat))
              [IncRef; IncRef; DecRef] eq_refl eq_refl) as (H1 & H2 & H3).
  split; [exact H1|]. split; [exact H2|]. rewrite H3. reflexivity.
Defined.

Lemma unpinned_incRefs k : forall r,
  strong r = None -> refCount r = - Z.of_nat k ->
  refCount (run (repeat IncRef k) r) = 0 /\
  strong (run (repeat IncRef k) r) = None /\
  alive (run (repeat IncRef k) r) = alive r.
Proof.
  induction k as [|k IH]; intros r Hs Hc; [cbn in *; auto|].
  change (run (repeat IncRef (S k)) r)
    with (run (repeat IncRef k) (snd (incRef r))).
  assert (H : strong (snd (incRef r)) = None /\
              refCount (snd (incRef r)) = - Z.of_nat k /\
              alive (snd (incRef r)) = alive r).
  { unfold incRef. cbn.
    destruct (Z.eqb_spec (refCount r + 1) 1) as [E|E]; [lia|].
    cbn. split; [exact Hs|]. split; [lia | reflexivity]. }
  destruct H as (Hs' & Hc' & Ha').
  destruct (IH _ Hs' Hc') as (H1 & H2 & H3).
  rewrite H3, Ha'. auto.
Qed.

(** X15. The count is not validated, and misuse defeats pinning: when
    [decRef] has been called k times more often than [incRef], the next k
    calls of [incRef] bring the count back to 0 without ever taking a strong
    handle, so the target can still be collected while callers believe it
    pinned. *)
Theorem stray_decRef_defeats_pinning (r : t) (k : nat) :
  refCount r = 0 -> strong r = None ->
  let low := run (repeat DecRef k) r in
  let back := run (repeat IncRef k) low in
  refCount low = - Z.of_nat k /\
  refCount back = 0 /\
  strong back = None /\
  get (collect back) = None.
Proof.
  intros H0 Hs low back.
  assert (Hlow : refCount low = - Z.of_nat k /\ strong low = None).
  { subst low. clear back. revert r H0 Hs.
    assert (G : forall j r, strong r = None -> refCount r <= 0 ->
                refCount (run (repeat DecRef j) r) = refCount r - Z.of_nat j /\
                strong (run (repeat DecRef j) r) = None).
    { induction j as [|j IH]; intros r Hs Hc; [cbn; split; [lia|exact Hs]|].
      change (run (repeat DecRef (S j)) r)
        with (run (repeat DecRef j) (snd (decRef r))).
      assert (H : strong (snd (decRef r)) = None /\
                  refCount (snd (decRef r)) = refCount r - 1).
      { unfold decRef. cbn. destruct (refCount r - 1 =? 0); cbn; auto. }
      destruct H as [Hs' Hc'].
      destruct (IH _ Hs') as [H1 H2]; [lia|]. rewrite H1, Hc'. split; [lia|exact H2]. }
    intros r H0 Hs. destruct (G k r Hs) as [H1 H2]; [lia|].
    split; [lia | exact H2]. }
  destruct Hlow as [Hc Hs'].
  destruct (unpinned_incRefs k low Hs' Hc) as (H1 & H2 & _).
  split; [exact Hc|]. split; [exact H1|]. split; [exact H2|].
  unfold get, deref, collect. subst back. rewrite H2. reflexivity.
Qed.

Lemma stray_decRef_defeats_pinning_witness :
  let back := run (repeat IncRef 2) (run (repeat DecRef 2) (new 7%nat)) in
  refCount back = 0 /\ strong back = None /\ get (collect back) = None.
Proof.
  intros back.
  destruct (stray_decRef_defeats_pinning (new 7%nat) 2 eq_refl eq_refl)
    as (_ & H1 & H2 & H3).
  repeat split; assumption.
Defined.

End WeakReferenceMore.

(** ** More on lazy properties *)

Section LazyMore.
Import Lazy.

Variable require : nat -> Loaded.
Variable keys : list string.

Lemma write_settles K v s :
  wf require keys s -> settled K v (Lazy.write keys K v s).
Proof.
  intros W. unfold Lazy.write, settled.
  destruct (target s !! K) as [[i b|x]|] eqn:Et; cbn.
  - destruct (wf_accessor require keys s W K i b Et) as (Hk & _).
    rewrite Hk, lookup_insert_eq. now left.
  - rewrite lookup_insert_eq. now left.
  - rewrite lookup_insert_eq. now left.
Qed.

(** X16. A write wins over the loader: once [target[K]] has been written,
    before or after its first read, every read of K returns the value
    written last, calls no loader and changes nothing, whatever other
    properties are read or written in between. The write itself loads
    nothing. *)
Theorem lazy_write_bypasses_loader (values : gmap string Value)
    (ops between : list op) (K : string) (v : Value) :
  forallb (fun o => negb (writes_to K o)) between = true ->
  let before := Lazy.run require keys ops
                  (defineLazyProperties keys (plain values)) in
  let s := Lazy.write keys K v before in
  Lazy.read require keys K (Lazy.run require keys between s)
  = (Return v, Lazy.run require keys between s) /\
  loads s = loads before /\ mod' s = mod' before.
Proof.
  intros Hb before s.
  pose proof (wf_run require keys ops _
                (wf_defineLazyProperties require keys values)) as W.
  fold before in W. split.
  - apply settled_read. apply (settled_run require keys); [| |exact Hb].
    + now apply wf_write.
    + now apply write_settles.
  - subst s. unfold Lazy.write.
    destruct (target before !! K) as [[i b|x]|]; split; reflexivity.
Qed.

Lemma loaded_step s o m :
  mod' s = Some m ->
  mod' (Lazy.step require keys s o) = Some m /\
  loads (Lazy.step require keys s o) = loads s.
Proof.
  intros Hm. destruct o as [K|K v]; cbn.
  - unfold Lazy.read. destruct (target s !! K) as [[i b|x]|]; cbn; auto.
    unfold Lazy.get, Lazy.load. rewrite Hm.
    destruct (nth i (lazyLoadedValue s) VUndefined); cbn; auto.
  - unfold Lazy.write. destruct (target s !! K) as [[i b|x]|]; cbn; auto.
Qed.

Lemma loaded_run ops : forall s m,
  mod' s = Some m ->
  mod' (Lazy.run require keys ops s) = Some m /\
  loads (Lazy.run require keys ops s) = loads s.
Proof.
  induction ops as [|o ops IH]; intros s m Hm; [auto|].
  change (Lazy.run require keys (o :: ops) s)
    with (Lazy.run require keys ops (Lazy.step require keys s o)).
  destruct (loaded_step s o m Hm) as [Hm' Hl'].
  destruct (IH _ m Hm') as [H1 H2]. rewrite H2, Hl'. auto.
Qed.

(** X17. One load serves all keys: once [require(id)] has returned the
    module, no read or write calls the loader again, and the first read of
    every key still lazy returns that module's export for the key
    ([undefined] when the module has none). *)
Theorem loaded_module_serves_all (values : gmap string Value)
    (ops more : list op) (m : gmap string Value) (K : string) :
  let s := Lazy.run require keys ops
             (defineLazyProperties keys (plain values)) in
  mod' s = Some m ->
  let s' := Lazy.run require keys more s in
  loads s' = loads s /\
  mod' s' = Some m /\
  (forall i b, target s' !! K = Some (Accessor i b) ->
     fst (Lazy.read require keys K s') = Return (export m K) /\
     loads (snd (Lazy.read require keys K s')) = loads s).
Proof.
  intros s Hm s'.
  destruct (loaded_run more s m Hm) as [Hm' Hl'].
  fold s' in Hm', Hl'. split; [exact Hl'|]. split; [exact Hm'|].
  intros i b Et.
  assert (W : wf require keys s').
  { apply wf_run, wf_run, wf_defineLazyProperties. }
  destruct (wf_accessor require keys s' W K i b Et) as (Hk & _ & Hv).
  destruct (loaded_step s' (Read K) m Hm') as [_ Hl2]. cbn in Hl2.
  split; [|now rewrite Hl2].
  unfold Lazy.read, Lazy.get, Lazy.load. rewrite Et, Hm', Hv. cbn.
  now rewrite Hk.
Qed.

(** *** defineReplaceableLazyAttribute *)

Lemma nth_insert_same {A} (l : list A) (j : nat) (x d : A) :
  (j < length l)%nat -> nth j (<[j := x]> l) d = x.
Proof.
  intros H. rewrite nth_lookup, list_lookup_insert_eq by assumption.
  reflexivity.
Qed.

Section ReplaceableMore.

Variable check : option (Value -> option Value).

Local Abbreviation r_get := (Lazy.r_get require keys check).
Local Abbreviation r_read := (Lazy.r_read require keys check).

(** X18. For a property of [defineReplaceableLazyAttribute]: [check] runs
    first on every read and its exception is the read's, whatever is cached;
    after the setter of a writable property was called, reads return the
    value set, [undefined] included, without calling the loader; and a read
    that returns is repeated by the next read with no further call of the
    loader. *)
Theorem replaceable_reads (rs : RState) (K : string) (j : nat) (c : bool)
    (this : Value) :
  r_target rs !! K = Some (Accessor j c) ->
  (j < length (r_value rs))%nat ->
  (j < length (r_setterCalled rs))%nat ->
  (forall e, check_throws check this = Some e ->
     r_read K this rs = (Throw (Thrown e), rs)) /\
  (check_throws check this = None ->
   (c = true ->
    forall v, r_read K this (r_set j v rs) = (Return v, r_set j v rs)) /\
   (forall v rs1, r_read K this rs = (Return v, rs1) ->
      r_read K this rs1 = (Return v, rs1))).
Proof.
  intros Ht Hv Hs. split.
  - intros e He. unfold Lazy.r_read, Lazy.r_get. now rewrite Ht, He.
  - intros Hc. split.
    + intros _ v. unfold Lazy.r_read, Lazy.r_get, r_set.
      cbn [r_target r_setterCalled r_value]. rewrite Ht, Hc.
      rewrite !nth_insert_same by assumption.
      reflexivity.
    + intros v rs1. unfold Lazy.r_read, Lazy.r_get. rewrite Ht, Hc.
      destruct (nth j (r_setterCalled rs) false) eqn:Esc.
      * intros [= <- <-]. now rewrite Ht, Esc.
      * unfold Lazy.r_load.
        destruct (r_mod rs) as [m|] eqn:Em.
        -- intros [= <- <-]. cbn. rewrite Ht, Esc, Em. cbn.
           rewrite nth_insert_same by assumption.
           rewrite list_insert_insert_eq.
           destruct (nth j (r_value rs) VUndefined); try reflexivity;
             destruct (export m (key_of keys j)); reflexivity.
        -- destruct (require (r_loads rs)) as [m|e]; [|discriminate].
           intros [= <- <-]. cbn. rewrite Ht, Esc. cbn.
           rewrite nth_insert_same by assumption.
           rewrite list_insert_insert_eq.
           destruct (nth j (r_value rs) VUndefined); try reflexivity;
             destruct (export m (key_of keys j)); reflexivity.
Qed.

End ReplaceableMore.

End LazyMore.

Lemma lazy_write_bypasses_loader_witness :
  let never := fun _ : nat => Lazy.Fails (VStr "ENOENT") in
  let ks := ["foo"; "bar"]%string in
  let s := Lazy.write ks "foo" (VNum 5) (Lazy.defineLazyProperties ks (Lazy.plain ∅)) in
  let between := [Lazy.Read "bar"; Lazy.Write "bar" VNull] in
  Lazy.read never ks "foo" (Lazy.run never ks between s)
  = (Return (VNum 5), Lazy.run never ks between s).
Proof.
  intros never ks s between.
  apply (lazy_write_bypasses_loader never ks ∅ [] between "foo" (VNum 5)).
  reflexivity.
Defined.

Lemma loaded_module_serves_all_witness :
  let M := fun _ : nat => Lazy.Exports {[ "foo" := VNum 1 ]} in
  let ks := ["foo"; "bar"]%string in
  let s' := Lazy.run M ks [Lazy.Read "foo"] (Lazy.defineLazyProperties ks (Lazy.plain ∅)) in
  Lazy.loads s' = 1%nat /\
  fst (Lazy.read M ks "bar" s') = Return VUndefined /\
  Lazy.loads (snd (Lazy.read M ks "bar" s')) = 1%nat.
Proof.
  intros M ks s'.
  pose proof (loaded_module_serves_all M ks ∅ [Lazy.Read "foo"] []
                {[ "foo" := VNum 1 ]} "bar") as H. cbv zeta in H.
  assert (Hm : Lazy.mod' s' = Some {[ "foo" := VNum 1 ]})
    by (vm_compute; reflexivity).
  destruct (H Hm) as (H1 & _ & H3).
  split; [exact H1|].
  destruct (H3 1%nat true) as [H4 H5]; [vm_compute; reflexivity|].
  split; [|exact H5]. etransitivity; [exact H4|]. vm_compute. reflexivity.
Defined.

Lemma replaceable_reads_witness :
  let never := fun _ : nat => Lazy.Fails (VStr "ENOENT") in
  let ks := ["foo"]%string in
  let rs := Lazy.defineReplaceableLazyAttribute ks (Lazy.plain ∅) true in
  Lazy.r_read never ks None "foo" VUndefined (Lazy.r_set 0 VUndefined rs)
  = (Return VUndefined, Lazy.r_set 0 VUndefined rs).
Proof.
  intros never ks rs.
  assert (Ht : Lazy.r_target rs !! "foo"%string = Some (Lazy.Accessor 0 true))
    by (vm_compute; reflexivity).
  assert (Hv : (0 < length (Lazy.r_value rs))%nat) by (cbn; lia).
  assert (Hs : (0 < length (Lazy.r_setterCalled rs))%nat) by (cbn; lia).
  destruct (replaceable_reads never ks None rs "foo" 0 true VUndefined
              Ht Hv Hs) as [_ H].
  destruct (H eq_refl) as [H1 _]. exact (H1 eq_refl VUndefined).
Defined.

(** ** More on promisify *)

Section PromisifyMore.
Import Promisify.

Variable thenable : Resolution -> bool.
Variable inherits_proto_accessor : loc -> bool.

Local Abbreviation callback :=
  (Promisify.callback thenable inherits_proto_accessor).
Local Abbreviation fn := (Promisify.fn thenable inherits_proto_accessor).

(** X19. The promise of the adapter settles once, by what happens first.
    The first call of the callback decides it, whatever is reported by later
    calls and even when the original throws or returns a promise afterwards;
    an exception of the original rejects it only if the callback was not
    called before; with neither, the promise is pending when the adapter
    returns and the first later call decides. A promise settled at the
    return never changes, and neither does one that was resolved with a
    thenable and follows it. *)
Theorem promise_settles_once (names : option (list string)) (b : Behaviour) :
  exists r, fn names b = Return r /\
    (at_return r <> Pending -> eventually r = at_return r) /\
    (forall c cs, during b = c :: cs ->
       at_return r = callback names c Pending /\ at_return r <> Pending) /\
    (during b = [] ->
       (forall e, completion b = Throws e ->
          at_return r = Rejected e /\ eventually r = Rejected e) /\
       (forall p, completion b = Returns p ->
          at_return r = Pending /\
          (later b = [] -> eventually r = Pending) /\
          (forall c cs, later b = c :: cs ->
             eventually r = callback names c Pending))).
Proof.
  unfold Promisify.fn, Promisify.executor.
  destruct b as [d [p|e] l]; cbn [during completion later].
  - destruct p; eexists; (split; [reflexivity|]); cbn [at_return eventually];
      (split; [intros Hp; now apply callbacks_settled|]);
      (split; [intros c cs ->; rewrite callbacks_first;
                 split; [reflexivity|apply callback_settles]|]);
      intros ->; (split; [intros e; discriminate|]);
      intros p _; cbn; (split; [reflexivity|]);
      (split; [intros ->; reflexivity|]);
      intros c cs ->; apply callbacks_first.
  - eexists; (split; [reflexivity|]); cbn [at_return eventually].
    split; [intros Hp; now apply callbacks_settled|].
    split.
    + intros c cs ->. rewrite callbacks_first.
      pose proof (callback_settles thenable inherits_proto_accessor names c)
        as Hs.
      destruct (callback names c Pending); [congruence|split..];
        cbn; congruence.
    + intros ->. split; [|intros p; discriminate].
      intros e' [= <-]. cbn. split; [reflexivity|].
      apply callbacks_settled. discriminate.
Qed.

(** X20. [promisify] never changes a function it is given or any other
    object: a failed call leaves the heap as it was, and a successful one
    only redefines the [util.promisify.custom] property of the function it
    returns or allocates the adapter. What it returns is a function, every
    object keeps its code, prototype and other own properties, and a fresh
    adapter has the prototype and the own properties of the original. *)
Theorem promisify_frame (original : Value) (h h' : list Obj) (fn : loc) :
  promisify original h = (Return fn, h') ->
  is_function h' (VRef fn) = true /\
  (forall k o, h !! k = Some o ->
     exists o', h' !! k = Some o' /\
       code o' = code o /\ proto o' = proto o /\
       argNames o' = argNames o /\ statics o' = statics o /\
       (k <> fn -> o' = o)) /\
  (forall l o, original = VRef l -> h !! l = Some o ->
     truthy (get_custom (length h) h l) = false ->
     fn = length h /\
     exists a, h' = h ++ [a] /\
       code a = Adapter l (get_argNames (length h) h l) /\
       proto a = proto o /\ statics a = statics o).
Proof.
  intros Hp. pose proof (promisify_promisified h original) as Hc.
  rewrite Hp in Hc.
  inversion Hc as [| | |l g o Hv Hf Ht Hg Ho Hco Ha
                    | |l o Hv Ho Hco Ht Ha]; subst.
  - split; [|split].
    + unfold defineCustom. cbn. rewrite list_lookup_alter_eq, Ho. cbn.
      exact Hco.
    + intros k o' Hk. unfold defineCustom.
      destruct (decide (k = fn)) as [->|Hne].
      * rewrite list_lookup_alter_eq, Hk. cbn. eexists. split; [reflexivity|].
        cbn. repeat split; congruence.
      * rewrite list_lookup_alter_ne by congruence.
        exists o'. repeat split; auto.
    + intros l0 o0 [= <-] _ Hfalse. congruence.
  - split; [|split].
    + cbn. rewrite lookup_app_r by lia. rewrite Nat.sub_diag. reflexivity.
    + intros k o' Hk. exists o'. rewrite lookup_app_l, Hk
        by (eapply lookup_lt_Some; exact Hk).
      repeat split; auto.
    + intros l0 o0 [= <-] Ho0 _. split; [reflexivity|].
      rewrite Ho in Ho0. injection Ho0 as <-.
      eexists. split; [reflexivity|]. cbn.
      repeat split. apply (right_id_L ∅ (∪)).
Qed.

End PromisifyMore.

Lemma promisify_frame_witness :
  Promisify.is_function
    (snd (Promisify.promisify (VRef 0%nat) Promisify.xy_heap)) (VRef 1%nat)
  = true.
Proof.
  destruct (promisify_frame (VRef 0%nat) Promisify.xy_heap
              (snd (Promisify.promisify (VRef 0%nat) Promisify.xy_heap))
              1%nat eq_refl) as [H _].
  exact H.
Defined.

(** ** callbackify *)

Section CallbackifyFacts.
Import Callbackify.

Variable thenable : Promisify.Resolution -> bool.
Variable inherits_proto_accessor : loc -> bool.

Lemma callbackifyOnRejected_args fresh rej :
  cb_args (callbackifyOnRejected fresh rej)
  = [if truthy rej then rej else VRef fresh].
Proof. unfold callbackifyOnRejected. now destruct (truthy rej). Qed.

Lemma validateFunction_function h v :
  Promisify.is_function h v = true ->
  exists l, Promisify.validateFunction h v "last argument" = Return l.
Proof.
  intros Hf. destruct v; try discriminate.
  unfold Promisify.validateFunction. rewrite Hf. now eexists.
Qed.

(** X21. The callback of a callbackified function is error-first without
    ambiguity: when it is called, its first argument is truthy exactly when
    the promise was rejected. A fulfilment is reported as [(null, ret)],
    whatever [ret] is; a rejection as its reason alone, replaced by a newly
    created error if the reason is falsy. *)
Theorem callbackified_error_first (h : list Promisify.Obj)
    (original : list Value -> Applied) (fresh : loc) (args : list Value)
    (t : Tick) :
  callbackified h original fresh args = Return (Some t) ->
  (truthy (nth 0 (cb_args t) VUndefined) = true <->
   exists rej, original (removelast args) = Promised (Rejects rej)) /\
  (forall ret, original (removelast args) = Promised (Fulfils ret) ->
     cb_args t = [VNull; ret]) /\
  (forall rej, original (removelast args) = Promised (Rejects rej) ->
     cb_args t = [if truthy rej then rej else VRef fresh] /\
     (created t = if truthy rej then None else Some rej)).
Proof.
  unfold callbackified.
  destruct (Promisify.validateFunction h _ _) as [l|e]; [|discriminate].
  destruct (original (removelast args)) as [e|[|ret|rej]]; try discriminate.
  - intros [= <-]. cbn. split; [|split].
    + split; [discriminate|]. intros [rej Hr]. discriminate.
    + now intros ret' [= <-].
    + discriminate.
  - intros [= <-]. split; [|split].
    + rewrite callbackifyOnRejected_args. cbn.
      split; [eauto|]. intros _. now destruct (truthy rej) eqn:E.
    + discriminate.
    + intros rej' [= <-]. split; [apply callbackifyOnRejected_args|].
      unfold callbackifyOnRejected. now destruct (truthy rej).
Qed.

Lemma callbackified_as_native h original fresh args cb :
  Promisify.is_function h cb = true ->
  behaviour (callbackified h original fresh (args ++ [cb]))
  = Some (as_native original fresh args).
Proof.
  intros Hf. unfold callbackified, as_native.
  rewrite last_last, removelast_last.
  destruct (validateFunction_function h cb Hf) as [l ->].
  destruct (original args) as [e|[|ret|rej]]; reflexivity.
Qed.

(** X22. [promisify] undoes [callbackify], for a function without a custom
    implementation. [callbackify] copies the own properties of the original,
    its custom marker among them, so [promisify] finds on the callbackified
    function the marker the original has of its own. When it finds a falsy
    one or none, it returns an adapter whose promise is pending at the
    return of a call unless the original threw, and ends as the original's
    promise does: resolved with the same value, or rejected with the same
    reason, a falsy reason being replaced by the error created for it. No
    warning is emitted. *)
Theorem promisify_callbackify_round_trip (h h1 h2 : list Promisify.Obj)
    (applied : list Value -> Applied) (fresh : loc)
    (function_prototype : option loc) (f c a : loc) (o : Promisify.Obj)
    (args : list Value) :
  h !! f = Some o ->
  callbackify applied fresh function_prototype (VRef f) h = (Return c, h1) ->
  Promisify.promisify (VRef c) h1 = (Return a, h2) ->
  (forall marker, Promisify.custom o = Some marker ->
     Promisify.get_custom (length h1) h1 c = marker) /\
  (forall hh cb, Promisify.is_function hh cb = true ->
     behaviour (callbackified hh applied fresh (args ++ [cb]))
     = Some (as_native applied fresh args)) /\
  (truthy (Promisify.get_custom (length h1) h1 c) = false ->
   exists r,
     Promisify.call thenable inherits_proto_accessor h2 a args
     = Some (Return r) /\
     Promisify.warnings_of (Promisify.events r) = [] /\
     Promisify.at_return r
     = match applied args with
       | Threw e => Promisify.Rejected e
       | Promised _ => Promisify.Pending
       end /\
     Promisify.eventually r
     = match applied args with
       | Threw e => Promisify.Rejected e
       | Promised Never => Promisify.Pending
       | Promised (Fulfils ret) =>
           Promisify.resolve thenable (Promisify.Single ret) Promisify.Pending
       | Promised (Rejects rej) =>
           Promisify.Rejected (if truthy rej then rej else VRef fresh)
       end).
Proof.
  intros Ho Hc Hp.
  assert (Hcb : exists len name,
            Promisify.accepts_properties o = true /\
            c = length h /\
            h1 = h ++ [Promisify.defineProperties
                         {| Promisify.code :=
                              Promisify.Native (as_native applied fresh);
                            Promisify.proto := function_prototype;
                            Promisify.custom := None;
                            Promisify.argNames := None;
                            Promisify.statics := ∅;
                            Promisify.extensible := true;
                            Promisify.custom_configurable := true;
                            Promisify.loose_prototype := false |}
                         {| Promisify.code := Promisify.code o;
                            Promisify.proto := Promisify.proto o;
                            Promisify.custom := Promisify.custom o;
                            Promisify.argNames := Promisify.argNames o;
                            Promisify.statics :=
                              <["name"%string := tag_name name]>
                                (<["length"%string := bump_length len]>
                                   (Promisify.statics o));
                            Promisify.extensible := Promisify.extensible o;
                            Promisify.custom_configurable :=
                              Promisify.custom_configurable o;
                            Promisify.loose_prototype :=
                              Promisify.loose_prototype o |}]).
  { unfold callbackify in Hc.
    destruct (Promisify.validateFunction h (VRef f) "original") as [l|e]
      eqn:Ev; [|discriminate].
    apply validateFunction_Return in Ev as [[= <-] _].
    rewrite Ho in Hc. cbn [default from_option id] in Hc.
    destruct (Promisify.statics o !! "length"%string) as [len|];
      [|discriminate].
    destruct (Promisify.statics o !! "name"%string) as [name|];
      [|discriminate].
    destruct (Promisify.accepts_properties o); [|discriminate].
    injection Hc as <- <-. exists len, name. auto. }
  destruct Hcb as (len & name & Hacc & -> & ->).
  set (co := Promisify.defineProperties _ _) in *.
  assert (Hco : (h ++ [co]) !! length h = Some co)
    by (apply list_lookup_middle; reflexivity).
  assert (Hlen : length (h ++ [co]) = S (length h))
    by (rewrite length_app, Nat.add_comm; reflexivity).
  split; [|split].
  - intros marker Hm. rewrite Hlen.
    apply (get_custom_own _ _ _ co); [exact Hco|].
    subst co. cbn. now rewrite Hm.
  - intros hh cb. apply callbackified_as_native.
  - intros Ht.
    destruct (promisify_default_returns _ _ _ _ Ht Hp)
      as (o' & Ho' & _ & _ & -> & ->).
    rewrite Hco in Ho'. injection Ho' as <-.
    unfold Promisify.call.
    rewrite list_lookup_middle by reflexivity.
    cbn [Promisify.code Promisify.defineProperties adapter_of].
    rewrite lookup_app_l by (rewrite Hlen; lia).
    rewrite Hco. subst co. cbn [Promisify.code Promisify.defineProperties].
    unfold Promisify.fn, Promisify.executor, as_native.
    cbn [Promisify.during Promisify.completion Promisify.later].
    destruct (applied args) as [e|[|ret|rej]];
      (eexists; split; [reflexivity|]);
      cbn [Promisify.events Promisify.at_return Promisify.eventually
           fold_left map app Promisify.reject Promisify.warnings_of flat_map].
    + repeat split.
    + repeat split.
    + repeat split. unfold Promisify.callback. cbn.
      destruct (Promisify.get_argNames _ _ _) as [names|]; reflexivity.
    + repeat split. rewrite callbackifyOnRejected_args.
      unfold Promisify.callback. cbn.
      destruct (truthy rej) eqn:E; [now rewrite E|reflexivity].
Qed.

End CallbackifyFacts.

Lemma callbackified_error_first_witness :
  let original := fun _ : list Value =>
    Callbackify.Promised (Callbackify.Rejects VNull) in
  let t := Callbackify.callbackifyOnRejected 7%nat VNull in
  Callbackify.cb_args t = [VRef 7%nat] /\
  Callbackify.created t = Some VNull.
Proof.
  intros original t.
  destruct (callbackified_error_first (Promisify.marked VUndefined) original
              7%nat [VNum 1; VRef 0%nat] t eq_refl) as (_ & _ & H).
  exact (H VNull eq_refl).
Defined.

Lemma promisify_callbackify_round_trip_witness :
  let applied := fun _ : list Value =>
    Callbackify.Promised (Callbackify.Rejects (VNum 0)) in
  let h1 := snd (Callbackify.callbackify applied 7%nat (Some 0%nat)
                   (VRef 1%nat) Callbackify.async_heap) in
  let h2 := snd (Promisify.promisify (VRef 2%nat) h1) in
  exists r,
    Promisify.call (fun _ => false) (fun _ => false) h2 3%nat [VNum 1]
    = Some (Return r) /\
    Promisify.eventually r = Promisify.Rejected (VRef 7%nat).
Proof.
  intros applied h1 h2.
  assert (Ho : Callbackify.async_heap !! 1%nat
               = Some (Promisify.declared
                         (Promisify.Native
                            (fun _ => {| Promisify.during := [];
                                         Promisify.completion :=
                                           Promisify.Returns true;
                                         Promisify.later := [] |}))
                         None None
                         {[ "length"%string := VNum 1;
                            "name"%string := VStr "f" ]}))
    by reflexivity.
  assert (Hc : Callbackify.callbackify applied 7%nat (Some 0%nat)
                 (VRef 1%nat) Callbackify.async_heap = (Return 2%nat, h1))
    by (vm_compute; reflexivity).
  assert (Hp : Promisify.promisify (VRef 2%nat) h1 = (Return 3%nat, h2))
    by (vm_compute; reflexivity).
  destruct (promisify_callbackify_round_trip (fun _ => false) (fun _ => false)
              _ _ _ applied 7%nat (Some 0%nat) 1%nat 2%nat 3%nat _ [VNum 1]
              Ho Hc Hp) as (_ & _ & H).
  destruct H as (r & Hr & _ & _ & He); [vm_compute; reflexivity|].
  exists r. split; [exact Hr|exact He].
Defined.

(** ** _extend and filterOwnProperties *)

Section ObjectsFacts.
Import Objects.



Section Extend.

Variable ObjectKeys : gmap string Value -> list string.
Hypothesis ObjectKeys_own :
  forall m k, k ∈ ObjectKeys m <-> is_Some (m !! k).









End Extend.

Lemma filter_loop_lookup (source : gmap string Value) (keys : list string) :
  forall (filtered : gmap string Value) (k : string),
  filter_loop source keys filtered !! k
  = if decide (k ∈ keys) then
      match source !! k with Some v => Some v | None => filtered !! k end
    else filtered !! k.
Proof.
  induction keys as [|key keys IH]; intros filtered k.
  - destruct (decide (k ∈ [])) as [Hk|_]; [|reflexivity].
    now apply elem_of_nil in Hk.
  - cbn [filter_loop].
    destruct (source !! key) as [v|] eqn:Hv; rewrite IH.
    + destruct (decide (k ∈ keys)) as [Hk|Hk].
      * destruct (decide (k ∈ key :: keys)) as [_|Hn].
        -- destruct (source !! k) eqn:Hsk; [reflexivity|].
           destruct (decide (k = key)) as [->|Hne]; [congruence|].
           now rewrite lookup_insert_ne by congruence.
        -- exfalso. apply Hn, elem_of_cons. now right.
      * destruct (decide (k = key)) as [->|Hne].
        -- rewrite lookup_insert_eq, Hv.
           destruct (decide (key ∈ key :: keys)) as [_|Hn]; [reflexivity|].
           exfalso. apply Hn, elem_of_cons. now left.
        -- rewrite lookup_insert_ne by congruence.
           destruct (decide (k ∈ key :: keys)) as [Hc|_]; [|reflexivity].
           apply elem_of_cons in Hc. destruct Hc; contradiction.
    + destruct (decide (k ∈ keys)) as [Hk|Hk].
      * destruct (decide (k ∈ key :: keys)) as [_|Hn]; [reflexivity|].
        exfalso. apply Hn, elem_of_cons. now right.
      * destruct (decide (k ∈ key :: keys)) as [Hc|_]; [|reflexivity].
        apply elem_of_cons in Hc. destruct Hc as [->|Hc]; [|contradiction].
        now rewrite Hv.
Qed.

(** X24. [filterOwnProperties(source, keys)] is [source] restricted to the
    listed keys: a listed key that [source] has keeps its value, every
    other key is absent, and repeated or unknown keys in the list change
    nothing. The result is contained in [source], and filtering it again
    by the same keys gives it back. *)
Theorem filterOwnProperties_restricts (source : gmap string Value)
    (keys : list string) :
  (forall k, filterOwnProperties source keys !! k
             = if decide (k ∈ keys) then source !! k else None) /\
  filterOwnProperties source keys ⊆ source /\
  filterOwnProperties (filterOwnProperties source keys) keys
  = filterOwnProperties source keys.
Proof.
  assert (H : forall src k, filterOwnProperties src keys !! k
                        = if decide (k ∈ keys) then src !! k else None).
  { intros src k. unfold filterOwnProperties. rewrite filter_loop_lookup.
    rewrite lookup_empty. destruct (decide (k ∈ keys)); [|reflexivity].
    now destruct (src !! k). }
  split; [apply H|]. split.
  - apply map_subseteq_spec. intros k v. rewrite H.
    destruct (decide (k ∈ keys)); [auto|discriminate].
  - apply map_eq. intros k. rewrite !H.
    destruct (decide (k ∈ keys)); reflexivity.
Qed.

End ObjectsFacts.


(** ** getCWDURL *)

Section CwdFacts.
Import Cwd.

Variable sep : string.
Variable pathToFileURL : string -> string.

Local Abbreviation getCWDURL := (Cwd.getCWDURL sep pathToFileURL).
Local Abbreviation run := (Cwd.run sep pathToFileURL).

(** The cache after some calls: the directory is the last one seen, and the
    URL is the one of that directory; with none seen, the URL is not set
    or is the root's. *)
Definition cwd_inv (seen : option string) (s : State) : Prop :=
  cachedCWD s = seen /\
  match seen with
  | Some c => cachedURL s = Some (pathToFileURL (c ++ sep))
  | None => cachedURL s = None \/ cachedURL s = Some (pathToFileURL sep)
  end.

Lemma cwd_inv_step seen cwd s :
  cwd_inv seen s ->
  cwd_inv (last_cwd [cwd] seen) (snd (getCWDURL cwd s)) /\
  fst (getCWDURL cwd s)
  = Some (match last_cwd [cwd] seen with
          | Some c => pathToFileURL (c ++ sep)
          | None => pathToFileURL sep
          end).
Proof.
  intros [Hc Hu]. unfold Cwd.getCWDURL.
  destruct cwd as [c|]; cbn [last_cwd].
  - destruct (bool_decide_reflect (cachedCWD s = Some c)) as [E|E]; cbn.
    + destruct seen as [c'|]; [|congruence].
      assert (c' = c) by congruence. subst c'.
      split; [split; [exact Hc|exact Hu]|exact Hu].
    + split; [split; reflexivity|reflexivity].
  - cbn. destruct seen as [c|].
    + rewrite Hu. cbn. split; [split; [exact Hc|reflexivity]|reflexivity].
    + split.
      * split; [exact Hc|]. right. now destruct Hu as [-> | ->].
      * now destruct Hu as [-> | ->].
Qed.

Lemma cwd_inv_run cwds : forall seen s,
  cwd_inv seen s ->
  cwd_inv (last_cwd cwds seen) (run cwds s) \/ cwds = [].
Proof.
  induction cwds as [|cwd cwds IH]; intros seen s Hi; [now right|].
  left. destruct (cwd_inv_step seen cwd s Hi) as [H1 _].
  change (run (cwd :: cwds) s) with (run cwds (snd (getCWDURL cwd s))).
  destruct (IH _ _ H1) as [H | ->].
  - destruct cwd; exact H.
  - destruct cwd; exact H1.
Qed.

(** X25. [getCWDURL] never returns [undefined]. After any earlier calls it
    returns the URL of [process.cwd() + sep] when [process.cwd()] succeeds,
    cached or not; when it throws, the URL of the last directory that was
    seen, and the URL of the root only if none was seen yet. *)
Theorem getCWDURL_last_known (cwds : list (option string))
    (cwd : option string) :
  fst (getCWDURL cwd (run cwds init))
  = Some (match last_cwd (cwds ++ [cwd]) None with
          | Some c => pathToFileURL (c ++ sep)
          | None => pathToFileURL sep
          end) /\
  (forall c, cwd = Some c -> last_cwd (cwds ++ [cwd]) None = Some c).
Proof.
  assert (H0 : cwd_inv None init) by (split; [reflexivity|now left]).
  assert (Hl : forall l seen, last_cwd (l ++ [cwd]) seen
                              = last_cwd [cwd] (last_cwd l seen)).
  { induction l as [|[c|] l IHl]; intros seen; cbn; auto. }
  split.
  - rewrite Hl.
    destruct (cwd_inv_run cwds None init H0) as [H| ->].
    + exact (proj2 (cwd_inv_step _ cwd _ H)).
    + exact (proj2 (cwd_inv_step _ cwd _ H0)).
  - intros c ->. rewrite Hl. reflexivity.
Qed.

End CwdFacts.

(** ** SyncWriteStream *)

Section SyncWriteStreamFacts.
Import SyncWriteStream.

Local Ltac step_cases s o :=
  unfold step, _write, _destroy;
  destruct o as [chunk [e|]|err [e|]];
  try destruct (decide (fd s = VNull));
  try destruct (truthy (autoClose s)) eqn:?;
  cbn [fst snd fd autoClose readable].

(** An event that touches no descriptor. *)
Definition quiet (ev : Event) : Prop :=
  match ev with
  | CloseSync _ _ => False
  | WriteSync x _ _ _ _ => x = VNull
  | Cb _ => True
  end.

(** A [closeSync] of the stream made with [fd0] and [autoClose0]. *)
Definition closes_own (fd0 autoClose0 : Value) (ev : Event) : Prop :=
  match ev with
  | CloseSync x _ => x = fd0 /\ fd0 <> VNull /\ truthy autoClose0 = true
  | _ => True
  end.

Lemma run_invariant (P : t -> Prop) (Q : Event -> Prop) :
  (forall s o, P s -> P (snd (fst (step s o))) /\ Forall Q (snd (step s o))) ->
  forall ops s, P s -> P (fst (run ops s)) /\ Forall Q (snd (run ops s)).
Proof.
  intros Hstep. induction ops as [|o ops IH]; intros s Hs.
  - split; [exact Hs|constructor].
  - cbn [run]. destruct (Hstep s o Hs) as [H1 H2].
    destruct (step s o) as [[r s1] evs1]. cbn [fst snd] in H1, H2.
    destruct (IH s1 H1) as [H3 H4].
    destruct (run ops s1) as [s2 evs2]. cbn [fst snd] in *.
    split; [exact H3|]. apply Forall_app. split; assumption.
Qed.

Lemma closes_own_step fd0 a s o :
  (fd s = fd0 \/ fd s = VNull) /\ autoClose s = a ->
  ((fd (snd (fst (step s o))) = fd0 \/ fd (snd (fst (step s o))) = VNull) /\
   autoClose (snd (fst (step s o))) = a) /\
  Forall (closes_own fd0 a) (snd (step s o)).
Proof.
  intros [Hf Ha]. step_cases s o;
    (split; [split; [auto|exact Ha]|]);
    repeat constructor; cbn; try tauto;
    destruct Hf as [Hf|Hf]; congruence.
Qed.

Lemma quiet_step s o :
  fd s = VNull ->
  fd (snd (fst (step s o))) = VNull /\ Forall quiet (snd (step s o)).
Proof.
  intros Hf. step_cases s o; try contradiction;
    (split; [auto|]); repeat constructor; cbn; auto.
Qed.

Lemma closed_ok_count ops : forall s,
  let evs := snd (run ops s) in
  (length (List.filter closed_ok evs) <= 1)%nat /\
  (fd s = VNull -> length (List.filter closed_ok evs) = 0%nat) /\
  ((0 < length (List.filter closed_ok evs))%nat ->
   fd (fst (run ops s)) = VNull).
Proof.
  induction ops as [|o ops IH]; intros s; cbn zeta.
  - cbn. repeat split; lia.
  - cbn [run].
    assert (Hs : let r := step s o in
              (length (List.filter closed_ok (snd r)) = 0%nat /\
               (fd s = VNull -> fd (snd (fst r)) = VNull)) \/
              (length (List.filter closed_ok (snd r)) = 1%nat /\
               fd s <> VNull /\ fd (snd (fst r)) = VNull)).
    { cbn zeta. step_cases s o; cbn; auto. }
    cbn zeta in Hs.
    destruct (step s o) as [[r s1] evs1]. cbn [fst snd] in Hs.
    specialize (IH s1). cbn zeta in IH. destruct IH as (I1 & I2 & I3).
    pose proof (fun H => proj1 (run_invariant (fun s => fd s = VNull) quiet
                                  quiet_step ops s1 H)) as Hp.
    destruct (run ops s1) as [s2 evs2]. cbn [fst snd] in *.
    rewrite List.filter_app, length_app.
    destruct Hs as [[H0 Hn]|(H1 & Hnn & Hn)].
    + rewrite H0. cbn. split; [exact I1|]. split; [auto|exact I3].
    + rewrite H1, (I2 Hn). split; [lia|]. split; [contradiction|].
      intros _. exact (Hp Hn).
Qed.

Lemma closed_ok_elem evs x :
  CloseSync x None ∈ evs -> (0 < length (List.filter closed_ok evs))%nat.
Proof.
  induction evs as [|ev evs IH]; intros Hin.
  - now apply elem_of_nil in Hin.
  - apply elem_of_cons in Hin. destruct Hin as [<-|Hin]; [cbn; lia|].
    cbn. destruct (closed_ok ev); cbn; [lia|auto].
Qed.

(** X26. A [SyncWriteStream] closes its descriptor at most once. Over any
    calls of [_write] and [_destroy], [closeSync] is only called with the
    descriptor the stream was made with, never with [null] and never when
    [autoClose] is falsy; at most one such call succeeds, and after it the
    descriptor is [null]: no later call closes anything or writes to
    anything but [null]. *)
Theorem closeSync_at_most_once (fd0 : Value)
    (options : option (gmap string Value)) (ops more : list op) :
  let s0 := new fd0 options in
  let evs := snd (run ops s0) in
  Forall (closes_own fd0 (autoClose s0)) evs /\
  (length (List.filter closed_ok evs) <= 1)%nat /\
  ((exists x, CloseSync x None ∈ evs) ->
   fd (fst (run ops s0)) = VNull /\
   Forall quiet (snd (run more (fst (run ops s0))))).
Proof.
  intros s0 evs. split; [|split].
  - apply (run_invariant _ _ (closes_own_step fd0 (autoClose s0))).
    split; [now left|reflexivity].
  - apply (closed_ok_count ops s0).
  - intros [x Hx].
    assert (Hn : fd (fst (run ops s0)) = VNull).
    { apply (closed_ok_count ops s0). eapply closed_ok_elem. exact Hx. }
    split; [exact Hn|].
    apply (run_invariant _ _ quiet_step). exact Hn.
Qed.

(** X27. Every call of [_write] and of [_destroy] calls its callback exactly
    once, also when [writeSync] throws or the stream is already destroyed;
    the only exception is a [_destroy] whose [closeSync] throws, which
    calls none. From any state of the stream, the calls of callbacks and
    the failed closes together are as many as the calls made. *)
Theorem callback_once_per_call (ops : list op) (s : t) :
  let evs := snd (run ops s) in
  (length (List.filter is_cb evs) + length (List.filter close_failed evs)
   = length ops)%nat.
Proof.
  revert s. induction ops as [|o ops IH]; intros s; [reflexivity|].
  cbn [run].
  assert (Hs : (length (List.filter is_cb (snd (step s o)))
                + length (List.filter close_failed (snd (step s o)))
                = 1)%nat).
  { step_cases s o; reflexivity. }
  destruct (step s o) as [[r s1] evs1]. cbn [snd] in Hs.
  specialize (IH s1). destruct (run ops s1) as [s2 evs2].
  cbn [snd length] in *. rewrite !List.filter_app, !length_app. lia.
Qed.

End SyncWriteStreamFacts.

(** ** DOMException *)

Section DOMExceptionFacts.
Import DOMException.

(** The names and values of the table. *)
Definition legacy_codes : list (string * Z) :=
  map (fun '(name, _, value) => (name, value)) legacy.

Lemma nameToCodeMap_table : nameToCodeMap = list_to_map legacy_codes.
Proof. vm_compute. reflexivity. Qed.

Lemma legacy_names_NoDup : NoDup (map fst legacy_codes).
Proof. apply (bool_decide_unpack _). vm_compute. exact I. Qed.

Lemma legacy_values_NoDup : NoDup (map snd legacy_codes).
Proof. apply (bool_decide_unpack _). vm_compute. exact I. Qed.

Lemma NoDup_snd_inj {A B} (l : list (A * B)) (a b : A) (c : B) :
  NoDup (map snd l) -> (a, c) ∈ l -> (b, c) ∈ l -> a = b.
Proof.
  induction l as [|[x y] l IH]; intros Hnd Ha Hb.
  - now apply elem_of_nil in Ha.
  - cbn in Hnd. apply NoDup_cons in Hnd. destruct Hnd as [Hy Hnd].
    assert (Hin : forall z, (z, c) ∈ l -> c ∈ map snd l).
    { intros z Hz. apply list_elem_of_fmap. now exists (z, c). }
    apply elem_of_cons in Ha. apply elem_of_cons in Hb.
    destruct Ha as [[= -> ->]|Ha], Hb as [[= -> ]|Hb]; auto.
    + exfalso. apply Hy. eauto.
    + subst y. exfalso. apply Hy. eauto.
Qed.

Lemma legacy_codes_elem n v :
  (n, v) ∈ legacy_codes <-> exists codeName, (n, codeName, v) ∈ legacy.
Proof.
  unfold legacy_codes. rewrite list_elem_of_fmap. split.
  - intros ([[n' cn] v'] & [= -> ->] & Hin). eauto.
  - intros [cn Hin]. exists (n, cn, v). auto.
Qed.

Lemma nameToCodeMap_lookup n v :
  nameToCodeMap !! n = Some v <-> exists codeName, (n, codeName, v) ∈ legacy.
Proof.
  rewrite nameToCodeMap_table, <- legacy_codes_elem.
  symmetry. apply elem_of_list_to_map. apply legacy_names_NoDup.
Qed.

Lemma legacy_range n codeName v :
  (n, codeName, v) ∈ legacy ->
  1 <= v <= 25 /\
  (v = 2 \/ v = 6 \/ v = 16 -> n ∈ disusedNamesSet).
Proof.
  intros Hin. unfold legacy in Hin.
  repeat (apply elem_of_cons in Hin; destruct Hin as [[= -> -> ->]|Hin];
          [split; [lia|];
           intros Hv; try (exfalso; lia);
           apply (bool_decide_unpack _); vm_compute; exact I|]).
  now apply elem_of_nil in Hin.
Qed.

(** X28. The [code] getter of a [DOMException] throws exactly when [this]
    has no internals. Otherwise it returns the value the table gives for the
    exception's name, which is not 0, when the name is in the table and not
    disused, and 0 when the name is disused or not in the table; so the code
    is between 0 and 25, never 2, 6 or 16, and two exceptions with the same
    code other than 0 have the same name. *)
Theorem DOMException_code (internalsMap : gmap loc Internals) (this : Value) :
  (get_code internalsMap this = ERR_INVALID_THIS "DOMException" <->
   internals_of internalsMap this = None) /\
  (forall internals,
     internals_of internalsMap this = Some internals ->
     exists c,
       get_code internalsMap this = Returned c /\
       (forall codeName v,
          (name internals, codeName, v) ∈ legacy ->
          (name internals ∉ disusedNamesSet) ->
          c = v /\ c <> 0) /\
       (name internals ∈ disusedNamesSet -> c = 0) /\
       ((forall codeName v, (name internals, codeName, v) ∉ legacy) ->
        c = 0) /\
       0 <= c <= 25 /\ c <> 2 /\ c <> 6 /\ c <> 16 /\
       (forall this' internals',
          internals_of internalsMap this' = Some internals' ->
          get_code internalsMap this' = Returned c -> c <> 0 ->
          name internals' = name internals)).
Proof.
  assert (Hcode : forall i c,
            (if bool_decide (name i ∈ disusedNamesSet) then Returned 0
             else match nameToCodeMap !! name i with
                  | None => Returned 0
                  | Some code => Returned code
                  end) = Returned c ->
            c <> 0 ->
            (name i ∉ disusedNamesSet) /\
            exists codeName, (name i, codeName, c) ∈ legacy).
  { intros i c. destruct (bool_decide_reflect (name i ∈ disusedNamesSet));
      [intros [= <-]; contradiction|].
    destruct (nameToCodeMap !! name i) as [v|] eqn:Ev;
      [|intros [= <-]; contradiction].
    intros [= <-] _. split; [assumption|].
    now apply nameToCodeMap_lookup. }
  unfold get_code. split.
  - destruct (internals_of internalsMap this) as [i|]; [|tauto].
    split; [|discriminate].
    destruct (bool_decide _); [discriminate|].
    destruct (nameToCodeMap !! name i); discriminate.
  - intros i Ei. rewrite Ei.
    set (r := if bool_decide (name i ∈ disusedNamesSet) then Returned 0
              else match nameToCodeMap !! name i with
                   | None => Returned 0
                   | Some code => Returned code
                   end).
    assert (Hr : exists c, r = Returned c).
    { subst r. destruct (bool_decide _); [eauto|].
      destruct (nameToCodeMap !! name i); eauto. }
    destruct Hr as [c Hc]. exists c. split; [exact Hc|].
    assert (Hnz : c <> 0 -> (name i ∉ disusedNamesSet) /\
                  exists codeName, (name i, codeName, c) ∈ legacy)
      by (apply Hcode; exact Hc).
    split; [|split; [|split]].
    + intros cn v Hin Hd. subst r.
      destruct (bool_decide_reflect (name i ∈ disusedNamesSet));
        [contradiction|].
      assert (Hl : nameToCodeMap !! name i = Some v)
        by (apply nameToCodeMap_lookup; eauto).
      rewrite Hl in Hc. injection Hc as <-. split; [reflexivity|].
      destruct (legacy_range _ _ _ Hin). lia.
    + intros Hd. destruct (decide (c = 0)) as [E|E]; [exact E|].
      now destruct (Hnz E).
    + intros Hno. destruct (decide (c = 0)) as [E|E]; [exact E|].
      destruct (Hnz E) as [_ [cn Hin]]. now destruct (Hno cn c).
    + destruct (decide (c = 0)) as [->|E].
      * split; [lia|]. do 3 (split; [lia|]). congruence.
      * destruct (Hnz E) as [Hd [cn Hin]].
        destruct (legacy_range _ _ _ Hin) as [Hrange Hdis].
        split; [lia|].
        assert (H3 : c <> 2 /\ c <> 6 /\ c <> 16).
        { repeat split; intros ->; apply Hd, Hdis; auto. }
        destruct H3 as (H2 & H6 & H16).
        do 3 (split; [assumption|]).
        intros this' i' Ei' Hc' _. rewrite Ei' in Hc'.
        destruct (Hcode i' c Hc' E) as [_ [cn' Hin']].
        assert (Ha : (name i, c) ∈ legacy_codes)
          by (apply legacy_codes_elem; eauto).
        assert (Hb : (name i', c) ∈ legacy_codes)
          by (apply legacy_codes_elem; eauto).
        symmetry. exact (NoDup_snd_inj _ _ _ _ legacy_values_NoDup Ha Hb).
Qed.

End DOMExceptionFacts.

Lemma DOMException_code_witness :
  let internalsMap : gmap nat DOMException.Internals :=
    {[ 0%nat := {| DOMException.message := "stop";
                   DOMException.name := "AbortError" |} ]} in
  DOMException.get_code internalsMap (VRef 0%nat) = DOMException.Returned 20.
Proof.
  intros internalsMap.
  destruct (DOMException_code internalsMap (VRef 0%nat)) as [_ H].
  destruct (H {| DOMException.message := "stop";
                 DOMException.name := "AbortError" |})
    as (c & Hc & Htable & _).
  { vm_compute. reflexivity. }
  destruct (Htable "ABORT_ERR"%string 20) as [-> _].
  - apply (bool_decide_unpack _). vm_compute. exact I.
  - apply (bool_decide_unpack _). vm_compute. exact I.
  - exact Hc.
Defined.
